(** * CRM browser utilities: a shallow embedding of [src/utils.js] and
    [src/js/utils.js], and the properties of their specification.

    The two source files are two generations of the same helper library.
    [Module Utils] embeds [src/utils.js] and [Module JsUtils] embeds
    [src/js/utils.js]; [Module JS] holds the fragment of the JavaScript
    runtime both rely on (primitive values, coercions, exceptions, anchored
    regular expressions, own-property enumeration order) and [Module Dom]
    the fragment of the document tree. *)

From Stdlib Require Import ZArith Ascii String List Lia Bool.
From stdpp Require Import base option list strings pretty gmap.

Local Open Scope Z_scope.

(* ===================================================================== *)
(** * The JavaScript fragment shared by both files                        *)
(* ===================================================================== *)

Module JS.

(** Primitive values.  Strings are sequences of code units below 256;
    numbers are the integer-valued ones (of magnitude below 10^21, which
    print as plain decimal numerals): this covers lengths, status codes and
    the bounds given to [minLength] and [maxLength]. *)
Inductive jsval : Type :=
| VUndef
| VNull
| VBool (b : bool)
| VNum (n : Z)
| VStr (s : string).

Inductive exn : Type :=
| TypeError
| SyntaxError (message : string)
| Error (message : string).

(** The outcome of running a piece of code: a value, or a thrown exception
    (for an [async] function: a resolved or a rejected promise). *)
Inductive completion (A : Type) : Type :=
| Normal (a : A)
| Throw (e : exn).
Arguments Normal {A} a.
Arguments Throw {A} e.

#[global] Instance completion_ret : MRet completion := @Normal.
#[global] Instance completion_bind : MBind completion :=
  fun A B f m => match m with Normal a => f a | Throw e => Throw e end.
#[global] Instance completion_fmap : FMap completion :=
  fun A B f m => match m with Normal a => Normal (f a) | Throw e => Throw e end.

(** ToBoolean *)
Definition truthy (v : jsval) : bool :=
  match v with
  | VUndef | VNull => false
  | VBool b => b
  | VNum n => negb (n =? 0)
  | VStr s => negb (String.eqb s EmptyString)
  end.

(** ToString *)
Definition ToString (v : jsval) : string :=
  match v with
  | VUndef => "undefined"
  | VNull => "null"
  | VBool true => "true"
  | VBool false => "false"
  | VNum n => pretty n
  | VStr s => s
  end.

(** [a || b] *)
Definition or_else (a b : jsval) : jsval := if truthy a then a else b.

(** ** Characters and strings *)

(** The class [\s], on code units below 256: TAB, LF, VT, FF, CR, SPACE and
    NO-BREAK SPACE. *)
Definition is_space (c : ascii) : bool :=
  match c with
  | "009" | "010" | "011" | "012" | "013" | " " | "160" => true
  | _ => false
  end%char.

(** The class [\d]. *)
Definition is_digit (c : ascii) : bool :=
  match c with
  | "0" | "1" | "2" | "3" | "4" | "5" | "6" | "7" | "8" | "9" => true
  | _ => false
  end%char.

Definition is_char (a c : ascii) : bool := Ascii.eqb a c.

Fixpoint ltrim (s : string) : string :=
  match s with
  | String c s' => if is_space c then ltrim s' else s
  | EmptyString => EmptyString
  end.

Fixpoint rtrim (s : string) : string :=
  match s with
  | EmptyString => EmptyString
  | String c s' =>
      match rtrim s' with
      | EmptyString => if is_space c then EmptyString else String c EmptyString
      | t => String c t
      end
  end.

(** [String.prototype.trim] *)
Definition trim (s : string) : string := rtrim (ltrim s).

(** [s.replace(/[...]/g, '')]: every code unit of the class is deleted. *)
Fixpoint remove_all (cls : ascii -> bool) (s : string) : string :=
  match s with
  | EmptyString => EmptyString
  | String c s' => if cls c then remove_all cls s' else String c (remove_all cls s')
  end.

Definition str_length (s : string) : Z := Z.of_nat (String.length s).

(** ** Decimal numerals *)

Definition digit_value (c : ascii) : option N :=
  N.of_nat <$> Ascii.is_nat c.

Fixpoint digits_from (acc : N) (s : string) : option N :=
  match s with
  | EmptyString => Some acc
  | String c s' =>
      match digit_value c with
      | Some d => digits_from (acc * 10 + d)%N s'
      | None => None
      end
  end.

(** A non-empty run of decimal digits. *)
Definition decimal (s : string) : option N :=
  match s with
  | EmptyString => None
  | _ => digits_from 0%N s
  end.

(** StringToNumber on the signed decimal integer numerals, surrounding
    white space ignored and the empty string read as 0; [None] is NaN.
    Numerals in other notations (a fraction, an exponent, a radix prefix,
    [Infinity]) mostly denote numbers that are not values of [VNum]; they
    are outside the fragment and read as NaN here. *)
Definition StringToNumber (s : string) : option Z :=
  match trim s with
  | EmptyString => Some 0
  | String "-" d => (fun n => - Z.of_N n) <$> decimal d
  | String "+" d => Z.of_N <$> decimal d
  | t => Z.of_N <$> decimal t
  end.

(** ToNumber; [None] is NaN. *)
Definition ToNumber (v : jsval) : option Z :=
  match v with
  | VUndef => None
  | VNull => Some 0
  | VBool b => Some (if b then 1 else 0)
  | VNum n => Some n
  | VStr s => StringToNumber s
  end.

(** [x >= y] and [x <= y] for a number [x]; a comparison with NaN is
    false. *)
Definition num_ge (x : option Z) (y : jsval) : bool :=
  match x, ToNumber y with
  | Some a, Some b => b <=? a
  | _, _ => false
  end.

Definition num_le (x : option Z) (y : jsval) : bool :=
  match x, ToNumber y with
  | Some a, Some b => a <=? b
  | _, _ => false
  end.

(** [value.length] converted to a number, for a value that is not
    [undefined] or [null]: the length of a string; booleans and numbers
    have no such property, and [undefined] converts to NaN. *)
Definition length_of (v : jsval) : option Z :=
  match v with
  | VStr s => Some (str_length s)
  | _ => None
  end.

(** ** Regular expressions

    The patterns of the source are anchored at both ends ([^...$], no
    flags), so [test] is a match of the whole string.  Matching is by
    derivatives. *)
Inductive regex : Type :=
| Void
| Eps
| Class (cls : ascii -> bool)
| Cat (r1 r2 : regex)
| Alt (r1 r2 : regex)
| Star (r : regex).

Fixpoint nullable (r : regex) : bool :=
  match r with
  | Void => false
  | Eps => true
  | Class _ => false
  | Cat r1 r2 => nullable r1 && nullable r2
  | Alt r1 r2 => nullable r1 || nullable r2
  | Star _ => true
  end.

Fixpoint deriv (c : ascii) (r : regex) : regex :=
  match r with
  | Void => Void
  | Eps => Void
  | Class cls => if cls c then Eps else Void
  | Cat r1 r2 =>
      if nullable r1 then Alt (Cat (deriv c r1) r2) (deriv c r2)
      else Cat (deriv c r1) r2
  | Alt r1 r2 => Alt (deriv c r1) (deriv c r2)
  | Star r1 => Cat (deriv c r1) (Star r1)
  end.

Fixpoint matches (r : regex) (s : string) : bool :=
  match s with
  | EmptyString => nullable r
  | String c s' => matches (deriv c r) s'
  end.

(** [r?], [r+] and [r{0,n}] *)
Definition Opt (r : regex) : regex := Alt Eps r.
Definition Plus (r : regex) : regex := Cat r (Star r).
Fixpoint UpTo (n : nat) (r : regex) : regex :=
  match n with
  | O => Eps
  | S n' => Opt (Cat r (UpTo n' r))
  end.

(** [regex.test(value)]: the argument is converted to a string first. *)
Definition test (r : regex) (v : jsval) : bool := matches r (ToString v).

(** The language of a pattern, as a relation. *)
Inductive Matches : regex -> string -> Prop :=
| MEps : Matches Eps EmptyString
| MClass cls c : cls c = true -> Matches (Class cls) (String c EmptyString)
| MCat r1 r2 s1 s2 : Matches r1 s1 -> Matches r2 s2 -> Matches (Cat r1 r2) (s1 +:+ s2)
| MAltL r1 r2 s : Matches r1 s -> Matches (Alt r1 r2) s
| MAltR r1 r2 s : Matches r2 s -> Matches (Alt r1 r2) s
| MStar0 r : Matches (Star r) EmptyString
| MStarS r s1 s2 : Matches r s1 -> Matches (Star r) s2 -> Matches (Star r) (s1 +:+ s2).

(** ** Objects

    An object is the list of its own enumerable string-keyed properties in
    insertion order, keys pairwise distinct.  Properties inherited from
    [Object.prototype] are not represented: reading a name the object does
    not own gives [undefined] here, which is what the code reads except for
    the names of [Object.prototype] ([toString], [__proto__] and the
    like). *)
Definition obj (A : Type) : Type := list (string * A).

Definition own_keys {A} (o : obj A) : list string := o.*1.

Fixpoint own {A} (o : obj A) (key : string) : option A :=
  match o with
  | [] => None
  | (k, v) :: o' => if String.eqb k key then Some v else own o' key
  end.

(** [o[key]] on an object of primitive values *)
Definition get (o : obj jsval) (key : string) : jsval :=
  default VUndef (own o key).

(** An array index is the canonical numeral of an integer below 2^32 - 1. *)
Definition array_index (key : string) : option N :=
  match decimal key with
  | Some n =>
      if (String.eqb (pretty n) key && (n <? 4294967295)%N)%bool then Some n else None
  | None => None
  end.

Fixpoint insert_index {A} (n : N) (p : string * A) (l : list (N * (string * A)))
  : list (N * (string * A)) :=
  match l with
  | [] => [(n, p)]
  | (m, q) :: l' =>
      if (n <? m)%N then (n, p) :: l else (m, q) :: insert_index n p l'
  end.

(** The properties whose key is an array index, in ascending index order. *)
Fixpoint index_props {A} (o : obj A) : list (N * (string * A)) :=
  match o with
  | [] => []
  | p :: o' =>
      match array_index p.1 with
      | Some n => insert_index n p (index_props o')
      | None => index_props o'
      end
  end.

Fixpoint named_props {A} (o : obj A) : obj A :=
  match o with
  | [] => []
  | p :: o' =>
      match array_index p.1 with
      | Some _ => named_props o'
      | None => p :: named_props o'
      end
  end.

(** [Object.entries(o)]: own properties in enumeration order, array
    indices first in ascending order, then the other keys in insertion
    order. *)
Definition entries {A} (o : obj A) : list (string * A) :=
  (index_props o).*2 ++ named_props o.

(** [Object.values(o)] *)
Definition values {A} (o : obj A) : list A := (entries o).*2.

(** [const { k1, ..., kn, ...rest } = o]: the rest object receives the
    other properties in enumeration order. *)
Definition rest {A} (excluded : list string) (o : obj A) : obj A :=
  filter (fun p => p.1 ∉ excluded) (entries o).

(** Two properties with the same key and related values. *)
Definition same_keys {A B} (R : A -> B -> Prop) (p : string * A) (q : string * B) : Prop :=
  p.1 = q.1 /\ R p.2 q.2.

(** [a[0]] on an array of primitive values *)
Definition first (a : list jsval) : jsval := default VUndef (head a).

(** ** Validation rules as the caller writes them

    A rule is a JavaScript value: a primitive (a bare validator name is the
    string case), an object literal, or a function from the field's value to
    an error message. *)
Inductive rule : Type :=
| RuleVal (v : jsval)
| RuleObj (o : obj jsval)
| RuleFun (f : jsval -> completion jsval).

(** What calling a registry member returns: a value, or (for the curried
    validators) a function still waiting for the field's value. *)
Inductive callres : Type :=
| Val (v : jsval)
| Fn (f : jsval -> completion jsval).

Definition truthy_res (r : callres) : bool :=
  match r with
  | Val v => truthy v
  | Fn _ => true
  end.

(** [r(arg)]: calling something that is not a function is a TypeError. *)
Definition call (r : callres) (arg : jsval) : completion jsval :=
  match r with
  | Fn f => f arg
  | Val _ => Throw TypeError
  end.

(** [registry[name](arg)]: a name the registry does not own reads as
    [undefined], and calling it is a TypeError. *)
Definition call_member (registry : obj (jsval -> completion callres))
    (name : string) (arg : jsval) : completion callres :=
  match own registry name with
  | Some f => f arg
  | None => Throw TypeError
  end.

(** [formData[field]] *)
Definition field_value (formData : gmap string jsval) (field : string) : jsval :=
  default VUndef (formData !! field).

(** The patterns of both files. *)
Definition not_space_at (c : ascii) : bool := negb (is_space c || is_char "@" c).
Definition is_nonzero_digit (c : ascii) : bool := is_digit c && negb (is_char "0" c).

(** [/^[^\s@]+@[^\s@]+\.[^\s@]+$/] *)
Definition emailRegex : regex :=
  Cat (Plus (Class not_space_at))
    (Cat (Class (is_char "@"))
       (Cat (Plus (Class not_space_at))
          (Cat (Class (is_char ".")) (Plus (Class not_space_at))))).

(** [/^[+]?[1-9][\d]{0,15}$/] *)
Definition phoneRegex : regex :=
  Cat (Opt (Class (is_char "+")))
    (Cat (Class is_nonzero_digit) (UpTo 15 (Class is_digit))).

(** [errors[field] = msg], for [errors] created by [{}] and [msg] a string
    or another truthy primitive, which is what the loop assigns.  The key
    [__proto__] is not created: the assignment finds the accessor that
    [errors] inherits from [Object.prototype] and calls its setter, which
    does nothing with a value that is not an object.  Every other key
    becomes, or stays, an own property (the properties [Object.prototype]
    has besides are writable data properties, which an assignment
    shadows). *)
Definition assign (errors : gmap string jsval) (field : string) (msg : jsval)
  : gmap string jsval :=
  if String.eqb field "__proto__" then errors else <[field := msg]> errors.

(** ** The validation loop of both files

    [for (const rule of fieldRules) { ... if (failed) { errors[field] = msg; break } }]
    inside [for (const [field, fieldRules] of Object.entries(rules))].
    [check] is the body's test of one rule: [Some msg] when the rule fails.
    Besides the error found, the inner loop returns the rules it visited,
    which is ghost information for the statements about evaluation order. *)
Section Loop.
Variable check : string -> jsval -> rule -> completion (option jsval).

Fixpoint first_error (field : string) (value : jsval) (fieldRules : list rule)
  : completion (option jsval * list rule) :=
  match fieldRules with
  | [] => Normal (None, [])
  | r :: more =>
      outcome ← check field value r;
      match outcome with
      | Some msg => Normal (Some msg, [r])
      | None =>
          '(e, seen) ← first_error field value more;
          Normal (e, r :: seen)
      end
  end.

Fixpoint each_field (formData : gmap string jsval)
    (fields : list (string * list rule))
    (errors : gmap string jsval) (visited : list (string * list rule))
  : completion (gmap string jsval * list (string * list rule)) :=
  match fields with
  | [] => Normal (errors, visited)
  | (field, fieldRules) :: more =>
      let value := field_value formData field in
      '(e, seen) ← first_error field value fieldRules;
      each_field formData more
        (match e with Some msg => assign errors field msg | None => errors end)
        (visited ++ [(field, seen)])
  end.
End Loop.

End JS.

(* ===================================================================== *)
(** * The network boundary                                                *)
(* ===================================================================== *)

Module Net.
Import JS.

(** JSON data, the response of the fetch-style transport, the request
    configuration handed to it, and what a call leaves behind: the lines
    written with [console.error] and the requests issued. *)
#[warnings="-register-all"] Inductive json : Type :=
| JNull
| JBool (b : bool)
| JNum (n : Z)
| JStr (s : string)
| JArr (items : list json)
| JObj (props : list (string * json)).

Definition json_truthy (j : json) : bool :=
  match j with
  | JNull => false
  | JBool b => b
  | JNum n => negb (n =? 0)
  | JStr s => negb (String.eqb s EmptyString)
  | JArr _ | JObj _ => true
  end.

(** [typeof j === "object"] *)
Definition json_is_object (j : json) : bool :=
  match j with
  | JNull | JArr _ | JObj _ => true
  | _ => false
  end.

Record response : Type := {
  ok : bool;
  status : Z;
  json_body : completion json     (* response.json() *)
}.

(** The options of a call and the configuration built from them; an absent
    property is [None]. *)
Record options : Type := {
  method : option string;
  body : option json;
  headers : option (gmap string string)
}.

Record world : Type := {
  console : list (string * exn);
  sent : list (string * options)
}.

Definition log_error (label : string) (e : exn) (w : world) : world :=
  {| console := console w ++ [(label, e)]; sent := sent w |}.
Definition record_request (url : string) (config : options) (w : world) : world :=
  {| console := console w; sent := sent w ++ [(url, config)] |}.

(** [{ ...a, ...b }] on header objects: the later spread wins. *)
Definition spread_headers (a b : gmap string string) : gmap string string := b ∪ a.

(** [{ headers: merged, ...options }]: every property [options] owns
    replaces the one written before the spread. *)
Definition spread_options (merged : gmap string string) (o : options) : options :=
  {| method := method o;
     body := body o;
     headers := Some (default merged (headers o)) |}.

Definition with_body (b : option json) (o : options) : options :=
  {| method := method o; body := b; headers := headers o |}.

End Net.

(* ===================================================================== *)
(** * The document tree                                                   *)
(* ===================================================================== *)

Module Dom.
Import JS.

(** What the helpers read and write on an element.  [toast] is the timer
    handle of the dismissal timer that holds a reference to the element
    (only notification nodes have one); it stands for the identity of the
    node captured by the timer's closure. *)
Record attrs : Type := {
  tag : string;
  id : string;                 (* the empty string: no id *)
  classes : list string;       (* classList *)
  disabled : bool;
  overflow : string;           (* style.overflow *)
  toast : option nat
}.

#[warnings="-register-all"] Inductive node : Type :=
| Elem (a : attrs) (kids : list node)
| Text (data : string).

(** The document: its head and body elements with their subtrees, the
    next timer handle and the pending dismissal timers (handle and delay).
    The root element has no id or class of its own. *)
Record document : Type := {
  head : attrs;
  head_kids : list node;
  body : attrs;
  body_kids : list node;
  next_handle : nat;
  timers : list (nat * Z)
}.

(** A reference to an element of the document: the head or body element
    ([[]]) or a descendant, by child positions. *)
Inductive place : Type :=
| InHead (p : list nat)
| InBody (p : list nat).

(** Code that reads and writes the document and may throw: the document
    left behind is returned in both cases. *)
Definition dom (A : Type) : Type := document -> completion A * document.

Definition dom_ret {A} (a : A) : dom A := fun d => (Normal a, d).
Definition dom_bind {A B} (m : dom A) (k : A -> dom B) : dom B :=
  fun d => match m d with
           | (Normal a, d') => k a d'
           | (Throw e, d') => (Throw e, d')
           end.
Definition dom_throw {A} (e : exn) : dom A := fun d => (Throw e, d).

Notation "m ;;; k" := (dom_bind m (fun _ => k))
  (at level 60, right associativity).

Definition set_attrs_classes (cs : list string) (a : attrs) : attrs :=
  {| tag := tag a; id := id a; classes := cs; disabled := disabled a;
     overflow := overflow a; toast := toast a |}.
Definition set_attrs_disabled (b : bool) (a : attrs) : attrs :=
  {| tag := tag a; id := id a; classes := classes a; disabled := b;
     overflow := overflow a; toast := toast a |}.
Definition set_attrs_overflow (v : string) (a : attrs) : attrs :=
  {| tag := tag a; id := id a; classes := classes a; disabled := disabled a;
     overflow := v; toast := toast a |}.
Definition set_attrs_id (v : string) (a : attrs) : attrs :=
  {| tag := tag a; id := v; classes := classes a; disabled := disabled a;
     overflow := overflow a; toast := toast a |}.
Definition set_attrs_toast (h : option nat) (a : attrs) : attrs :=
  {| tag := tag a; id := id a; classes := classes a; disabled := disabled a;
     overflow := overflow a; toast := h |}.

Definition set_head (a : attrs) (ks : list node) (d : document) : document :=
  {| head := a; head_kids := ks; body := body d; body_kids := body_kids d;
     next_handle := next_handle d; timers := timers d |}.
Definition set_body (a : attrs) (ks : list node) (d : document) : document :=
  {| head := head d; head_kids := head_kids d; body := a; body_kids := ks;
     next_handle := next_handle d; timers := timers d |}.
Definition set_timers (n : nat) (ts : list (nat * Z)) (d : document) : document :=
  {| head := head d; head_kids := head_kids d; body := body d;
     body_kids := body_kids d; next_handle := n; timers := ts |}.

(** ** Looking elements up: the first match in document order *)

(** The first match among the children [ks], numbered from [i]. *)
Definition find_in_kids (find : node -> option (list nat))
  : nat -> list node -> option (list nat) :=
  fix go (i : nat) (ks : list node) : option (list nat) :=
    match ks with
    | [] => None
    | k :: ks' =>
        match find k with
        | Some p => Some (i :: p)
        | None => go (S i) ks'
        end
    end.

Fixpoint find_node (P : attrs -> bool) (n : node) : option (list nat) :=
  match n with
  | Text _ => None
  | Elem a kids => if P a then Some [] else find_in_kids (find_node P) O kids
  end.

Definition find_first (P : attrs -> bool) (d : document) : option place :=
  match find_node P (Elem (head d) (head_kids d)) with
  | Some p => Some (InHead p)
  | None => InBody <$> find_node P (Elem (body d) (body_kids d))
  end.

Fixpoint node_at (p : list nat) (n : node) : option node :=
  match p, n with
  | [], _ => Some n
  | i :: p', Elem _ kids => kids !! i ≫= node_at p'
  | _ :: _, Text _ => None
  end.

(** The element a reference points to. *)
Definition elem_at (pl : place) (d : document) : option (attrs * list node) :=
  let at_node p n :=
    match node_at p n with
    | Some (Elem a ks) => Some (a, ks)
    | _ => None
    end in
  match pl with
  | InHead p => at_node p (Elem (head d) (head_kids d))
  | InBody p => at_node p (Elem (body d) (body_kids d))
  end.

Definition has_id (name : string) (a : attrs) : bool :=
  negb (String.eqb name EmptyString) && String.eqb (id a) name.
Definition has_class (name : string) (a : attrs) : bool :=
  bool_decide (name ∈ classes a).

(** [document.getElementById(id)]; [None] is [null]. *)
Definition getElementById (name : string) (d : document) : option place :=
  find_first (has_id name) d.

(** The selectors the source uses: ["#name"] and [".name"]. *)
Inductive selector : Type :=
| IdSel (name : string)
| ClassSel (name : string).

(** [document.querySelector(selector)] *)
Definition querySelector (sel : selector) (d : document) : option place :=
  match sel with
  | IdSel name => find_first (has_id name) d
  | ClassSel name => find_first (has_class name) d
  end.

(** ** Writing to an element *)

Definition on_elem (fa : attrs -> attrs) (fk : list node -> list node)
    (n : node) : node :=
  match n with
  | Elem a ks => Elem (fa a) (fk ks)
  | Text data => Text data
  end.

Fixpoint alter_node (f : node -> node) (p : list nat) (n : node) : node :=
  match p, n with
  | [], _ => f n
  | i :: p', Elem a kids => Elem a (alter (alter_node f p') i kids)
  | _ :: _, Text data => Text data
  end.

Definition edit_at (pl : place) (fa : attrs -> attrs)
    (fk : list node -> list node) (d : document) : document :=
  match pl with
  | InHead [] => set_head (fa (head d)) (fk (head_kids d)) d
  | InHead (i :: p) =>
      set_head (head d) (alter (alter_node (on_elem fa fk) p) i (head_kids d)) d
  | InBody [] => set_body (fa (body d)) (fk (body_kids d)) d
  | InBody (i :: p) =>
      set_body (body d) (alter (alter_node (on_elem fa fk) p) i (body_kids d)) d
  end.

(** A write through a variable [el] holding an element or [null]: reading a
    property of [null] is a TypeError, raised before anything is written. *)
Definition write (el : option place) (fa : attrs -> attrs)
    (fk : list node -> list node) : dom unit :=
  fun d =>
    match el with
    | Some pl =>
        match elem_at pl d with
        | Some _ => (Normal tt, edit_at pl fa fk d)
        | None => (Throw TypeError, d)
        end
    | None => (Throw TypeError, d)
    end.

(** [classList.remove], [classList.add] and [classList.toggle] *)
Definition tokens_remove (tok : string) (cs : list string) : list string :=
  filter (fun c => c ≠ tok) cs.
Definition tokens_add (tok : string) (cs : list string) : list string :=
  if bool_decide (tok ∈ cs) then cs else cs ++ [tok].
Definition tokens_toggle (tok : string) (cs : list string) : list string :=
  if bool_decide (tok ∈ cs) then tokens_remove tok cs else cs ++ [tok].

Definition on_classes (f : list string -> list string) (a : attrs) : attrs :=
  set_attrs_classes (f (classes a)) a.

Definition classList_remove (el : option place) (tok : string) : dom unit :=
  write el (on_classes (tokens_remove tok)) (fun ks => ks).
Definition classList_add (el : option place) (tok : string) : dom unit :=
  write el (on_classes (tokens_add tok)) (fun ks => ks).
Definition classList_toggle (el : option place) (tok : string) : dom unit :=
  write el (on_classes (tokens_toggle tok)) (fun ks => ks).

(** [document.body.style.overflow = v] *)
Definition set_body_overflow (v : string) : dom unit :=
  fun d => (Normal tt, set_body (set_attrs_overflow v (body d)) (body_kids d) d).

(** ** Markup

    An HTML string assigned to [innerHTML] is represented by the nodes the
    parser builds from it.  They are new nodes: no timer refers to them. *)
Fixpoint parsed (n : node) : node :=
  match n with
  | Elem a kids => Elem (set_attrs_toast None a) (parsed <$> kids)
  | Text data => Text data
  end.

(** ASCII white space, which separates the tokens of a class attribute:
    TAB, LF, FF, CR and SPACE. *)
Definition is_ascii_whitespace (c : ascii) : bool :=
  match c with
  | "009" | "010" | "012" | "013" | " " => true
  | _ => false
  end%char.

(** The tokens of a [className] string: its maximal runs of characters
    that are not white space, each kept once, where it occurs first. *)
Fixpoint tokens_go (cur : string) (s : string) : list string :=
  let flush := match cur with EmptyString => [] | _ => [String.rev cur] end in
  match s with
  | EmptyString => flush
  | String c s' =>
      if is_ascii_whitespace c then flush ++ tokens_go EmptyString s'
      else tokens_go (String c cur) s'
  end.
Fixpoint first_occurrences (seen l : list string) : list string :=
  match l with
  | [] => []
  | x :: l' =>
      if bool_decide (x ∈ seen) then first_occurrences seen l'
      else x :: first_occurrences (x :: seen) l'
  end.
Definition tokens (s : string) : list string :=
  first_occurrences [] (tokens_go EmptyString s).

(** [node.remove()] for the notification that timer [h] refers to: the
    node leaves the tree together with its subtree. *)
Fixpoint prune_node (h : nat) (n : node) : option node :=
  match n with
  | Text data => Some (Text data)
  | Elem a kids =>
      if bool_decide (toast a = Some h) then None
      else Some (Elem a (omap (prune_node h) kids))
  end.
Definition prune (h : nat) (ns : list node) : list node :=
  omap (prune_node h) ns.

End Dom.

(* ===================================================================== *)
(** * [src/utils.js]: the validator registry and [validateForm]           *)
(* ===================================================================== *)

Module Utils.
Import JS Dom.

(** ** [class ApiClient] *)
Module ApiClient.
Import Net.
Section Runtime.
(** The transport and the JSON serializer of the runtime. *)
Variable fetch : string -> options -> completion response.
Variable JSON_stringify : json -> string.

Record ApiClient : Type := { baseUrl : string }.

Definition default_headers : gmap string string :=
  {[ "Content-Type" := "application/json" ]}.

(** The [url] and [config] of [request], up to the call of [fetch]. *)
Definition prepare (this : ApiClient) (endpoint : string) (o : options)
  : string * options :=
  let url := baseUrl this +:+ endpoint in
  let config :=
    spread_options
      (spread_headers default_headers (default ∅ (headers o))) o in
  let config :=
    match body config with
    | Some b =>
        if json_truthy b && json_is_object b
        then with_body (Some (JStr (JSON_stringify b))) config
        else config
    | None => config
    end in
  (url, config).

Definition request (this : ApiClient) (endpoint : string) (o : options)
    (w : world) : completion json * world :=
  let '(url, config) := prepare this endpoint o in
  let w := record_request url config w in
  let attempt :=
    response ← fetch url config;
    if negb (ok response)
    then Throw (Error ("HTTP error! status: " +:+ ToString (VNum (status response))))
    else json_body response in
  match attempt with
  | Normal data => (Normal data, w)
  | Throw error => (Throw error, log_error "API request failed:" error w)
  end.

Definition get (this : ApiClient) (endpoint : string) :=
  request this endpoint
    {| method := Some "GET"; body := None; headers := None |}.

Definition post (this : ApiClient) (endpoint : string) (data : json) :=
  request this endpoint
    {| method := Some "POST"; body := Some data; headers := None |}.

Definition put (this : ApiClient) (endpoint : string) (data : json) :=
  request this endpoint
    {| method := Some "PUT"; body := Some data; headers := None |}.

Definition delete (this : ApiClient) (endpoint : string) :=
  request this endpoint
    {| method := Some "DELETE"; body := None; headers := None |}.
End Runtime.
End ApiClient.

(** [value && value.toString().trim() !== ''] *)
Definition required (value : jsval) : completion callres :=
  Normal (Val (if truthy value
               then VBool (negb (String.eqb (trim (ToString value)) EmptyString))
               else value)).

Definition email (value : jsval) : completion callres :=
  Normal (Val (VBool (test emailRegex value))).

(** The class [[\s\-$$$$]] of the source: white space, the dash and the
    dollar sign. *)
Definition phone_noise (c : ascii) : bool :=
  is_space c || is_char "-" c || is_char "$" c.

(** [phoneRegex.test(value.replace(/[\s\-$$$$]/g, ''))]; only strings have
    a [replace] method. *)
Definition phone (value : jsval) : completion callres :=
  match value with
  | VStr s => Normal (Val (VBool (test phoneRegex (VStr (remove_all phone_noise s)))))
  | _ => Throw TypeError
  end.

(** [(min) => (value) => value && value.length >= min] *)
Definition minLength (min : jsval) : completion callres :=
  Normal (Fn (fun value =>
    Normal (if truthy value then VBool (num_ge (length_of value) min) else value))).

(** [(max) => (value) => !value || value.length <= max] *)
Definition maxLength (max : jsval) : completion callres :=
  Normal (Fn (fun value =>
    Normal (VBool (negb (truthy value) || num_le (length_of value) max)))).

Definition validators : obj (jsval -> completion callres) :=
  [ ("required", required); ("email", email); ("phone", phone);
    ("minLength", minLength); ("maxLength", maxLength) ].

(** The body of the inner loop: one rule against the field's value. *)
Definition check (field : string) (value : jsval) (r : rule)
  : completion (option jsval) :=
  match r with
  | RuleVal (VStr name) =>
      (* typeof rule === "string" *)
      ok ← call_member validators name value;
      Normal (if truthy_res ok then None
              else Some (VStr (field +:+ " is " +:+ name)))
  | RuleVal VNull =>
      (* typeof null === "object"; null cannot be destructured *)
      Throw TypeError
  | RuleObj o =>
      (* const { validator, message, ...params } = rule *)
      let validator := get o "validator" in
      let message := get o "message" in
      let params := rest ["validator"; "message"] o in
      applied ← call_member validators (ToString validator) (first (values params));
      ok ← call applied value;
      Normal (if truthy ok then None
              else Some (or_else message (VStr (field +:+ " validation failed"))))
  | RuleVal _ | RuleFun _ =>
      (* neither branch applies *)
      Normal None
  end.

Record result : Type := { isValid : bool; errors : gmap string jsval }.

(** [validateForm] together with the rules it visited, field by field. *)
Definition validateForm_visiting (formData : gmap string jsval)
    (rules : obj (list rule)) : completion (result * list (string * list rule)) :=
  '(errs, visited) ← each_field check formData (entries rules) ∅ [];
  Normal ({| isValid := bool_decide (size errs = 0%nat); errors := errs |}, visited).

Definition validateForm (formData : gmap string jsval) (rules : obj (list rule))
  : completion result :=
  fst <$> validateForm_visiting formData rules.

(** ** [const DOM] *)
Module DOM.

Definition get (name : string) (d : document) : option place :=
  getElementById name d.

Definition query (sel : selector) (d : document) : option place :=
  querySelector sel d.

(** The argument of [show], [hide] and [toggle]: a string, which is
    looked up as an id, or an element (possibly [null]). *)
Inductive target : Type :=
| Name (name : string)
| Ref (el : option place).

Definition resolve (element : target) (d : document) : option place :=
  match element with
  | Name name => get name d
  | Ref el => el
  end.

Definition show (element : target) : dom unit :=
  fun d => classList_remove (resolve element d) "hidden" d.

Definition hide (element : target) : dom unit :=
  fun d => classList_add (resolve element d) "hidden" d.

Definition toggle (element : target) : dom unit :=
  fun d => classList_toggle (resolve element d) "hidden" d.

(** The entries of the [attributes] argument of [create]. *)
Inductive attribute : Type :=
| className (value : string)
| innerHTML (value : list node)
| other (key value : string).

Definition blank (tag : string) : attrs :=
  {| Dom.tag := tag; id := EmptyString; classes := []; disabled := false;
     overflow := EmptyString; toast := None |}.

(** [element.setAttribute(key, value)], for the attributes the document
    model represents. *)
Definition setAttribute (key value : string) (a : attrs) : attrs :=
  if String.eqb key "id" then set_attrs_id value a
  else if String.eqb key "class" then set_attrs_classes (tokens value) a
  else if String.eqb key "disabled" then set_attrs_disabled true a
  else a.

Definition apply_attribute (el : attrs * list node) (at_ : attribute)
  : attrs * list node :=
  match at_ with
  | className value => (set_attrs_classes (tokens value) el.1, el.2)
  | innerHTML value => (el.1, parsed <$> value)
  | other key value => (setAttribute key value el.1, el.2)
  end.

Definition create (tag : string) (attributes : list attribute)
    (content : string) : node :=
  let el := foldl apply_attribute (blank tag, []) attributes in
  if negb (String.eqb content EmptyString)
  then Elem el.1 [Text content]
  else Elem el.1 el.2.

End DOM.

(** ** [const Modal] *)
Module Modal.

Definition show (modalId : string) : dom unit :=
  fun d =>
    let modal := DOM.get modalId d in
    match modal with
    | Some _ => (DOM.show (DOM.Ref modal) ;;; set_body_overflow "hidden") d
    | None => (Normal tt, d)
    end.

Definition hide (modalId : string) : dom unit :=
  fun d =>
    let modal := DOM.get modalId d in
    match modal with
    | Some _ => (DOM.hide (DOM.Ref modal) ;;; set_body_overflow "auto") d
    | None => (Normal tt, d)
    end.

End Modal.

(** ** [const Notification] *)
Module Notification.

Definition marker : string := "notification-styles".

Definition stylesheet : string :=
  "
        .notification {
          position: fixed;
          top: 20px;
          right: 20px;
          padding: 1rem 1.5rem;
          border-radius: 0.5rem;
          color: white;
          font-weight: 500;
          z-index: 1001;
          animation: slideIn 0.3s ease;
        }
        .notification-success { background-color: var(--success); }
        .notification-error { background-color: var(--error); }
        .notification-warning { background-color: var(--warning); }
        .notification-info { background-color: var(--primary-color); }
        @keyframes slideIn {
          from { transform: translateX(100%); opacity: 0; }
          to { transform: translateX(0); opacity: 1; }
        }
      ".

(** [styles.textContent = ...] *)
Definition set_textContent (text : string) (n : node) : node :=
  on_elem (fun a => a) (fun _ => [Text text]) n.

(** The style element [show] builds for the shared stylesheet. *)
Definition styles_node : node :=
  set_textContent stylesheet (DOM.create "style" [DOM.other "id" marker] EmptyString).

(** The node a timer will remove carries the timer's handle. *)
Definition held_by (h : nat) (n : node) : node :=
  on_elem (set_attrs_toast (Some h)) (fun ks => ks) n.

Definition show (message : list node) (type : string) (duration : Z)
  : dom unit :=
  fun d =>
    let notification :=
      DOM.create "div"
        [DOM.className ("notification notification-" +:+ type);
         DOM.innerHTML message] EmptyString in
    (* Add notification styles if not already added *)
    let d :=
      match querySelector (IdSel marker) d with
      | None =>
          let styles := DOM.create "style" [DOM.other "id" marker] EmptyString in
          let styles := set_textContent stylesheet styles in
          (* document.head.appendChild(styles) *)
          set_head (head d) (head_kids d ++ [styles]) d
      | Some _ => d
      end in
    (* document.body.appendChild(notification); setTimeout(..., duration) *)
    let h := next_handle d in
    let d := set_body (body d) (body_kids d ++ [held_by h notification]) d in
    (Normal tt, set_timers (S h) (timers d ++ [(h, duration)]) d).

(** The timer [h] fires: [notification.remove()].  A handle with no
    pending timer does nothing. *)
Definition fire (h : nat) (d : document) : document :=
  if bool_decide (h ∈ (timers d).*1) then
    set_timers (next_handle d) (filter (fun t => t.1 ≠ h) (timers d))
      (set_body (body d) (prune h (body_kids d))
         (set_head (head d) (prune h (head_kids d)) d))
  else d.

End Notification.

(** ** [const Loading] *)
Module Loading.

Definition spinner : list node :=
  [Elem (set_attrs_classes ["loading"] (DOM.blank "div")) []].

Definition show (elementId : string) : dom unit :=
  fun d =>
    let element := DOM.get elementId d in
    match element with
    | Some _ =>
        (write element (fun a => a) (fun _ => spinner) ;;;
         write element (set_attrs_disabled true) (fun ks => ks)) d
    | None => (Normal tt, d)
    end.

Definition hide (elementId : string) (originalContent : list node) : dom unit :=
  fun d =>
    let element := DOM.get elementId d in
    match element with
    | Some _ =>
        (write element (fun a => a) (fun _ => parsed <$> originalContent) ;;;
         write element (set_attrs_disabled false) (fun ks => ks)) d
    | None => (Normal tt, d)
    end.

End Loading.

End Utils.

(* ===================================================================== *)
(** * [src/js/utils.js]: the validator functions and [validateForm]       *)
(* ===================================================================== *)

Module JsUtils.
Import JS Dom.

(** ** [class APIClient] *)
Module APIClient.
Import Net.
Section Runtime.
Variable fetch : string -> options -> completion response.
Variable JSON_stringify : json -> string.
(** [window.API_CONFIG.BASE_URL], read by the constructor *)
Variable BASE_URL : string.

Record APIClient : Type := { baseURL : string }.

Definition new : APIClient := {| baseURL := BASE_URL |}.

Definition default_headers : gmap string string :=
  {[ "Content-Type" := "application/json" ]}.

Definition prepare (this : APIClient) (endpoint : string) (o : options)
  : string * options :=
  let url := baseURL this +:+ endpoint in
  let config :=
    spread_options
      (spread_headers default_headers (default ∅ (headers o))) o in
  (url, config).

Definition request (this : APIClient) (endpoint : string) (o : options)
    (w : world) : completion json * world :=
  let '(url, config) := prepare this endpoint o in
  let w := record_request url config w in
  let attempt :=
    response ← fetch url config;
    if negb (ok response)
    then Throw (Error ("HTTP error! status: " +:+ ToString (VNum (status response))))
    else json_body response in
  match attempt with
  | Normal data => (Normal data, w)
  | Throw error => (Throw error, log_error "API request failed:" error w)
  end.

(** [options = {}] *)
Definition no_options : options :=
  {| method := None; body := None; headers := None |}.

Definition get (this : APIClient) (endpoint : string) :=
  request this endpoint no_options.

Definition post (this : APIClient) (endpoint : string) (data : json) :=
  request this endpoint
    {| method := Some "POST"; body := Some (JStr (JSON_stringify data));
       headers := None |}.

Definition put (this : APIClient) (endpoint : string) (data : json) :=
  request this endpoint
    {| method := Some "PUT"; body := Some (JStr (JSON_stringify data));
       headers := None |}.

Definition delete (this : APIClient) (endpoint : string) :=
  request this endpoint
    {| method := Some "DELETE"; body := None; headers := None |}.
End Runtime.
End APIClient.

(** [value && value.trim() !== '' ? null : "This field is required"];
    only strings have a [trim] method. *)
Definition required (value : jsval) : completion jsval :=
  if truthy value then
    match value with
    | VStr s =>
        Normal (if negb (String.eqb (trim s) EmptyString) then VNull
                else VStr "This field is required")
    | _ => Throw TypeError
    end
  else Normal (VStr "This field is required").

Definition email (value : jsval) : completion jsval :=
  Normal (if test emailRegex value then VNull
          else VStr "Please enter a valid email address").

(** [phoneRegex.test(value.replace(/\s/g, ''))] *)
Definition phone (value : jsval) : completion jsval :=
  match value with
  | VStr s =>
      Normal (if test phoneRegex (VStr (remove_all is_space s)) then VNull
              else VStr "Please enter a valid phone number")
  | _ => Throw TypeError
  end.

(** [(min) => (value) => value && value.length >= min ? null : `...`] *)
Definition minLength (min : jsval) (value : jsval) : completion jsval :=
  Normal (if truthy value && num_ge (length_of value) min then VNull
          else VStr ("Must be at least " +:+ ToString min +:+ " characters")).

(** The body of the inner loop: [const error = rule(value); if (error) ...]. *)
Definition check (field : string) (value : jsval) (r : rule)
  : completion (option jsval) :=
  match r with
  | RuleFun f =>
      error ← f value;
      Normal (if truthy error then Some error else None)
  | RuleVal _ | RuleObj _ => Throw TypeError
  end.

(** [validateForm] together with the rules it visited, field by field. *)
Definition validateForm_visiting (formData : gmap string jsval)
    (rules : obj (list rule))
  : completion (gmap string jsval * list (string * list rule)) :=
  each_field check formData (entries rules) ∅ [].

Definition validateForm (formData : gmap string jsval) (rules : obj (list rule))
  : completion (gmap string jsval) :=
  fst <$> validateForm_visiting formData rules.

(** ** Modal management *)
Definition openModal (modalId : string) : dom unit :=
  fun d =>
    let modal := getElementById modalId d in
    match modal with
    | Some _ => (classList_remove modal "hidden" ;;; set_body_overflow "hidden") d
    | None => (Normal tt, d)
    end.

Definition closeModal (modalId : string) : dom unit :=
  fun d =>
    let modal := getElementById modalId d in
    match modal with
    | Some _ => (classList_add modal "hidden" ;;; set_body_overflow "auto") d
    | None => (Normal tt, d)
    end.

(** ** Mobile menu toggle *)
Definition toggleSidebar : dom unit :=
  fun d =>
    let sidebar := querySelector (ClassSel "sidebar") d in
    let mainContent := querySelector (ClassSel "main-content") d in
    (classList_toggle sidebar "open" ;;;
     classList_toggle mainContent "expanded") d.

(** ** Debounce function for search

    [debounce(func, wait)] returns a function that shares the variable
    [timeout] with the timers it starts.  The state below is that variable,
    the timers of the runtime that are pending (each with the arguments its
    closure [later] captured), the next timer handle, and the calls of
    [func] made so far.  [wait] is the delay of every timer; when a pending
    timer fires is left to the runtime. *)
Record debounced : Type := {
  timeout : option nat;                      (* [undefined] before the first call *)
  pending : list (nat * list jsval);
  next_timer : nat;
  func_calls : list (list jsval)
}.

(** The state right after [debounce(func, wait)]. *)
Definition debounce : debounced :=
  {| timeout := None; pending := []; next_timer := O; func_calls := [] |}.

(** [clearTimeout(handle)]: the timer, if it is pending, is cancelled. *)
Definition clearTimeout (handle : option nat) (timers : list (nat * list jsval))
  : list (nat * list jsval) :=
  match handle with
  | Some h => filter (fun t => t.1 ≠ h) timers
  | None => timers
  end.

(** [executedFunction(...args)] *)
Definition executedFunction (args : list jsval) (st : debounced) : debounced :=
  let cleared := clearTimeout (timeout st) (pending st) in
  let h := next_timer st in
  {| timeout := Some h;
     pending := cleared ++ [(h, args)];
     next_timer := S h;
     func_calls := func_calls st |}.

(** The closure [later] of the call with arguments [args]. *)
Definition later (args : list jsval) (st : debounced) : debounced :=
  {| timeout := timeout st;
     pending := clearTimeout (timeout st) (pending st);
     next_timer := next_timer st;
     func_calls := func_calls st ++ [args] |}.

(** The runtime fires timer [h]: a timer fires once, and only while it is
    pending. *)
Definition timer_fires (h : nat) (st : debounced) : debounced :=
  match list_find (fun t => t.1 = h) (pending st) with
  | Some (_, (_, args)) =>
      later args
        {| timeout := timeout st;
           pending := filter (fun t => t.1 ≠ h) (pending st);
           next_timer := next_timer st;
           func_calls := func_calls st |}
  | None => st
  end.

End JsUtils.

(* ===================================================================== *)
(** * The vocabulary of the specification                                 *)
(* ===================================================================== *)

Module Spec.
Import JS Dom.

(** ** Phone numbers: an optional leading [+], a non-zero digit, and up to
    15 more digits *)
Fixpoint all_chars (p : ascii -> bool) (s : string) : bool :=
  match s with
  | EmptyString => true
  | String c s' => p c && all_chars p s'
  end.

Definition national (s : string) : bool :=
  match s with
  | String d ds =>
      is_nonzero_digit d && all_chars is_digit ds && (String.length ds <=? 15)%nat
  | EmptyString => false
  end.

Definition phone_shape (s : string) : bool :=
  national s ||
  match s with
  | String c t => is_char "+" c && national t
  | EmptyString => false
  end.

(** The characters the specification has one variant strip before the
    match: white space, parentheses and dashes. *)
Definition phone_noise_claimed (c : ascii) : bool :=
  is_space c || is_char "(" c || is_char ")" c || is_char "-" c.

(** ** Outcomes of one rule, for a test [chk] of one rule *)
Section Outcome.
Variable chk : string -> jsval -> rule -> completion (option jsval).

Definition passes (field : string) (value : jsval) (r : rule) : Prop :=
  chk field value r = Normal None.

Definition fails_with (field : string) (value : jsval) (r : rule) (msg : jsval) : Prop :=
  chk field value r = Normal (Some msg).

(** [seen] is the rule list up to and including its first failing rule,
    whose message is [msg]. *)
Definition first_failure (field : string) (value : jsval)
    (fieldRules seen : list rule) (msg : jsval) : Prop :=
  exists pre r post,
    fieldRules = pre ++ r :: post /\ seen = pre ++ [r] /\
    Forall (passes field value) pre /\ fails_with field value r msg.

(** What the specification says of the error mapping [errs] returned
    for [formData] and [rules], [visited] being the rules the loop went
    through for each field. *)
Definition first_error_per_field (formData : gmap string jsval)
    (rules : obj (list rule)) (errs : gmap string jsval)
    (visited : list (string * list rule)) : Prop :=
  visited.*1 = (entries rules).*1 /\
  forall field fieldRules, (field, fieldRules) ∈ rules ->
    let value := field_value formData field in
    (is_Some (errs !! field) <->
       Exists (fun r => exists msg, fails_with field value r msg) fieldRules) /\
    (forall msg, errs !! field = Some msg ->
       exists seen, (field, seen) ∈ visited /\
                    first_failure field value fieldRules seen msg) /\
    (Forall (passes field value) fieldRules -> errs !! field = None).

(** The same of every field but [__proto__], for which nothing is
    recorded. *)
Definition first_error_per_recorded_field (formData : gmap string jsval)
    (rules : obj (list rule)) (errs : gmap string jsval)
    (visited : list (string * list rule)) : Prop :=
  visited.*1 = (entries rules).*1 /\
  errs !! "__proto__" = None /\
  forall field fieldRules, (field, fieldRules) ∈ rules -> field <> "__proto__" ->
    let value := field_value formData field in
    (is_Some (errs !! field) <->
       Exists (fun r => exists msg, fails_with field value r msg) fieldRules) /\
    (forall msg, errs !! field = Some msg ->
       exists seen, (field, seen) ∈ visited /\
                    first_failure field value fieldRules seen msg) /\
    (Forall (passes field value) fieldRules -> errs !! field = None).

(** No rule of the specification throws on its field's value. *)
Definition no_rule_throws (formData : gmap string jsval)
    (rules : obj (list rule)) : Prop :=
  forall field fieldRules r, (field, fieldRules) ∈ rules -> r ∈ fieldRules ->
    exists outcome, chk field (field_value formData field) r = Normal outcome.
End Outcome.

(** ** Outcomes of a client call *)

(** The error a call raises for a response without the success flag. *)
Definition http_error (resp : Net.response) : exn :=
  Error ("HTTP error! status: " +:+ ToString (VNum (Net.status resp))).

(** A failure with [e] left [e] on the console once, after what was
    there. *)
Definition logged_once (w w' : Net.world) (e : exn) : Prop :=
  Net.console w' = Net.console w ++ [("API request failed:", e)].

(** The call whose outcome is [r], made in [w] through the transport
    [fetch], issued one request, to [url] with the method [verb], and for
    every response the transport gives to that request: without the
    success flag, the call fails with the error that carries the status,
    logged once; with it, the call resolves with the body when the body
    parses as JSON, and fails with the parser's error, logged once, when it
    does not. *)
Definition settles (fetch : string -> Net.options -> completion Net.response)
    (w : Net.world) (url : string) (verb : option string)
    (r : completion Net.json * Net.world) : Prop :=
  exists config,
    Net.sent r.2 = Net.sent w ++ [(url, config)] /\
    Net.method config = verb /\
    forall resp, fetch url config = Normal resp ->
      if Net.ok resp then
        match Net.json_body resp with
        | Normal data => r.1 = Normal data /\ Net.console r.2 = Net.console w
        | Throw e => r.1 = Throw e /\ logged_once w r.2 e
        end
      else r.1 = Throw (http_error resp) /\ logged_once w r.2 (http_error resp).

(** ** Names that every object inherits

    The own property names of [Object.prototype].  A read [o[name]] of one
    of them on an object that does not own it gives the inherited property,
    not [undefined]. *)
Definition Object_prototype : list string :=
  [ "constructor"; "__defineGetter__"; "__defineSetter__"; "hasOwnProperty";
    "__lookupGetter__"; "__lookupSetter__"; "isPrototypeOf";
    "propertyIsEnumerable"; "toString"; "valueOf"; "__proto__";
    "toLocaleString" ].

(** Every field of [rules] that has such a name is a field the value bag
    owns, so that [formData[field]] reads the bag's own value. *)
Definition reads_own (formData : gmap string jsval) (rules : obj (list rule)) : Prop :=
  Forall (fun field => field ∈ Object_prototype -> is_Some (formData !! field))
    (own_keys rules).

(** A rule that is a bare string names no such property, so that
    [validators[rule]] reads a member of the registry or [undefined]. *)
Definition registry_name (r : rule) : bool :=
  match r with
  | RuleVal (VStr name) => bool_decide (name ∉ Object_prototype)
  | _ => true
  end.

Definition names_registry (rules : obj (list rule)) : Prop :=
  Forall (fun p : string * list rule => forallb registry_name p.2 = true) rules.

(** ** The parameter of an object-shaped rule *)

(** The properties left once [validator] and [message] are taken out, in
    the order the rule object was written. *)
Definition remaining (o : obj jsval) : obj jsval :=
  filter (fun p => p.1 ∉ ["validator"; "message"]) o.

(** The first remaining property value in key-insertion order. *)
Definition first_inserted (o : obj jsval) : jsval := first (remaining o).*2.

(** The first remaining property value in enumeration order: what
    [Object.values(params)[0]] reads. *)
Definition first_enumerated (o : obj jsval) : jsval :=
  first (values (rest ["validator"; "message"] o)).

(** ** Documents *)

(** The number of elements of a subtree, a forest or the document that
    satisfy [P]. *)
Fixpoint count_node (P : attrs -> bool) (n : node) : nat :=
  match n with
  | Text _ => O
  | Elem a kids => ((if P a then 1 else 0) + sum_list (count_node P <$> kids))%nat
  end.

Definition count_forest (P : attrs -> bool) (ns : list node) : nat :=
  sum_list (count_node P <$> ns).

Definition count_doc (P : attrs -> bool) (d : document) : nat :=
  (count_node P (Elem (head d) (head_kids d)) +
   count_node P (Elem (body d) (body_kids d)))%nat.

(** What [show] and [hide] do to a modal that exists: one write to its
    class list and one to the overflow of the body. *)
Definition modal_step (f : list string -> list string) (v : string)
    (pl : place) : dom unit :=
  write (Some pl) (on_classes f) (fun ks => ks) ;;; set_body_overflow v.

(** No node of the subtree is referred to by a timer. *)
Fixpoint toast_free (n : node) : bool :=
  match n with
  | Text _ => true
  | Elem a kids => bool_decide (toast a = None) && forallb toast_free kids
  end.

(** An element with the marker id, and a style element with it. *)
Definition is_marker (a : attrs) : bool := has_id Utils.Notification.marker a.
Definition is_marker_style (a : attrs) : bool :=
  is_marker a && String.eqb (tag a) "style".

(** A document as the page load leaves it: no timer is pending and no
    node is referred to by one. *)
Definition loaded (page : document) : document :=
  {| head := set_attrs_toast None (head page);
     head_kids := parsed <$> head_kids page;
     body := set_attrs_toast None (body page);
     body_kids := parsed <$> body_kids page;
     next_handle := O;
     timers := [] |}.

(** What happens to a document over time: calls of [Notification.show]
    and dismissal timers firing, in any order. *)
Inductive event : Type :=
| Notify (message : list node) (type : string) (duration : Z)
| Expire (h : nat).

Definition step (d : document) (e : event) : document :=
  match e with
  | Notify message type duration => (Utils.Notification.show message type duration d).2
  | Expire h => Utils.Notification.fire h d
  end.

Definition run (events : list event) (d : document) : document :=
  foldl step d events.

Definition is_notify (e : event) : bool :=
  match e with Notify _ _ _ => true | Expire _ => false end.

Definition message_of (e : event) : list node :=
  match e with Notify message _ _ => message | Expire _ => [] end.

(** What the events preserve of a document [d0] that has no element with
    the marker id: head and body elements are the same, nothing under the
    body has the marker id, and the children of the head are those of
    [d0], followed by the stylesheet once a notification was shown
    ([shown]). *)
Definition stylesheet_state (d0 d : document) (shown : bool) : Prop :=
  head d = head d0 /\ body d = body d0 /\
  head_kids d =
    head_kids d0 ++ (if shown then [Utils.Notification.styles_node] else []) /\
  count_forest is_marker (body_kids d) = O.

End Spec.

(* ===================================================================== *)
(** * Concrete inputs                                                     *)
(* ===================================================================== *)

Module Examples.
Import JS Dom.

(** A sign-up form and its rules, in the conventions of [src/utils.js]. *)
Definition signup_form : gmap string jsval :=
  {[ "email" := VStr "ann@example"; "name" := VStr "Al"; "phone" := VStr "+1 555 0100" ]}.

Definition signup_rules : obj (list rule) :=
  [ ("email", [RuleVal (VStr "required"); RuleVal (VStr "email")]);
    ("name", [RuleVal (VStr "required");
              RuleObj [("validator", VStr "minLength"); ("min", VNum 3);
                       ("message", VStr "Name is too short")];
              RuleObj [("validator", VStr "maxLength"); ("max", VNum 40)]]);
    ("phone", [RuleVal (VStr "phone")]) ].

(** The same rules in the conventions of [src/js/utils.js]. *)
Definition signup_rules_js : obj (list rule) :=
  [ ("email", [RuleFun JsUtils.required; RuleFun JsUtils.email]);
    ("name", [RuleFun JsUtils.required; RuleFun (JsUtils.minLength (VNum 3))]);
    ("phone", [RuleFun JsUtils.phone]) ].

(** The same form with a field no rule names changed. *)
Definition signup_form' : gmap string jsval :=
  <[ "newsletter" := VBool true ]> signup_form.

(** A form with an empty field named [__proto__], as [JSON.parse] or
    [Object.fromEntries] builds it (an own property), and rules that
    require the field. *)
Definition proto_form : gmap string jsval := {[ "__proto__" := VStr EmptyString ]}.
Definition proto_rules : obj (list rule) :=
  [ ("__proto__", [RuleVal (VStr "required")]) ].
Definition proto_rules_js : obj (list rule) :=
  [ ("__proto__", [RuleFun JsUtils.required]) ].

(** A predicate function that rejects every value. *)
Definition always_bad : jsval -> completion jsval :=
  fun _ => Normal (VStr "bad").

(** Two [minLength] rules with the same first-written parameter; the
    second has one more property, under an array-index key. *)
Definition min5 : obj jsval :=
  [("validator", VStr "minLength"); ("min", VNum 5)].
Definition min5_extra : obj jsval :=
  [("validator", VStr "minLength"); ("min", VNum 5); ("0", VNum 1)].

(** Two rules that differ in a property after the first parameter. *)
Definition min3 : obj jsval :=
  [("validator", VStr "minLength"); ("min", VNum 3); ("message", VStr "Too short")].
Definition min3_max9 : obj jsval :=
  [("validator", VStr "minLength"); ("message", VStr "Too short");
   ("min", VNum 3); ("max", VNum 9)].

(** A mock transport that answers every request with the given status
    and JSON body, and a stand-in for the JSON serializer. *)
Definition mock_fetch (status : Z) (payload : Net.json)
  : string -> Net.options -> completion Net.response :=
  fun _ _ =>
    Normal {| Net.ok := (200 <=? status) && (status <? 300);
              Net.status := status;
              Net.json_body := Normal payload |}.

Definition mock_stringify : Net.json -> string := fun _ => "[json]".

(** A transport that answers 204 No Content: the success flag is set and
    there is no body for [response.json()] to parse. *)
Definition mock_no_content : string -> Net.options -> completion Net.response :=
  fun _ _ =>
    Normal {| Net.ok := true;
              Net.status := 204;
              Net.json_body := Throw (SyntaxError "Unexpected end of JSON input") |}.

Definition crm : Utils.ApiClient.ApiClient :=
  {| Utils.ApiClient.baseUrl := "https://crm.example/api" |}.

Definition crm_js : JsUtils.APIClient.APIClient :=
  JsUtils.APIClient.new "https://crm.example/api".

Definition quiet : Net.world := {| Net.console := []; Net.sent := [] |}.

(** A call that supplies a header of its own. *)
Definition with_token : Net.options :=
  {| Net.method := Some "GET"; Net.body := None;
     Net.headers := Some {[ "Authorization" := "Bearer t" ]} |}.

(** A page with a hidden dialog, a sidebar and no main content; the body
    scrolls. *)
Definition dialog : node :=
  Elem {| tag := "div"; id := "dlg"; classes := ["modal-overlay"; "hidden"];
          disabled := false; overflow := EmptyString; toast := None |}
       [Text "Delete this contact?"].

Definition sidebar : node :=
  Elem {| tag := "nav"; id := EmptyString; classes := ["sidebar"];
          disabled := false; overflow := EmptyString; toast := None |} [].

Definition page : document :=
  {| head := Utils.DOM.blank "head"; head_kids := [];
     body := set_attrs_overflow "scroll" (Utils.DOM.blank "body");
     body_kids := [sidebar; dialog];
     next_handle := O; timers := [] |}.

(** The same page without the sidebar. *)
Definition plain_page : document :=
  {| head := Utils.DOM.blank "head"; head_kids := [];
     body := set_attrs_overflow "scroll" (Utils.DOM.blank "body");
     body_kids := [dialog];
     next_handle := O; timers := [] |}.

(** A message whose markup holds a style element with the marker id. *)
Definition smuggled : list node :=
  [Elem (set_attrs_id "notification-styles" (Utils.DOM.blank "style")) []].

(** Two notifications, the first dismissed before the second is shown,
    then a third. *)
Definition three_toasts : list Spec.event :=
  [ Spec.Notify [Text "Saved"] "success" 3000; Spec.Expire 0;
    Spec.Notify [Elem (Utils.DOM.blank "b") [Text "Failed"]] "error" 3000;
    Spec.Notify [Text "Retrying"] "info" 10; Spec.Expire 2 ].

End Examples.

(* ===================================================================== *)
(** * Further vocabulary: what the validators and helpers decide          *)
(* ===================================================================== *)

Module Behaviour.
Import JS Dom Spec.

(** A value [required] has nothing in: [undefined], [null], [false], [0],
    and a string that is empty or all white space. *)
Definition blank (value : jsval) : bool :=
  match value with
  | VUndef | VNull => true
  | VBool b => negb b
  | VNum n => n =? 0
  | VStr s => all_chars is_space s
  end.

(** ** The shape of an e-mail address *)

(** The part before the first [@] and the part after it. *)
Fixpoint split_at (s : string) : option (string * string) :=
  match s with
  | EmptyString => None
  | String c s' =>
      if is_char "@" c then Some (EmptyString, s')
      else (fun p : string * string => (String c p.1, p.2)) <$> split_at s'
  end.

(** A dot with at least one character after it. *)
Fixpoint dot_then_more (s : string) : bool :=
  match s with
  | EmptyString => false
  | String c s' =>
      (is_char "." c && negb (String.eqb s' EmptyString)) || dot_then_more s'
  end.

(** A dot that is neither the first nor the last character. *)
Definition inner_dot (s : string) : bool :=
  match s with
  | EmptyString => false
  | String _ s' => dot_then_more s'
  end.

(** No white space, exactly one [@] with something before it, and after it
    a domain with a dot inside. *)
Definition email_shape (s : string) : bool :=
  match split_at s with
  | Some (loc, domain) =>
      negb (String.eqb loc EmptyString) && all_chars not_space_at loc &&
      all_chars not_space_at domain && inner_dot domain
  | None => false
  end.

(** ** Length bounds *)

(** [minLength(min)] with a numeric bound [n]: a non-empty string of at
    least [n] code units. *)
Definition min_ok (n : Z) (value : jsval) : bool :=
  match value with
  | VStr s => negb (String.eqb s EmptyString) && (n <=? str_length s)
  | _ => false
  end.

(** [maxLength(max)] with a numeric bound [n]: nothing, or a string of at
    most [n] code units. *)
Definition max_ok (n : Z) (value : jsval) : bool :=
  negb (truthy value) ||
  match value with
  | VStr s => str_length s <=? n
  | _ => false
  end.

(** What a rule does to a value: it flags it ([Some true]), lets it pass
    ([Some false]) or throws ([None]). *)
Definition flags (outcome : completion (option jsval)) : option bool :=
  match outcome with
  | Normal (Some _) => Some true
  | Normal None => Some false
  | Throw _ => None
  end.

(** ** Notifications in the document *)

(** The timer handle on the root of a node. *)
Definition root_toast (n : node) : option nat :=
  match n with
  | Elem a _ => toast a
  | Text _ => None
  end.

(** Below its root, no node is referred to by a timer. *)
Definition kids_toast_free (n : node) : bool :=
  match n with
  | Elem _ kids => forallb toast_free kids
  | Text _ => true
  end.

(** The notification a pending timer will remove: the timer's handle is on
    its root and on nothing below it. *)
Definition held (n : node) (t : nat * Z) : Prop :=
  root_toast n = Some t.1 /\ kids_toast_free n = true.

(** The children of the body are those of [d0] followed by one
    notification for each pending timer, in the order of the timers, and
    every handle in use is below the next one. *)
Definition toasts_pending (d0 d : document) : Prop :=
  exists notes,
    body_kids d = body_kids d0 ++ notes /\
    Forall2 held notes (timers d) /\
    NoDup (timers d).*1 /\
    Forall (fun t => (t.1 < next_handle d)%nat) (timers d).

(** ** The debounced function *)

(** At most one timer is pending, and it is the one [timeout] holds. *)
Definition one_timer (st : JsUtils.debounced) : Prop :=
  JsUtils.pending st = [] \/
  exists h args,
    JsUtils.timeout st = Some h /\ JsUtils.pending st = [(h, args)].

(** What happens to a debounced function: it is called, or a timer of the
    runtime fires. *)
Inductive action : Type :=
| Call (args : list jsval)
| Timer (h : nat).

Definition act (st : JsUtils.debounced) (a : action) : JsUtils.debounced :=
  match a with
  | Call args => JsUtils.executedFunction args st
  | Timer h => JsUtils.timer_fires h st
  end.

Definition acts (actions : list action) (st : JsUtils.debounced)
  : JsUtils.debounced :=
  foldl act st actions.

End Behaviour.

(* ===================================================================== *)
(** * Further concrete inputs                                             *)
(* ===================================================================== *)

Module Cases.
Import JS Dom Spec Examples.

(** A rule object for [minLength] with a custom message, and one for
    [maxLength] without. *)
Definition at_least_8 : obj jsval :=
  [("validator", VStr "minLength"); ("min", VNum 8);
   ("message", VStr "Use 8 characters or more")].
Definition at_most_3 : obj jsval :=
  [("validator", VStr "maxLength"); ("max", VNum 3)].

(** The sign-up rules with the fields written in another order. *)
Definition signup_rules_reordered : obj (list rule) :=
  [ ("phone", [RuleVal (VStr "phone")]);
    ("email", [RuleVal (VStr "required"); RuleVal (VStr "email")]);
    ("name", [RuleVal (VStr "required");
              RuleObj [("validator", VStr "minLength"); ("min", VNum 3);
                       ("message", VStr "Name is too short")];
              RuleObj [("validator", VStr "maxLength"); ("max", VNum 40)]]) ].

(** A form that satisfies the sign-up rules. *)
Definition good_form : gmap string jsval :=
  {[ "email" := VStr "ann@example.org"; "name" := VStr "Ann";
     "phone" := VStr "+1 555 0100" ]}.

(** A page with a disabled save button that has a label. *)
Definition save_button : node :=
  Elem {| tag := "button"; id := "save"; classes := ["btn"];
          disabled := true; overflow := EmptyString; toast := None |}
       [Text "Save"].

Definition form_page : document :=
  {| head := Utils.DOM.blank "head"; head_kids := [];
     body := Utils.DOM.blank "body";
     body_kids := [dialog; save_button];
     next_handle := O; timers := [] |}.

(** The data of a new contact. *)
Definition new_contact : Net.json :=
  Net.JObj [("name", Net.JStr "Ann"); ("tags", Net.JArr [Net.JStr "lead"])].

(** A page with a sidebar and a main content area. *)
Definition main_content : node :=
  Elem {| tag := "main"; id := EmptyString; classes := ["main-content"];
          disabled := false; overflow := EmptyString; toast := None |}
       [save_button].

Definition layout_page : document :=
  {| head := Utils.DOM.blank "head"; head_kids := [];
     body := Utils.DOM.blank "body";
     body_kids := [sidebar; main_content];
     next_handle := O; timers := [] |}.

End Cases.

(* ===================================================================== *)
(** * Facts about the JavaScript fragment                                 *)
(* ===================================================================== *)

Module JSFacts.
Import JS.

#[local] Arguments String.append !_ _ : simpl nomatch.

Lemma append_nil_r (s : string) : s +:+ EmptyString = s.
Proof. induction s as [|c s IH]; simpl; [done | by rewrite IH]. Qed.

Lemma append_eq_nil (s1 s2 : string) :
  s1 +:+ s2 = EmptyString -> s1 = EmptyString /\ s2 = EmptyString.
Proof. destruct s1; simpl; [done | discriminate]. Qed.

Lemma append_eq_cons (s1 s2 s : string) (c : ascii) :
  s1 +:+ s2 = String c s ->
  (s1 = EmptyString /\ s2 = String c s) \/
  (exists s1', s1 = String c s1' /\ s = s1' +:+ s2).
Proof.
  destruct s1 as [|c1 s1]; simpl; intros H.
  - by left.
  - right. injection H as -> <-. by exists s1.
Qed.

(** ** The derivative matcher decides the language of a pattern *)

Lemma nullable_Matches (r : regex) : nullable r = true <-> Matches r EmptyString.
Proof.
  split.
  - induction r as [| | cls | r1 IH1 r2 IH2 | r1 IH1 r2 IH2 | r IH]; simpl; intros H;
      try discriminate.
    + constructor.
    + apply andb_true_iff in H as [H1 H2].
      change EmptyString with (EmptyString +:+ EmptyString). constructor; auto.
    + apply orb_true_iff in H as [H|H]; [apply MAltL | apply MAltR]; auto.
    + constructor.
  - intros H. remember EmptyString as s eqn:Hs.
    induction H as [| cls c Hc | r1 r2 s1 s2 H1 IH1 H2 IH2 | r1 r2 s H IH
                   | r1 r2 s H IH | r | r s1 s2 H1 IH1 H2 IH2]; simpl; try done.
    + apply append_eq_nil in Hs as [-> ->]. by rewrite IH1, IH2.
    + by rewrite IH.
    + rewrite IH by done. apply orb_true_r.
Qed.

Lemma Matches_deriv (r : regex) (c : ascii) (s : string) :
  Matches r (String c s) -> Matches (deriv c r) s.
Proof.
  intros H. remember (String c s) as cs eqn:Hcs. revert s Hcs.
  induction H as [| cls c' Hc | r1 r2 s1 s2 H1 IH1 H2 IH2 | r1 r2 s' H IH
                 | r1 r2 s' H IH | r | r s1 s2 H1 IH1 H2 IH2]; intros s Hcs; simpl.
  - discriminate.
  - injection Hcs as -> <-. rewrite Hc. constructor.
  - apply append_eq_cons in Hcs as [[-> ->] | (s1' & -> & ->)].
    + apply nullable_Matches in H1 as ->. apply MAltR. by apply IH2.
    + destruct (nullable r1).
      * apply MAltL. constructor; [by apply IH1 | done].
      * constructor; [by apply IH1 | done].
  - apply MAltL. by apply IH.
  - apply MAltR. by apply IH.
  - discriminate.
  - apply append_eq_cons in Hcs as [[-> ->] | (s1' & -> & ->)].
    + by apply IH2.
    + constructor; [by apply IH1 | done].
Qed.

Lemma deriv_Matches (r : regex) (c : ascii) (s : string) :
  Matches (deriv c r) s -> Matches r (String c s).
Proof.
  revert s.
  induction r as [| | cls | r1 IH1 r2 IH2 | r1 IH1 r2 IH2 | r IH]; simpl; intros s H.
  - inversion H.
  - inversion H.
  - destruct (cls c) eqn:Hc; inversion H; subst. by constructor.
  - assert (Hcat : forall t, Matches (Cat (deriv c r1) r2) t ->
                             Matches (Cat r1 r2) (String c t)).
    { intros t Ht. inversion Ht as [| | ? ? t1 t2 Ha Hb | | | |]; subst.
      change (String c (t1 +:+ t2)) with (String c t1 +:+ t2).
      constructor; auto. }
    destruct (nullable r1) eqn:Hn.
    + inversion H as [| | | ? ? ? Ha | ? ? ? Hb | |]; subst.
      * by apply Hcat.
      * change (String c s) with (EmptyString +:+ String c s).
        constructor; [by apply nullable_Matches | by apply IH2].
    + by apply Hcat.
  - inversion H; subst; [apply MAltL | apply MAltR]; auto.
  - inversion H as [| | ? ? t1 t2 Ha Hb | | | |]; subst.
    change (String c (t1 +:+ t2)) with (String c t1 +:+ t2).
    apply MStarS; auto.
Qed.

Lemma matches_Matches (r : regex) (s : string) :
  matches r s = true <-> Matches r s.
Proof.
  revert r. induction s as [|c s IH]; intros r; simpl.
  - apply nullable_Matches.
  - rewrite IH. split; [apply deriv_Matches | apply Matches_deriv].
Qed.

(** ** Enumeration order is a rearrangement of the own properties *)

Lemma insert_index_perm {A} (n : N) (p : string * A) (l : list (N * (string * A))) :
  (insert_index n p l).*2 ≡ₚ p :: l.*2.
Proof.
  induction l as [|[m q] l IH]; simpl; [done |].
  destruct (n <? m)%N; simpl; [done |].
  rewrite IH. apply perm_swap.
Qed.

Lemma entries_perm {A} (o : obj A) : entries o ≡ₚ o.
Proof.
  unfold entries. induction o as [|p o IH]; simpl; [done |].
  destruct (array_index p.1) as [n|].
  - rewrite insert_index_perm. simpl. by rewrite IH.
  - rewrite <- Permutation_middle. by rewrite IH.
Qed.

Lemma elem_of_entries {A} (o : obj A) (p : string * A) : p ∈ entries o <-> p ∈ o.
Proof. by rewrite entries_perm. Qed.

Lemma entries_keys_perm {A} (o : obj A) : (entries o).*1 ≡ₚ own_keys o.
Proof. unfold own_keys. by rewrite entries_perm. Qed.

Lemma NoDup_entries_keys {A} (o : obj A) :
  NoDup (own_keys o) -> NoDup (entries o).*1.
Proof. by rewrite entries_keys_perm. Qed.

Lemma entries_singleton {A} (k : string) (v : A) : entries [(k, v)] = [(k, v)].
Proof. unfold entries. simpl. by destruct (array_index k). Qed.

(** Without array-index keys, enumeration order is insertion order. *)
Lemma entries_insertion_order {A} (o : obj A) :
  Forall (fun p => array_index p.1 = None) o -> entries o = o.
Proof.
  unfold entries. induction 1 as [|p o Hp Ho IH]; simpl; [done |].
  rewrite Hp. simpl in IH.
  destruct (index_props o) as [|x l] eqn:Hi.
  - simpl in *. by rewrite IH.
  - exfalso. clear IH.
    assert (Hx : x.2 ∈ (index_props o).*2)
      by (rewrite Hi; simpl; apply list_elem_of_here).
    clear Hi. induction Ho as [|q o Hq Ho IH]; simpl in Hx.
    + by apply elem_of_nil in Hx.
    + rewrite Hq in Hx. auto.
Qed.

(** Two objects with the same keys, in the same order, enumerate alike. *)
Lemma insert_index_Forall2 {A B} (R : A -> B -> Prop) n p q
    (l1 : list (N * (string * A))) (l2 : list (N * (string * B))) :
  same_keys R p q ->
  Forall2 (fun x y => x.1 = y.1 /\ same_keys R x.2 y.2) l1 l2 ->
  Forall2 (fun x y => x.1 = y.1 /\ same_keys R x.2 y.2)
    (insert_index n p l1) (insert_index n q l2).
Proof.
  intros Hpq H. induction H as [|[m1 x] [m2 y] l1 l2 [Hm Hxy] H IH]; simpl.
  - constructor; [by split | constructor].
  - simpl in Hm. subst m2. destruct (n <? m1)%N.
    + constructor; [done |]. by constructor.
    + by constructor.
Qed.

Lemma entries_Forall2 {A B} (R : A -> B -> Prop) (o1 : obj A) (o2 : obj B) :
  Forall2 (same_keys R) o1 o2 ->
  Forall2 (same_keys R) (entries o1) (entries o2).
Proof.
  intros H. unfold entries. apply Forall2_app.
  - assert (Hi : Forall2 (fun x y => x.1 = y.1 /\ same_keys R x.2 y.2)
                   (index_props o1) (index_props o2)).
    { induction H as [|p q o1 o2 Hpq H IH]; simpl; [constructor |].
      destruct Hpq as [Hk Hv]. rewrite <- Hk.
      destruct (array_index p.1); [| done].
      by apply insert_index_Forall2. }
    clear H. induction Hi as [|x y l1 l2 [_ Hxy] Hi IH]; simpl; by constructor.
  - induction H as [|p q o1 o2 Hpq H IH]; simpl; [constructor |].
    destruct Hpq as [Hk Hv]. rewrite <- Hk.
    destruct (array_index p.1); [done |]. by constructor.
Qed.

End JSFacts.

Module FormFacts.
Import JS Spec Examples JSFacts.

#[local] Arguments String.append !_ _ : simpl nomatch.

(** ** Matching by hand for the shapes the phone pattern uses *)

Lemma matches_Void (s : string) : matches Void s = false.
Proof. induction s; simpl; auto. Qed.

Lemma matches_Eps (s : string) :
  matches Eps s = match s with EmptyString => true | _ => false end.
Proof. destruct s; simpl; [done | apply matches_Void]. Qed.

Lemma matches_Alt (r1 r2 : regex) (s : string) :
  matches (Alt r1 r2) s = matches r1 s || matches r2 s.
Proof. revert r1 r2. induction s as [|c s IH]; intros r1 r2; simpl; auto. Qed.

Lemma matches_Cat_Void (r : regex) (s : string) : matches (Cat Void r) s = false.
Proof. induction s; simpl; auto. Qed.

Lemma matches_Cat_Eps (r : regex) (s : string) : matches (Cat Eps r) s = matches r s.
Proof.
  destruct s as [|c s]; simpl; [done |].
  by rewrite matches_Alt, matches_Cat_Void.
Qed.

Lemma matches_Cat_Class (cls : ascii -> bool) (r : regex) (s : string) :
  matches (Cat (Class cls) r) s =
  match s with
  | String c s' => cls c && matches r s'
  | EmptyString => false
  end.
Proof.
  destruct s as [|c s]; simpl; [done |].
  destruct (cls c); simpl; [apply matches_Cat_Eps | apply matches_Cat_Void].
Qed.

Lemma matches_Cat_Alt (a b r : regex) (s : string) :
  matches (Cat (Alt a b) r) s = matches (Cat a r) s || matches (Cat b r) s.
Proof.
  apply eq_true_iff_eq. rewrite orb_true_iff, !matches_Matches. split.
  - intros H. inversion H as [| | ? ? s1 s2 H1 H2 | | | |]; subst.
    inversion H1; subst; [left | right]; by constructor.
  - intros [H|H]; inversion H; subst; constructor; auto;
      [by apply MAltL | by apply MAltR].
Qed.

Lemma matches_Cat_Opt_Class (cls : ascii -> bool) (r : regex) (s : string) :
  matches (Cat (Opt (Class cls)) r) s =
  matches r s || matches (Cat (Class cls) r) s.
Proof. unfold Opt. by rewrite matches_Cat_Alt, matches_Cat_Eps. Qed.

Lemma matches_UpTo_Class (cls : ascii -> bool) (n : nat) (s : string) :
  matches (UpTo n (Class cls)) s = all_chars cls s && (String.length s <=? n)%nat.
Proof.
  revert s. induction n as [|n IH]; intros s.
  - simpl UpTo. rewrite matches_Eps. destruct s; simpl; [done |].
    by rewrite andb_false_r.
  - simpl UpTo. unfold Opt. rewrite matches_Alt, matches_Eps, matches_Cat_Class.
    destruct s as [|c s]; [done |]. simpl. rewrite IH.
    by rewrite andb_assoc.
Qed.

(** The phone pattern accepts exactly the strings of the shape the
    specification describes. *)
Lemma phoneRegex_shape (s : string) : matches phoneRegex s = phone_shape s.
Proof.
  unfold phoneRegex, phone_shape.
  rewrite matches_Cat_Opt_Class, (matches_Cat_Class (is_char "+")).
  assert (Hn : forall t, matches (Cat (Class is_nonzero_digit)
                                    (UpTo 15 (Class is_digit))) t = national t).
  { intros t. rewrite matches_Cat_Class. destruct t as [|d ds]; [done |].
    unfold national. by rewrite matches_UpTo_Class, andb_assoc. }
  rewrite Hn. destruct s as [|c t]; [done |]. by rewrite Hn.
Qed.

(** [src/js/utils.js]: white space is stripped, nothing else. *)
Lemma js_phone_accepts (s : string) :
  JsUtils.phone (VStr s) =
  Normal (if phone_shape (remove_all is_space s) then VNull
          else VStr "Please enter a valid phone number").
Proof. unfold JsUtils.phone, test. simpl. by rewrite phoneRegex_shape. Qed.

(** [src/utils.js]: white space, dashes and dollar signs are stripped. *)
Lemma utils_phone_accepts (s : string) :
  Utils.phone (VStr s) =
  Normal (Val (VBool (phone_shape (remove_all Utils.phone_noise s)))).
Proof. unfold Utils.phone, test. simpl. by rewrite phoneRegex_shape. Qed.

(** C5.  The phone validator of [src/utils.js] does not strip parentheses:
    its character class holds white space, the dash and the dollar sign.
    A number written with parentheses is rejected, although it has the
    shape of a phone number once white space, parentheses and dashes are
    stripped, and a string with dollar signs is accepted. *)
Theorem utils_phone_keeps_parentheses :
  Utils.phone (VStr "(555) 123-4567") = Normal (Val (VBool false)) /\
  remove_all Utils.phone_noise "(555) 123-4567" = "(555)1234567" /\
  remove_all phone_noise_claimed "(555) 123-4567" = "5551234567" /\
  phone_shape "5551234567" = true /\
  Utils.phone (VStr "$555$1234567") = Normal (Val (VBool true)).
Proof. repeat split; vm_compute; reflexivity. Qed.

Lemma phone_examples :
  Utils.phone (VStr "+12345678901") = Normal (Val (VBool true)) /\
  Utils.phone (VStr "0123") = Normal (Val (VBool false)) /\
  Utils.phone (VStr "abc") = Normal (Val (VBool false)) /\
  JsUtils.phone (VStr "+12345678901") = Normal VNull /\
  JsUtils.phone (VStr "0123") = Normal (VStr "Please enter a valid phone number") /\
  JsUtils.phone (VStr "abc") = Normal (VStr "Please enter a valid phone number").
Proof. repeat split; vm_compute; reflexivity. Qed.

(** The examples of the specification for [email] and [minLength]. *)
Lemma email_examples :
  Utils.email (VStr "a@b.co") = Normal (Val (VBool true)) /\
  Utils.email (VStr "a@b") = Normal (Val (VBool false)) /\
  Utils.email (VStr "a b@c.com") = Normal (Val (VBool false)) /\
  JsUtils.email (VStr "a@b.co") = Normal VNull /\
  JsUtils.email (VStr "a@b") = Normal (VStr "Please enter a valid email address") /\
  JsUtils.email (VStr "a b@c.com") = Normal (VStr "Please enter a valid email address").
Proof. repeat split; vm_compute; reflexivity. Qed.

Lemma minLength_examples :
  Utils.minLength (VNum 3) ≫= (fun f => call f (VStr "abc")) = Normal (VBool true) /\
  Utils.minLength (VNum 3) ≫= (fun f => call f (VStr "ab")) = Normal (VBool false) /\
  Utils.minLength (VNum 3) ≫= (fun f => call f (VStr EmptyString)) =
    Normal (VStr EmptyString) /\
  Utils.minLength (VNum 3) ≫= (fun f => call f VUndef) = Normal VUndef /\
  JsUtils.minLength (VNum 3) (VStr "abc") = Normal VNull /\
  JsUtils.minLength (VNum 3) (VStr "ab") = Normal (VStr "Must be at least 3 characters") /\
  JsUtils.minLength (VNum 3) VUndef = Normal (VStr "Must be at least 3 characters").
Proof. repeat split; vm_compute; reflexivity. Qed.

(** ** The validation loop *)
(** What an assignment to the error object leaves at a key. *)
Lemma lookup_assign (errs : gmap string jsval) (f g : string) (msg : jsval) :
  assign errs f msg !! g =
  if bool_decide (f = g /\ f <> "__proto__") then Some msg else errs !! g.
Proof.
  unfold assign. destruct (String.eqb f "__proto__") eqn:Hf.
  - apply String.eqb_eq in Hf. rewrite bool_decide_eq_false_2; [done |].
    by intros [_ ?].
  - apply String.eqb_neq in Hf. destruct (decide (f = g)) as [->|Hne].
    + by rewrite lookup_insert_eq, bool_decide_eq_true_2.
    + rewrite lookup_insert_ne by done.
      rewrite bool_decide_eq_false_2; [done |]. by intros [? _].
Qed.

Section LoopFacts.
Variable chk : string -> jsval -> rule -> completion (option jsval).

Lemma first_error_inv field value fieldRules e seen :
  first_error chk field value fieldRules = Normal (e, seen) ->
  match e with
  | None => seen = fieldRules /\ Forall (passes chk field value) fieldRules
  | Some msg => first_failure chk field value fieldRules seen msg
  end.
Proof.
  revert e seen.
  induction fieldRules as [|r more IH]; intros e seen; simpl.
  - intros [= <- <-]. by split.
  - destruct (chk field value r) as [[msg|]|err] eqn:Hr; simpl; [| | done].
    + intros [= <- <-]. exists [], r, more. by repeat split.
    + destruct (first_error chk field value more) as [[e' seen']|err] eqn:Hm;
        simpl; [| done].
      intros [= <- <-]. specialize (IH _ _ eq_refl).
      destruct e' as [msg|].
      * destruct IH as (pre & r' & post & -> & -> & Hpre & Hfail).
        exists (r :: pre), r', post. repeat split; [by constructor | done].
      * destruct IH as [-> Hall]. split; [done | by constructor].
Qed.

(** The inner loop returns as soon as no rule it reaches throws. *)
Lemma first_error_returns field value fieldRules :
  Forall (fun r => exists outcome, chk field value r = Normal outcome) fieldRules ->
  exists out, first_error chk field value fieldRules = Normal out.
Proof.
  induction 1 as [|r more [outcome Hr] _ [out IH]]; simpl; [by eexists |].
  rewrite Hr. simpl. destruct outcome; [by eexists |].
  rewrite IH. simpl. destruct out. by eexists.
Qed.

Lemma each_field_inv formData fields errs vis errs' vis' :
  each_field chk formData fields errs vis = Normal (errs', vis') ->
  NoDup fields.*1 ->
  vis'.*1 = vis.*1 ++ fields.*1 /\
  (forall p, p ∈ vis -> p ∈ vis') /\
  (forall field, field ∉ fields.*1 -> errs' !! field = errs !! field) /\
  (forall field fieldRules, (field, fieldRules) ∈ fields ->
     exists e seen,
       first_error chk field (field_value formData field) fieldRules
         = Normal (e, seen) /\
       (field, seen) ∈ vis' /\
       errs' !! field =
         match e with
         | Some msg => if bool_decide (field <> "__proto__") then Some msg
                       else errs !! field
         | None => errs !! field
         end).
Proof.
  assert (Hsame : forall (e : option jsval) (m : gmap string jsval) f g, f <> g ->
            match e with Some msg => assign m f msg | None => m end !! g = m !! g).
  { intros e m f g Hne. destruct e as [msg|]; [| done].
    rewrite lookup_assign. rewrite bool_decide_eq_false_2; [done |]. by intros [? _]. }
  assert (Hhere : forall (e : option jsval) (m : gmap string jsval) f,
            match e with Some msg => assign m f msg | None => m end !! f =
            match e with
            | Some msg => if bool_decide (f <> "__proto__") then Some msg else m !! f
            | None => m !! f
            end).
  { intros e m f. destruct e as [msg|]; [| done].
    rewrite lookup_assign. destruct (decide (f = "__proto__")) as [->|Hne].
    - rewrite !bool_decide_eq_false_2; [done | by intros ? | by intros [_ ?]].
    - by rewrite !bool_decide_eq_true_2. }
  revert errs vis.
  induction fields as [|[f rs] more IH]; intros errs vis; simpl.
  - intros [= <- <-] _. rewrite app_nil_r. repeat split; try done.
    intros ? ? H. by apply elem_of_nil in H.
  - destruct (first_error chk f (field_value formData f) rs)
      as [[e seen]|err] eqn:Hf; simpl; [| done].
    intros Hrun Hnd. apply NoDup_cons in Hnd as [Hf_fresh Hnd].
    destruct (IH _ _ Hrun Hnd) as (Hkeys & Hvis & Hout & Hin).
    repeat split.
    + rewrite Hkeys, fmap_app. simpl. by rewrite <- app_assoc.
    + intros p Hp. apply Hvis. apply elem_of_app. by left.
    + intros field Hfield. apply not_elem_of_cons in Hfield as [Hne Hfield].
      rewrite (Hout _ Hfield). by apply Hsame.
    + intros field fieldRules Hmem. apply elem_of_cons in Hmem as [[= -> ->] | Hmem].
      * exists e, seen. split; [done |]. split.
        { apply Hvis. apply elem_of_app. right. apply list_elem_of_here. }
        rewrite (Hout _ Hf_fresh). apply Hhere.
      * destruct (Hin _ _ Hmem) as (e' & seen' & He' & Hv' & Hl').
        exists e', seen'. split; [done |]. split; [done |].
        rewrite Hl'.
        assert (f ≠ field).
        { intros ->. apply Hf_fresh. apply list_elem_of_fmap.
          by exists (field, fieldRules). }
        rewrite (Hsame e errs f field) by done. done.
Qed.

Lemma each_field_other formData fields errs vis errs' vis' field :
  each_field chk formData fields errs vis = Normal (errs', vis') ->
  field ∉ fields.*1 -> errs' !! field = errs !! field.
Proof.
  revert errs vis.
  induction fields as [|[f rs] more IH]; intros errs vis; simpl.
  - by intros [= <- <-] _.
  - destruct (first_error chk f (field_value formData f) rs)
      as [[e seen]|err]; simpl; [| done].
    intros Hrun Hfield. apply not_elem_of_cons in Hfield as [Hne Hfield].
    rewrite (IH _ _ Hrun Hfield). destruct e; [| done].
    rewrite lookup_assign. rewrite bool_decide_eq_false_2; [done |].
    intros [-> _]. done.
Qed.

(** Nothing is ever recorded for a field named [__proto__]. *)
Lemma each_field_proto formData fields errs vis errs' vis' :
  each_field chk formData fields errs vis = Normal (errs', vis') ->
  errs' !! "__proto__" = errs !! "__proto__".
Proof.
  revert errs vis.
  induction fields as [|[f rs] more IH]; intros errs vis; simpl.
  - by intros [= <- <-].
  - destruct (first_error chk f (field_value formData f) rs)
      as [[e seen]|err]; simpl; [| done].
    intros Hrun. rewrite (IH _ _ Hrun). destruct e; [| done].
    rewrite lookup_assign. rewrite bool_decide_eq_false_2; [done |].
    intros [-> ?]. done.
Qed.

Lemma each_field_returns formData fields errs vis :
  Forall (fun p => Forall (fun r => exists outcome,
                       chk p.1 (field_value formData p.1) r = Normal outcome) p.2)
    fields ->
  exists out, each_field chk formData fields errs vis = Normal out.
Proof.
  intros H. revert errs vis.
  induction H as [|[f rs] more Hf _ IH]; intros errs vis; simpl; [by eexists |].
  simpl in Hf. destruct (first_error_returns _ _ _ Hf) as [[e seen] ->].
  simpl. apply IH.
Qed.

(** The loop reads [formData] at the fields of the rule specification
    only. *)
Lemma each_field_ext formData1 formData2 fields errs vis :
  (forall field, field ∈ fields.*1 -> formData1 !! field = formData2 !! field) ->
  each_field chk formData1 fields errs vis = each_field chk formData2 fields errs vis.
Proof.
  revert errs vis.
  induction fields as [|[f rs] more IH]; intros errs vis Hagree; simpl; [done |].
  unfold field_value. rewrite (Hagree f) by (simpl; apply list_elem_of_here).
  destruct (first_error chk f (default VUndef (formData2 !! f)) rs)
    as [[e seen]|err]; simpl; [| done].
  apply IH. intros field Hfield. apply Hagree. simpl. by apply list_elem_of_further.
Qed.

(** The description of the result, for the loop run from an empty
    mapping. *)
Lemma each_field_first_error formData rules errs vis :
  NoDup (own_keys rules) ->
  each_field chk formData (entries rules) ∅ [] = Normal (errs, vis) ->
  first_error_per_recorded_field chk formData rules errs vis.
Proof.
  intros Hnd Hrun.
  destruct (each_field_inv _ _ _ _ _ _ Hrun (NoDup_entries_keys _ Hnd))
    as (Hkeys & _ & _ & Hin).
  split; [done |].
  split; [by rewrite (each_field_proto _ _ _ _ _ _ Hrun), lookup_empty |].
  intros field fieldRules Hmem Hfield value.
  rewrite <- elem_of_entries in Hmem.
  destruct (Hin _ _ Hmem) as (e & seen & Hfirst & Hseen & Hlook).
  rewrite lookup_empty, bool_decide_eq_true_2 in Hlook by done.
  apply first_error_inv in Hfirst.
  fold value in Hfirst. destruct e as [msg|].
  - assert (Hex : Exists (fun r => exists m, fails_with chk field value r m) fieldRules).
    { destruct Hfirst as (pre & r & post & -> & _ & _ & Hfail).
      apply Exists_app. right. apply Exists_cons. left. by exists msg. }
    repeat split.
    + done.
    + by rewrite Hlook.
    + intros msg' Hmsg'. rewrite Hlook in Hmsg'. injection Hmsg' as <-. by exists seen.
    + intros Hall. exfalso. apply Exists_exists in Hex as (r & Hr & m & Hm).
      rewrite Forall_forall in Hall. specialize (Hall r Hr).
      unfold passes, fails_with in *. congruence.
  - destruct Hfirst as [-> Hall]. repeat split.
    + rewrite Hlook. by intros [? ?].
    + intros Hex. exfalso. apply Exists_exists in Hex as (r & Hr & m & Hm).
      rewrite Forall_forall in Hall. specialize (Hall r Hr).
      unfold passes, fails_with in *. congruence.
    + intros msg' Hmsg'. by rewrite Hlook in Hmsg'.
    + done.
Qed.

Lemma each_field_no_throw formData rules :
  no_rule_throws chk formData rules ->
  exists out, each_field chk formData (entries rules) ∅ [] = Normal out.
Proof.
  intros Hno. apply each_field_returns. apply Forall_forall.
  intros [f rs] Hmem. rewrite elem_of_entries in Hmem. apply Forall_forall.
  intros r Hr. by apply (Hno f rs r).
Qed.

(** Every key of the result is a field of the rule specification. *)
Lemma each_field_keys formData rules errs vis field :
  each_field chk formData (entries rules) ∅ [] = Normal (errs, vis) ->
  is_Some (errs !! field) -> field ∈ own_keys rules.
Proof.
  intros Hrun Hsome.
  destruct (decide (field ∈ (entries rules).*1)) as [Hin|Hout].
  - by rewrite entries_keys_perm in Hin.
  - rewrite (each_field_other _ _ _ _ _ _ _ Hrun Hout), lookup_empty in Hsome.
    by destruct Hsome.
Qed.

(** Rule lists whose rules test alike, one by one, give the same
    errors. *)
Lemma first_error_alike field value (rs1 rs2 : list rule) :
  Forall2 (fun r1 r2 => forall f v, chk f v r1 = chk f v r2) rs1 rs2 ->
  fst <$> first_error chk field value rs1 = fst <$> first_error chk field value rs2.
Proof.
  induction 1 as [|r1 r2 rs1 rs2 Hr _ IH]; simpl; [done |].
  rewrite Hr. destruct (chk field value r2) as [[msg|]|err]; simpl; try done.
  destruct (first_error chk field value rs1) as [[e1 s1]|err1];
    destruct (first_error chk field value rs2) as [[e2 s2]|err2];
    simpl in *; congruence.
Qed.

Lemma each_field_alike formData (fields1 fields2 : list (string * list rule))
    errs vis1 vis2 :
  Forall2 (same_keys (Forall2 (fun r1 r2 => forall f v, chk f v r1 = chk f v r2)))
    fields1 fields2 ->
  fst <$> each_field chk formData fields1 errs vis1 =
  fst <$> each_field chk formData fields2 errs vis2.
Proof.
  intros H. revert errs vis1 vis2.
  induction H as [|[f1 rs1] [f2 rs2] more1 more2 [Hk Hrs] _ IH];
    intros errs vis1 vis2; simpl; [done |].
  simpl in Hk, Hrs. subst f2.
  pose proof (first_error_alike f1 (field_value formData f1) _ _ Hrs) as Hfirst.
  destruct (first_error chk f1 (field_value formData f1) rs1) as [[e1 s1]|err1];
    destruct (first_error chk f1 (field_value formData f1) rs2) as [[e2 s2]|err2];
    simpl in *; try congruence.
  injection Hfirst as ->. apply IH.
Qed.
End LoopFacts.

(** ** [validateForm] in terms of the loop *)

Lemma utils_validateForm_visiting formData rules res :
  Utils.validateForm formData rules = Normal res ->
  exists vis, Utils.validateForm_visiting formData rules = Normal (res, vis) /\
    each_field Utils.check formData (entries rules) ∅ [] = Normal (Utils.errors res, vis).
Proof.
  unfold Utils.validateForm, Utils.validateForm_visiting.
  destruct (each_field Utils.check formData (entries rules) ∅ [])
    as [[errs vis]|err]; simpl; [| done].
  intros [= <-]. by exists vis.
Qed.

Lemma js_validateForm_visiting formData rules errs :
  JsUtils.validateForm formData rules = Normal errs ->
  exists vis, JsUtils.validateForm_visiting formData rules = Normal (errs, vis).
Proof.
  unfold JsUtils.validateForm.
  destruct (JsUtils.validateForm_visiting formData rules) as [[errs' vis]|err];
    simpl; [| done].
  intros [= <-]. by exists vis.
Qed.

(** [isValid] is derived from the mapping: it holds exactly when the
    mapping is empty. *)
Lemma utils_isValid formData rules res :
  Utils.validateForm formData rules = Normal res ->
  Utils.isValid res = true <-> Utils.errors res = ∅.
Proof.
  unfold Utils.validateForm, Utils.validateForm_visiting.
  destruct (each_field Utils.check formData (entries rules) ∅ [])
    as [[errs vis]|err]; simpl; [| done].
  intros [= <-]. simpl. rewrite bool_decide_eq_true. apply map_size_empty_iff.
Qed.

(** [validateForm] returns a mapping whenever no rule throws on its
    field's value. *)
Lemma validateForm_returns (formData : gmap string jsval) (rules : obj (list rule)) :
  (no_rule_throws Utils.check formData rules ->
     exists res, Utils.validateForm formData rules = Normal res) /\
  (no_rule_throws JsUtils.check formData rules ->
     exists errs, JsUtils.validateForm formData rules = Normal errs).
Proof.
  split.
  - intros Hno. unfold Utils.validateForm, Utils.validateForm_visiting.
    destruct (each_field_no_throw _ _ _ Hno) as [[errs vis] ->]. simpl. by eexists.
  - intros Hno. unfold JsUtils.validateForm, JsUtils.validateForm_visiting.
    destruct (each_field_no_throw _ _ _ Hno) as [[errs vis] ->]. simpl. by eexists.
Qed.




(** C9. The result of [validateForm] depends only on the entries of
    [formData] whose field names appear in [rules]: two value bags that
    agree on every field named in [rules] give the same result (the same
    errors mapping and [isValid] flag, or the same exception), and every
    key of the returned mapping is a key of [rules]. *)
Theorem validateForm_reads_only_named_fields
    (formData1 formData2 : gmap string jsval) (rules : obj (list rule)) :
  (forall field, field ∈ own_keys rules -> formData1 !! field = formData2 !! field) ->
  Utils.validateForm formData1 rules = Utils.validateForm formData2 rules /\
  JsUtils.validateForm formData1 rules = JsUtils.validateForm formData2 rules /\
  (forall res field, Utils.validateForm formData1 rules = Normal res ->
     is_Some (Utils.errors res !! field) -> field ∈ own_keys rules) /\
  (forall errs field, JsUtils.validateForm formData1 rules = Normal errs ->
     is_Some (errs !! field) -> field ∈ own_keys rules).
Proof.
  intros Hagree.
  assert (Hagree' : forall field, field ∈ (entries rules).*1 ->
                                  formData1 !! field = formData2 !! field).
  { intros field Hin. apply Hagree. by rewrite <- entries_keys_perm. }
  repeat split.
  - unfold Utils.validateForm, Utils.validateForm_visiting.
    by rewrite (each_field_ext _ formData1 formData2).
  - unfold JsUtils.validateForm, JsUtils.validateForm_visiting.
    by rewrite (each_field_ext _ formData1 formData2).
  - intros res field Hres.
    destruct (utils_validateForm_visiting _ _ _ Hres) as (vis & _ & Hloop).
    by apply (each_field_keys _ _ _ _ _ _ Hloop).
  - intros errs field Hres.
    destruct (js_validateForm_visiting _ _ _ Hres) as (vis & Hloop).
    by apply (each_field_keys _ _ _ _ _ _ Hloop).
Qed.

Lemma validateForm_reads_only_named_fields_witness :
  (forall field, field ∈ own_keys signup_rules ->
     signup_form !! field = signup_form' !! field) /\
  signup_form <> signup_form' /\
  Utils.validateForm signup_form signup_rules =
    Utils.validateForm signup_form' signup_rules /\
  (forall res field, Utils.validateForm signup_form signup_rules = Normal res ->
     is_Some (Utils.errors res !! field) -> field ∈ own_keys signup_rules).
Proof.
  assert (Hagree : forall field, field ∈ own_keys signup_rules ->
                                 signup_form !! field = signup_form' !! field).
  { intros field Hin. unfold signup_form'. rewrite lookup_insert_ne; [done |].
    intros <-. revert Hin. apply (bool_decide_unpack _). vm_compute. exact I. }
  split; [exact Hagree |]. split.
  - intros Heq. assert (H : signup_form !! "newsletter" = signup_form' !! "newsletter")
      by (by rewrite <- Heq).
    vm_compute in H. discriminate H.
  - destruct (validateForm_reads_only_named_fields _ _ _ Hagree) as (H1 & _ & H3 & _).
    split; [exact H1 | exact H3].
Defined.

(** ** Rule shapes *)

Lemma assign_empty (field : string) (msg : jsval) :
  field <> "__proto__" -> assign ∅ field msg = {[ field := msg ]}.
Proof.
  intros Hne. unfold assign. apply String.eqb_neq in Hne. rewrite Hne.
  apply insert_empty.
Qed.

Lemma utils_single_rule field value r :
  field <> "__proto__" ->
  Utils.validateForm {[ field := value ]} [(field, [r])] =
  (outcome ← Utils.check field value r;
   Normal (match outcome with
           | Some msg => {| Utils.isValid := false; Utils.errors := {[ field := msg ]} |}
           | None => {| Utils.isValid := true; Utils.errors := ∅ |}
           end)).
Proof.
  intros Hne. unfold Utils.validateForm, Utils.validateForm_visiting.
  rewrite entries_singleton. simpl. unfold field_value.
  rewrite lookup_singleton_eq. simpl.
  destruct (Utils.check field value r) as [[msg|]|err]; simpl; [| done | done].
  rewrite (assign_empty _ _ Hne). do 2 f_equal. apply bool_decide_eq_false.
  by rewrite map_size_singleton.
Qed.

Lemma js_single_rule field value r :
  field <> "__proto__" ->
  JsUtils.validateForm {[ field := value ]} [(field, [r])] =
  (outcome ← JsUtils.check field value r;
   Normal (match outcome with Some msg => {[ field := msg ]} | None => ∅ end)).
Proof.
  intros Hne. unfold JsUtils.validateForm, JsUtils.validateForm_visiting.
  rewrite entries_singleton. simpl. unfold field_value.
  rewrite lookup_singleton_eq. simpl.
  destruct (JsUtils.check field value r) as [[msg|]|err]; simpl; try done.
  by rewrite (assign_empty _ _ Hne).
Qed.

(** C2, as the code has it.  Each file supports one rule shape.  In
    [src/utils.js] a rule is a named reference into the registry: a bare
    string, whose failure records ["<field> is <name>"], or an object with
    a validator name, a parameter and an optional message, whose failure
    records the message or ["<field> validation failed"]; a function given
    as a rule is skipped.  In [src/js/utils.js] a rule is a predicate
    function, whose truthy result is recorded; any other rule raises a
    TypeError.  This is for a field not named [__proto__], for which
    nothing is recorded. *)
Theorem validateForm_rule_shapes (field : string) (value : jsval) :
  field <> "__proto__" ->
  (forall name ok,
     call_member Utils.validators name value = Normal ok -> truthy_res ok = false ->
     Utils.validateForm {[ field := value ]} [(field, [RuleVal (VStr name)])] =
     Normal {| Utils.isValid := false;
               Utils.errors := {[ field := VStr (field +:+ " is " +:+ name) ]} |}) /\
  (forall o applied ok,
     call_member Utils.validators (ToString (get o "validator")) (first_enumerated o)
       = Normal applied ->
     call applied value = Normal ok -> truthy ok = false ->
     Utils.validateForm {[ field := value ]} [(field, [RuleObj o])] =
     Normal {| Utils.isValid := false;
               Utils.errors :=
                 {[ field := or_else (get o "message")
                               (VStr (field +:+ " validation failed")) ]} |}) /\
  (forall f,
     Utils.validateForm {[ field := value ]} [(field, [RuleFun f])] =
     Normal {| Utils.isValid := true; Utils.errors := ∅ |}) /\
  (forall f msg,
     f value = Normal msg -> truthy msg = true ->
     JsUtils.validateForm {[ field := value ]} [(field, [RuleFun f])] =
     Normal {[ field := msg ]}) /\
  (forall v, JsUtils.validateForm {[ field := value ]} [(field, [RuleVal v])] =
             Throw TypeError) /\
  (forall o, JsUtils.validateForm {[ field := value ]} [(field, [RuleObj o])] =
             Throw TypeError).
Proof.
  intros Hfield. repeat split.
  - intros name ok Hcall Hok. rewrite utils_single_rule by done. simpl.
    rewrite Hcall. simpl. by rewrite Hok.
  - intros o applied ok Hmember Hcall Hok. rewrite utils_single_rule by done. simpl.
    unfold first_enumerated in Hmember. rewrite Hmember. simpl.
    rewrite Hcall. simpl. by rewrite Hok.
  - intros f. by rewrite utils_single_rule.
  - intros f msg Hf Hmsg. rewrite js_single_rule by done. simpl. rewrite Hf. simpl.
    by rewrite Hmsg.
  - intros v. by rewrite js_single_rule.
  - intros o. by rewrite js_single_rule.
Qed.

Lemma validateForm_rule_shapes_witness :
  "name" <> "__proto__" /\
  Utils.validateForm {[ "name" := VStr EmptyString ]} [("name", [RuleVal (VStr "required")])] =
    Normal {| Utils.isValid := false;
              Utils.errors := {[ "name" := VStr "name is required" ]} |} /\
  Utils.validateForm {[ "name" := VStr EmptyString ]} [("name", [RuleObj min3])] =
    Normal {| Utils.isValid := false;
              Utils.errors := {[ "name" := VStr "Too short" ]} |} /\
  JsUtils.validateForm {[ "name" := VStr EmptyString ]} [("name", [RuleFun JsUtils.required])] =
    Normal {[ "name" := VStr "This field is required" ]}.
Proof.
  assert (Hname' : "name" <> "__proto__") by discriminate.
  destruct (validateForm_rule_shapes "name" (VStr EmptyString) Hname')
    as (Hname & Hobj & _ & Hfun & _).
  split; [exact Hname' |]. split; [| split].
  - exact (Hname "required" (Val (VStr EmptyString)) eq_refl eq_refl).
  - exact (Hobj min3 _ (VStr EmptyString) eq_refl eq_refl eq_refl).
  - exact (Hfun JsUtils.required _ eq_refl eq_refl).
Defined.

(** C2 as stated fails in each file: [src/utils.js] skips a predicate
    function although it rejects the value, and [src/js/utils.js] throws on
    a named reference although the predicate it names rejects the value. *)
Lemma validateForm_one_shape_per_file :
  (always_bad (VStr "x") = Normal (VStr "bad") /\
   Utils.validateForm {[ "name" := VStr "x" ]} [("name", [RuleFun always_bad])] =
     Normal {| Utils.isValid := true; Utils.errors := ∅ |}) /\
  (JsUtils.required (VStr EmptyString) = Normal (VStr "This field is required") /\
   JsUtils.validateForm {[ "name" := VStr EmptyString ]}
     [("name", [RuleVal (VStr "required")])] = Throw TypeError /\
   JsUtils.validateForm {[ "name" := VStr EmptyString ]}
     [("name", [RuleObj [("validator", VStr "required")]])] = Throw TypeError).
Proof. repeat split; vm_compute; reflexivity. Qed.

(** ** The parameter of an object-shaped rule *)

Lemma check_object_rule_alike (o1 o2 : obj jsval) :
  get o1 "validator" = get o2 "validator" ->
  get o1 "message" = get o2 "message" ->
  first_enumerated o1 = first_enumerated o2 ->
  forall f v, Utils.check f v (RuleObj o1) = Utils.check f v (RuleObj o2).
Proof.
  unfold first_enumerated. intros Hv Hm Hp f v. simpl. by rewrite Hv, Hm, Hp.
Qed.

(** When no key of the rule object is an array index, the first property
    enumerated is the first one written. *)
Lemma first_enumerated_inserted (o : obj jsval) :
  Forall (fun p => array_index p.1 = None) o ->
  first_enumerated o = first_inserted o.
Proof.
  intros H. unfold first_enumerated, first_inserted, values, rest, remaining.
  rewrite (entries_insertion_order o H).
  rewrite entries_insertion_order; [done |].
  apply Forall_forall. intros p Hp. apply list_elem_of_filter in Hp as [_ Hp].
  rewrite Forall_forall in H. by apply H.
Qed.

(** C10, as the code has it.  In the object-shaped rule branch of
    [validateForm] in [src/utils.js], only the first remaining property
    value in the object's enumeration order (array-index keys first, in
    ascending order, then the other keys in insertion order) is passed to
    the named validator: two rule objects with the same validator, message
    and first enumerated parameter are interchangeable in any rule
    specification, whatever other properties they have. *)
Theorem object_rule_first_parameter (o1 o2 : obj jsval) :
  get o1 "validator" = get o2 "validator" ->
  get o1 "message" = get o2 "message" ->
  first_enumerated o1 = first_enumerated o2 ->
  forall formData before field pre post after,
    Utils.validateForm formData
      (before ++ (field, pre ++ RuleObj o1 :: post) :: after) =
    Utils.validateForm formData
      (before ++ (field, pre ++ RuleObj o2 :: post) :: after).
Proof.
  intros Hv Hm Hp formData before field pre post after.
  pose proof (check_object_rule_alike o1 o2 Hv Hm Hp) as Halike.
  set (alike := fun r1 r2 : rule => forall f v, Utils.check f v r1 = Utils.check f v r2).
  assert (Hrefl : forall rs : list rule, Forall2 alike rs rs).
  { intros rs. apply Forall_Forall2_diag. apply Forall_forall. by intros r _ f v. }
  assert (Hfields : Forall2 (same_keys (Forall2 alike))
            (before ++ (field, pre ++ RuleObj o1 :: post) :: after)
            (before ++ (field, pre ++ RuleObj o2 :: post) :: after)).
  { apply Forall2_app.
    - apply Forall_Forall2_diag. apply Forall_forall. intros p _. by split.
    - constructor.
      + split; [done |]. simpl. apply Forall2_app; [apply Hrefl |].
        constructor; [exact Halike | apply Hrefl].
      + apply Forall_Forall2_diag. apply Forall_forall. intros p _. by split. }
  apply entries_Forall2 in Hfields.
  pose proof (each_field_alike Utils.check formData _ _ ∅ [] [] Hfields) as Heq.
  unfold Utils.validateForm, Utils.validateForm_visiting.
  destruct (each_field Utils.check formData
              (entries (before ++ (field, pre ++ RuleObj o1 :: post) :: after)) ∅ [])
    as [[e1 v1]|err1];
  destruct (each_field Utils.check formData
              (entries (before ++ (field, pre ++ RuleObj o2 :: post) :: after)) ∅ [])
    as [[e2 v2]|err2]; simpl in *;
    first [discriminate Heq | injection Heq as ->; reflexivity].
Qed.

Lemma object_rule_first_parameter_witness :
  get min3 "validator" = get min3_max9 "validator" /\
  get min3 "message" = get min3_max9 "message" /\
  first_enumerated min3 = first_enumerated min3_max9 /\
  Utils.validateForm signup_form
    [("email", [RuleVal (VStr "required")]);
     ("name", [RuleVal (VStr "required"); RuleObj min3])] =
  Utils.validateForm signup_form
    [("email", [RuleVal (VStr "required")]);
     ("name", [RuleVal (VStr "required"); RuleObj min3_max9])].
Proof.
  split; [reflexivity |]. split; [reflexivity |]. split; [reflexivity |].
  exact (object_rule_first_parameter min3 min3_max9 eq_refl eq_refl eq_refl
           signup_form [("email", [RuleVal (VStr "required")])] "name"
           [RuleVal (VStr "required")] [] []).
Defined.

(** C10 as stated fails: the two rules below name the same validator and
    have the same first-written remaining property ([min: 5]); the second
    has one more property, under the key ["0"], which is enumerated first
    and is the value the validator receives. *)
Lemma object_rule_index_key_first :
  get min5 "validator" = get min5_extra "validator" /\
  get min5 "message" = get min5_extra "message" /\
  first_inserted min5 = VNum 5 /\
  first_inserted min5_extra = VNum 5 /\
  first_enumerated min5_extra = VNum 1 /\
  Utils.validateForm {[ "name" := VStr "Al" ]} [("name", [RuleObj min5])] =
    Normal {| Utils.isValid := false;
              Utils.errors := {[ "name" := VStr "name validation failed" ]} |} /\
  Utils.validateForm {[ "name" := VStr "Al" ]} [("name", [RuleObj min5_extra])] =
    Normal {| Utils.isValid := true; Utils.errors := ∅ |}.
Proof. repeat split; vm_compute; reflexivity. Qed.

End FormFacts.

(* ===================================================================== *)
(** * Facts about the network client                                      *)
(* ===================================================================== *)

Module NetFacts.
Import JS Net Spec Examples.

Section Client.
Variable fetch : string -> options -> completion response.
Variable JSON_stringify : json -> string.

(** The request goes to the base URL followed by the endpoint. *)
Lemma prepare_url this endpoint o :
  (Utils.ApiClient.prepare JSON_stringify this endpoint o).1 =
  Utils.ApiClient.baseUrl this +:+ endpoint.
Proof. unfold Utils.ApiClient.prepare. by repeat case_match. Qed.

Lemma js_prepare_url this endpoint o :
  (JsUtils.APIClient.prepare this endpoint o).1 =
  JsUtils.APIClient.baseURL this +:+ endpoint.
Proof. done. Qed.

(** The headers sent are the caller's when the caller supplies any, and
    the default ones otherwise: the merged object is replaced by the
    spread of the options. *)
Lemma prepare_headers this endpoint o :
  headers (Utils.ApiClient.prepare JSON_stringify this endpoint o).2 =
  Some (default Utils.ApiClient.default_headers (headers o)).
Proof.
  unfold Utils.ApiClient.prepare. simpl.
  destruct (body o) as [b|]; simpl.
  - destruct (json_truthy b && json_is_object b); simpl;
      by destruct (headers o) as [h|]; simpl;
        rewrite ?(left_id_L ∅ (∪)).
  - by destruct (headers o) as [h|]; simpl; rewrite ?(left_id_L ∅ (∪)).
Qed.

Lemma js_prepare_headers this endpoint o :
  headers (JsUtils.APIClient.prepare this endpoint o).2 =
  Some (default JsUtils.APIClient.default_headers (headers o)).
Proof.
  unfold JsUtils.APIClient.prepare. simpl.
  by destruct (headers o) as [h|]; simpl; rewrite ?(left_id_L ∅ (∪)).
Qed.

(** The four verbs supply no headers: their requests carry the default
    ones. *)
Lemma verbs_default_headers this endpoint data w :
  Forall (fun r : completion json * world =>
            exists url config, sent r.2 = sent w ++ [(url, config)] /\
              headers config = Some Utils.ApiClient.default_headers)
    [ Utils.ApiClient.get fetch JSON_stringify this endpoint w;
      Utils.ApiClient.post fetch JSON_stringify this endpoint data w;
      Utils.ApiClient.put fetch JSON_stringify this endpoint data w;
      Utils.ApiClient.delete fetch JSON_stringify this endpoint w ].
Proof.
  repeat constructor;
    unfold Utils.ApiClient.get, Utils.ApiClient.post, Utils.ApiClient.put,
      Utils.ApiClient.delete, Utils.ApiClient.request;
    match goal with
    | |- context [Utils.ApiClient.prepare ?s ?t ?e ?o] =>
        pose proof (prepare_headers t e o) as Hh;
        destruct (Utils.ApiClient.prepare s t e o) as [url config]
    end;
    exists url, config; simpl in *; (split; [| exact Hh]);
    by repeat case_match.
Qed.

(** The status is recoverable from the error. *)
Lemma http_error_status (s1 s2 : Z) :
  Error ("HTTP error! status: " +:+ ToString (VNum s1)) =
  Error ("HTTP error! status: " +:+ ToString (VNum s2)) -> s1 = s2.
Proof.
  intros [= H]. apply (inj (String.app _)) in H. by apply (inj pretty) in H.
Qed.

(** One call of [request]: one request, with the method of the options,
    and the outcome the answer determines. *)
Lemma request_settles this endpoint o w :
  settles fetch w (Utils.ApiClient.baseUrl this +:+ endpoint) (method o)
    (Utils.ApiClient.request fetch JSON_stringify this endpoint o w).
Proof.
  unfold Utils.ApiClient.request.
  pose proof (prepare_url this endpoint o) as Hurl.
  assert (Hmethod : method (Utils.ApiClient.prepare JSON_stringify this endpoint o).2
                    = method o).
  { unfold Utils.ApiClient.prepare. simpl. by repeat case_match. }
  destruct (Utils.ApiClient.prepare JSON_stringify this endpoint o) as [url config].
  simpl in Hurl, Hmethod. subst url. exists config.
  split; [by destruct (_ ← fetch _ config; _) |]. split; [exact Hmethod |].
  intros resp ->. simpl. unfold logged_once, http_error.
  destruct (ok resp); simpl; [| done].
  by destruct (json_body resp).
Qed.

Lemma js_request_settles this endpoint o w :
  settles fetch w (JsUtils.APIClient.baseURL this +:+ endpoint) (method o)
    (JsUtils.APIClient.request fetch this endpoint o w).
Proof.
  unfold JsUtils.APIClient.request, JsUtils.APIClient.prepare.
  eexists. split; [by destruct (_ ← fetch _ _; _) |]. split; [reflexivity |].
  intros resp ->. simpl. unfold logged_once, http_error.
  destruct (ok resp); simpl; [| done].
  by destruct (json_body resp).
Qed.

(** C4, as the code has it.  Each of [request], [get], [post], [put] and
    [delete], in both files, issues one request to the base URL followed
    by the endpoint, with its method.  When the transport answers with a
    response whose success flag is false and whose status is [s], the call
    fails with the error whose message carries [s], after writing that same
    error to the console once.  When the success flag is true and the body
    parses as JSON, the call resolves with the parsed body and writes
    nothing; when the body does not parse, the call fails with the
    parser's error, written to the console once. *)
Theorem client_call_outcome (endpoint : string) (o : options) (data : json)
    (w : world) (this : Utils.ApiClient.ApiClient)
    (this' : JsUtils.APIClient.APIClient) :
  let url := Utils.ApiClient.baseUrl this +:+ endpoint in
  let url' := JsUtils.APIClient.baseURL this' +:+ endpoint in
  settles fetch w url (method o)
    (Utils.ApiClient.request fetch JSON_stringify this endpoint o w) /\
  settles fetch w url (Some "GET")
    (Utils.ApiClient.get fetch JSON_stringify this endpoint w) /\
  settles fetch w url (Some "POST")
    (Utils.ApiClient.post fetch JSON_stringify this endpoint data w) /\
  settles fetch w url (Some "PUT")
    (Utils.ApiClient.put fetch JSON_stringify this endpoint data w) /\
  settles fetch w url (Some "DELETE")
    (Utils.ApiClient.delete fetch JSON_stringify this endpoint w) /\
  settles fetch w url' (method o)
    (JsUtils.APIClient.request fetch this' endpoint o w) /\
  settles fetch w url' None
    (JsUtils.APIClient.get fetch this' endpoint w) /\
  settles fetch w url' (Some "POST")
    (JsUtils.APIClient.post fetch JSON_stringify this' endpoint data w) /\
  settles fetch w url' (Some "PUT")
    (JsUtils.APIClient.put fetch JSON_stringify this' endpoint data w) /\
  settles fetch w url' (Some "DELETE")
    (JsUtils.APIClient.delete fetch this' endpoint w).
Proof.
  intros url url'.
  split; [apply request_settles |].
  split; [apply (request_settles this endpoint
                   {| method := Some "GET"; body := None; headers := None |}) |].
  split; [apply (request_settles this endpoint
                   {| method := Some "POST"; body := Some data; headers := None |}) |].
  split; [apply (request_settles this endpoint
                   {| method := Some "PUT"; body := Some data; headers := None |}) |].
  split; [apply (request_settles this endpoint
                   {| method := Some "DELETE"; body := None; headers := None |}) |].
  split; [apply js_request_settles |].
  split; [apply (js_request_settles this' endpoint JsUtils.APIClient.no_options) |].
  split; [apply (js_request_settles this' endpoint
                   {| method := Some "POST";
                      body := Some (JStr (JSON_stringify data));
                      headers := None |}) |].
  split; [apply (js_request_settles this' endpoint
                   {| method := Some "PUT";
                      body := Some (JStr (JSON_stringify data));
                      headers := None |}) |].
  apply (js_request_settles this' endpoint
           {| method := Some "DELETE"; body := None; headers := None |}).
Qed.

(** A failure of the transport itself, or of the decoding of the body,
    takes the same path: logged once, raised unchanged. *)
Lemma request_transport_failure this endpoint o w e :
  (let '(url, config) := Utils.ApiClient.prepare JSON_stringify this endpoint o in
   fetch url config = Throw e) ->
  exists w', Utils.ApiClient.request fetch JSON_stringify this endpoint o w = (Throw e, w') /\
             console w' = console w ++ [("API request failed:", e)].
Proof.
  unfold Utils.ApiClient.request.
  destruct (Utils.ApiClient.prepare JSON_stringify this endpoint o) as [url config].
  intros ->. simpl. by eexists.
Qed.
End Client.

Lemma client_call_outcome_witness :
  ((Utils.ApiClient.get (mock_fetch 404 JNull) mock_stringify crm "/x" quiet).1 =
     Throw (Error "HTTP error! status: 404") /\
   console (Utils.ApiClient.get (mock_fetch 404 JNull) mock_stringify crm "/x" quiet).2 =
     [("API request failed:", Error "HTTP error! status: 404")]) /\
  ((Utils.ApiClient.get (mock_fetch 200 (JObj [("a", JNum 1)])) mock_stringify crm
      "/x" quiet).1 = Normal (JObj [("a", JNum 1)]) /\
   console (Utils.ApiClient.get (mock_fetch 200 (JObj [("a", JNum 1)])) mock_stringify
              crm "/x" quiet).2 = []) /\
  ((JsUtils.APIClient.get (mock_fetch 404 JNull) crm_js "/x" quiet).1 =
     Throw (Error "HTTP error! status: 404") /\
   console (JsUtils.APIClient.get (mock_fetch 404 JNull) crm_js "/x" quiet).2 =
     [("API request failed:", Error "HTTP error! status: 404")]) /\
  ((JsUtils.APIClient.delete (mock_fetch 200 (JObj [("a", JNum 1)])) crm_js
      "/x" quiet).1 = Normal (JObj [("a", JNum 1)]) /\
   console (JsUtils.APIClient.delete (mock_fetch 200 (JObj [("a", JNum 1)])) crm_js
              "/x" quiet).2 = []).
Proof.
  destruct (client_call_outcome (mock_fetch 404 JNull) mock_stringify "/x"
              JsUtils.APIClient.no_options JNull quiet crm crm_js)
    as (_ & (c1 & _ & _ & H1) & _ & _ & _ & _ & (c3 & _ & _ & H3) & _).
  destruct (client_call_outcome (mock_fetch 200 (JObj [("a", JNum 1)])) mock_stringify
              "/x" JsUtils.APIClient.no_options JNull quiet crm crm_js)
    as (_ & (c2 & _ & _ & H2) & _ & _ & _ & _ & _ & _ & _ & (c4 & _ & _ & H4)).
  split; [exact (H1 _ eq_refl) |]. split; [exact (H2 _ eq_refl) |].
  split; [exact (H3 _ eq_refl) | exact (H4 _ eq_refl)].
Defined.

(** C4 as stated fails for a success status without a JSON body: the
    transport answers 204 with the success flag set, and [get] fails with
    the parser's error, which it logs, where the claim has the call
    resolve. *)
Lemma success_status_without_json_body :
  mock_no_content "https://crm.example/api/x"
      {| method := Some "GET"; body := None;
         headers := Some {[ "Content-Type" := "application/json" ]} |} =
    Normal {| ok := true; status := 204;
              json_body := Throw (SyntaxError "Unexpected end of JSON input") |} /\
  Utils.ApiClient.get mock_no_content mock_stringify crm "/x" quiet =
    (Throw (SyntaxError "Unexpected end of JSON input"),
     {| console := [("API request failed:",
                     SyntaxError "Unexpected end of JSON input")];
        sent := [("https://crm.example/api/x",
                  {| method := Some "GET"; body := None;
                     headers := Some {[ "Content-Type" := "application/json" ]} |})] |}) /\
  JsUtils.APIClient.get mock_no_content crm_js "/x" quiet =
    (Throw (SyntaxError "Unexpected end of JSON input"),
     {| console := [("API request failed:",
                     SyntaxError "Unexpected end of JSON input")];
        sent := [("https://crm.example/api/x",
                  {| method := None; body := None;
                     headers := Some {[ "Content-Type" := "application/json" ]} |})] |}).
Proof. repeat split; vm_compute; reflexivity. Qed.

(** C3.  A call that supplies headers of its own is sent with exactly
    those headers: the object that merges them with the default
    [Content-Type] is built and then replaced by the spread of the
    options, so the default [Content-Type] is lost.  The specification
    has the merged map sent. *)
Theorem request_loses_default_content_type :
  sent (Utils.ApiClient.request (mock_fetch 200 JNull) mock_stringify crm
          "/contacts" with_token quiet).2 =
    [("https://crm.example/api/contacts", with_token)] /\
  sent (JsUtils.APIClient.request (mock_fetch 200 JNull) crm_js
          "/contacts" with_token quiet).2 =
    [("https://crm.example/api/contacts", with_token)] /\
  headers with_token = Some {[ "Authorization" := "Bearer t" ]} /\
  ({[ "Authorization" := "Bearer t" ]} : gmap string string) !! "Content-Type" = None /\
  spread_headers Utils.ApiClient.default_headers {[ "Authorization" := "Bearer t" ]}
    !! "Content-Type" = Some "application/json".
Proof. repeat split; vm_compute; reflexivity. Qed.

End NetFacts.
(* ===================================================================== *)
(** * Facts about the document helpers                                    *)
(* ===================================================================== *)

Module DomFacts.
Import JS Dom Spec Examples.

(** Induction over a tree, with the hypothesis for every child. *)
Lemma node_induction (P : node -> Prop) :
  (forall data, P (Text data)) ->
  (forall a kids, Forall P kids -> P (Elem a kids)) ->
  forall n, P n.
Proof.
  intros HText HElem. fix IH 1. intros [a kids | data].
  - apply HElem. induction kids as [|k kids IHkids]; constructor.
    + apply IH.
    + exact IHkids.
  - apply HText.
Qed.

(** ** Looking up *)

Lemma find_in_kids_None (find : node -> option (list nat)) i ks :
  find_in_kids find i ks = None <-> Forall (fun k => find k = None) ks.
Proof.
  revert i. induction ks as [|k ks IH]; intros i; simpl.
  - split; [constructor | done].
  - destruct (find k) as [p|] eqn:Hk.
    + split; [done |]. intros H. apply Forall_cons in H as [H _]. congruence.
    + rewrite IH. split; [by constructor | by intros [_ H]%Forall_cons].
Qed.

Lemma find_in_kids_Some (find : node -> option (list nat)) i ks p :
  find_in_kids find i ks = Some p ->
  exists j q k, p = (i + j)%nat :: q /\ ks !! j = Some k /\ find k = Some q.
Proof.
  revert i. induction ks as [|k ks IH]; intros i; simpl; [done |].
  destruct (find k) as [q|] eqn:Hk.
  - intros [= <-]. exists O, q, k. by rewrite Nat.add_0_r.
  - intros H. destruct (IH _ H) as (j & q & k' & -> & Hj & Hq).
    exists (S j), q, k'. repeat split; [| done | done].
    f_equal. lia.
Qed.

(** What a lookup returns is an element of the tree that satisfies the
    test. *)
Lemma find_node_sound (P : attrs -> bool) (n : node) (p : list nat) :
  find_node P n = Some p ->
  exists a ks, node_at p n = Some (Elem a ks) /\ P a = true.
Proof.
  revert p. induction n as [data | a kids IH] using node_induction; intros p; simpl.
  - done.
  - destruct (P a) eqn:Ha.
    + intros [= <-]. by exists a, kids.
    + intros H. apply find_in_kids_Some in H as (j & q & k & -> & Hj & Hq).
      simpl. rewrite Hj. simpl.
      rewrite Forall_forall in IH. apply IH; [| done].
      by apply list_elem_of_lookup_2 in Hj.
Qed.

Lemma find_first_sound (P : attrs -> bool) (d : document) (pl : place) :
  find_first P d = Some pl ->
  exists a ks, elem_at pl d = Some (a, ks) /\ P a = true.
Proof.
  unfold find_first, elem_at.
  destruct (find_node P (Elem (head d) (head_kids d))) as [p|] eqn:Hh.
  - intros [= <-]. apply find_node_sound in Hh as (a & ks & -> & Ha).
    by exists a, ks.
  - destruct (find_node P (Elem (body d) (body_kids d))) as [p|] eqn:Hb; [| done].
    simpl. intros [= <-]. apply find_node_sound in Hb as (a & ks & -> & Ha).
    by exists a, ks.
Qed.

(** A lookup finds nothing exactly when no element satisfies the test. *)
Lemma find_node_None (P : attrs -> bool) (n : node) :
  find_node P n = None <-> count_node P n = O.
Proof.
  induction n as [data | a kids IH] using node_induction; simpl; [done |].
  destruct (P a); simpl; [done |].
  rewrite find_in_kids_None. clear a.
  induction IH as [|k kids Hk _ IHkids].
  - split; [done | constructor].
  - rewrite Forall_cons, Hk, IHkids, fmap_cons.
    change (sum_list (count_node P k :: (count_node P <$> kids)))
      with (count_node P k + sum_list (count_node P <$> kids))%nat.
    lia.
Qed.

Lemma find_first_None (P : attrs -> bool) (d : document) :
  find_first P d = None <-> count_doc P d = O.
Proof.
  unfold find_first, count_doc.
  pose proof (find_node_None P (Elem (head d) (head_kids d))) as Hh.
  pose proof (find_node_None P (Elem (body d) (body_kids d))) as Hb.
  destruct (find_node P (Elem (head d) (head_kids d))) as [p|].
  - split; [done |]. intros H. assert (Hz : count_node P (Elem (head d) (head_kids d)) = O) by lia.
    apply Hh in Hz. done.
  - destruct (find_node P (Elem (body d) (body_kids d))) as [p|].
    + split; [done |]. intros H.
      assert (Hz : count_node P (Elem (body d) (body_kids d)) = O) by lia.
      apply Hb in Hz. done.
    + split; [| done]. intros _.
      rewrite (proj1 Hh eq_refl), (proj1 Hb eq_refl). done.
Qed.

(** ** Writing *)

Lemma node_at_alter (f : node -> node) (p : list nat) (n m : node) :
  node_at p n = Some m -> node_at p (alter_node f p n) = Some (f m).
Proof.
  revert n. induction p as [|i p IH]; intros n; simpl.
  - by intros [= ->].
  - destruct n as [a kids | data]; [| done].
    destruct (kids !! i) as [k|] eqn:Hk; simpl; [| done].
    intros Hm. rewrite list_lookup_alter_eq, Hk. simpl. by apply IH.
Qed.

Lemma elem_at_edit_at (pl : place) fa fk (d : document) a ks :
  elem_at pl d = Some (a, ks) ->
  elem_at pl (edit_at pl fa fk d) = Some (fa a, fk ks).
Proof.
  assert (Hnode : forall a0 kids i p,
            match node_at (i :: p) (Elem a0 kids) with
            | Some (Elem a1 ks1) => Some (a1, ks1)
            | _ => None
            end = Some (a, ks) ->
            match node_at (i :: p)
                    (Elem a0 (alter (alter_node (on_elem fa fk) p) i kids)) with
            | Some (Elem a1 ks1) => Some (a1, ks1)
            | _ => None
            end = Some (fa a, fk ks)).
  { intros a0 kids i p H.
    change (Elem a0 (alter (alter_node (on_elem fa fk) p) i kids))
      with (alter_node (on_elem fa fk) (i :: p) (Elem a0 kids)).
    destruct (node_at (i :: p) (Elem a0 kids)) as [[a1 ks1|data]|] eqn:Hat;
      try done.
    injection H as -> ->. by rewrite (node_at_alter _ _ _ _ Hat). }
  destruct pl as [[|i p]|[|i p]]; unfold elem_at, edit_at; simpl head;
    simpl head_kids; simpl body; simpl body_kids.
  - simpl. by intros [= -> ->].
  - apply Hnode.
  - simpl. by intros [= -> ->].
  - apply Hnode.
Qed.

Lemma find_in_kids_alter (find : node -> option (list nat)) (g : node -> node) i j ks :
  (forall k, find (g k) = find k) ->
  find_in_kids find j (alter g i ks) = find_in_kids find j ks.
Proof.
  intros Hg. revert i j. induction ks as [|k ks IH]; intros i j; [done |].
  destruct i as [|i]; simpl.
  - by rewrite Hg.
  - change (list_alter g i ks) with (alter g i ks). by rewrite IH.
Qed.

(** A write that leaves the structure alone and does not change what the
    test sees does not change what a lookup finds. *)
Lemma find_node_alter (P : attrs -> bool) (fa : attrs -> attrs) (p : list nat) (n : node) :
  (forall a, P (fa a) = P a) ->
  find_node P (alter_node (on_elem fa (fun ks => ks)) p n) = find_node P n.
Proof.
  intros HP. revert n. induction p as [|i p IH]; intros n; simpl.
  - destruct n as [a kids | data]; simpl; [by rewrite HP | done].
  - destruct n as [a kids | data]; simpl; [| done].
    by rewrite find_in_kids_alter.
Qed.

Lemma find_first_edit_at (P : attrs -> bool) (fa : attrs -> attrs) (pl : place)
    (d : document) :
  (forall a, P (fa a) = P a) ->
  find_first P (edit_at pl fa (fun ks => ks) d) = find_first P d.
Proof.
  intros HP. unfold find_first.
  assert (Hkids : forall i p j ks,
            find_in_kids (find_node P) j
              (alter (alter_node (on_elem fa (fun ks => ks)) p) i ks) =
            find_in_kids (find_node P) j ks).
  { intros i p j ks. apply find_in_kids_alter. intros k. by apply find_node_alter. }
  destruct pl as [[|i p]|[|i p]]; simpl; rewrite ?HP; try done.
  - change (list_alter ?g i (head_kids d)) with (alter g i (head_kids d)).
    by rewrite Hkids.
  - change (list_alter ?g i (body_kids d)) with (alter g i (body_kids d)).
    by rewrite Hkids.
Qed.

Lemma write_found (pl : place) fa fk (d : document) a ks :
  elem_at pl d = Some (a, ks) ->
  write (Some pl) fa fk d = (Normal tt, edit_at pl fa fk d).
Proof. unfold write. by intros ->. Qed.

Lemma elem_at_set_body_overflow (pl : place) (v : string) (d : document) a ks :
  elem_at pl d = Some (a, ks) ->
  exists a',
    elem_at pl (set_body (set_attrs_overflow v (body d)) (body_kids d) d) = Some (a', ks) /\
    classes a' = classes a /\ id a' = id a.
Proof.
  destruct pl as [[|i p]|[|i p]]; unfold elem_at; simpl; intros H; eauto.
  injection H as <- <-. eauto.
Qed.

Lemma has_id_on_classes name f a : has_id name (on_classes f a) = has_id name a.
Proof. done. Qed.

Lemma has_id_set_overflow name v a : has_id name (set_attrs_overflow v a) = has_id name a.
Proof. done. Qed.

Lemma tokens_add_elem tok cs : tok ∈ tokens_add tok cs.
Proof.
  unfold tokens_add. case_bool_decide; [done |].
  apply elem_of_app. right. apply list_elem_of_here.
Qed.

(** ** The modal helpers *)

Lemma modal_step_spec f v name pl d a ks :
  getElementById name d = Some pl ->
  elem_at pl d = Some (a, ks) ->
  exists d' a',
    modal_step f v pl d = (Normal tt, d') /\
    getElementById name d' = Some pl /\
    overflow (body d') = v /\
    elem_at pl d' = Some (a', ks) /\
    classes a' = f (classes a).
Proof.
  intros Hget Hat. unfold modal_step, dom_bind.
  rewrite (write_found _ _ _ _ _ _ Hat). unfold set_body_overflow.
  pose proof (elem_at_edit_at pl (on_classes f) (fun ks => ks) d a ks Hat) as Hat1.
  destruct (elem_at_set_body_overflow pl v _ _ _ Hat1) as (a' & Hat2 & Hcls & _).
  eexists _, a'. split; [reflexivity |]. repeat split.
  - unfold getElementById in *.
    change (set_body (set_attrs_overflow v (body ?d0)) (body_kids ?d0) ?d0)
      with (edit_at (InBody []) (set_attrs_overflow v) (fun ks => ks) d0).
    rewrite find_first_edit_at by apply has_id_set_overflow.
    rewrite find_first_edit_at by apply has_id_on_classes. done.
  - exact Hat2.
  - by rewrite Hcls.
Qed.

Lemma modal_show_unfold name d pl :
  getElementById name d = Some pl ->
  Utils.Modal.show name d = modal_step (tokens_remove "hidden") "hidden" pl d /\
  Utils.Modal.hide name d = modal_step (tokens_add "hidden") "auto" pl d /\
  JsUtils.openModal name d = modal_step (tokens_remove "hidden") "hidden" pl d /\
  JsUtils.closeModal name d = modal_step (tokens_add "hidden") "auto" pl d.
Proof.
  intros H. unfold Utils.Modal.show, Utils.Modal.hide, JsUtils.openModal,
    JsUtils.closeModal, Utils.DOM.get. by rewrite H.
Qed.

(** C6, as the code has it.  For a modal id whose node is in the document,
    [Modal.show(id)] followed by [Modal.hide(id)] ([openModal] followed by
    [closeModal]) leaves the node hidden and leaves the overflow of the
    body at ["auto"], whatever it was before: the scroll state from before
    the call is back exactly when it was ["auto"]. *)
Theorem modal_show_then_hide (name : string) (d : document) (pl : place) :
  getElementById name d = Some pl ->
  (exists d1 d2 a ks,
     Utils.Modal.show name d = (Normal tt, d1) /\
     Utils.Modal.hide name d1 = (Normal tt, d2) /\
     elem_at pl d2 = Some (a, ks) /\ "hidden" ∈ classes a /\
     overflow (body d2) = "auto" /\
     (overflow (body d2) = overflow (body d) <-> overflow (body d) = "auto")) /\
  (exists d1 d2 a ks,
     JsUtils.openModal name d = (Normal tt, d1) /\
     JsUtils.closeModal name d1 = (Normal tt, d2) /\
     elem_at pl d2 = Some (a, ks) /\ "hidden" ∈ classes a /\
     overflow (body d2) = "auto" /\
     (overflow (body d2) = overflow (body d) <-> overflow (body d) = "auto")).
Proof.
  intros Hget.
  destruct (find_first_sound _ _ _ Hget) as (a & ks & Hat & _).
  destruct (modal_step_spec (tokens_remove "hidden") "hidden" name pl d a ks Hget Hat)
    as (d1 & a1 & Hshow & Hget1 & _ & Hat1 & _).
  destruct (modal_step_spec (tokens_add "hidden") "auto" name pl d1 a1 ks Hget1 Hat1)
    as (d2 & a2 & Hhide & _ & Hov & Hat2 & Hcls).
  destruct (modal_show_unfold name d pl Hget) as (Hs & _ & Ho & _).
  destruct (modal_show_unfold name d1 pl Hget1) as (_ & Hh & _ & Hc).
  assert (Hhidden : "hidden" ∈ classes a2) by (rewrite Hcls; apply tokens_add_elem).
  assert (Hiff : overflow (body d2) = overflow (body d) <-> overflow (body d) = "auto")
    by (rewrite Hov; split; congruence).
  split; exists d1, d2, a2, ks.
  - by rewrite Hs, Hh.
  - by rewrite Ho, Hc.
Qed.

Lemma modal_show_then_hide_witness :
  getElementById "dlg" page = Some (InBody [1%nat]) /\
  exists d1 d2 a ks,
    Utils.Modal.show "dlg" page = (Normal tt, d1) /\
    Utils.Modal.hide "dlg" d1 = (Normal tt, d2) /\
    elem_at (InBody [1%nat]) d2 = Some (a, ks) /\ "hidden" ∈ classes a /\
    overflow (body d2) = "auto" /\
    (overflow (body d2) = overflow (body page) <-> overflow (body page) = "auto").
Proof.
  split; [reflexivity |].
  exact (proj1 (modal_show_then_hide "dlg" page (InBody [1%nat]) eq_refl)).
Defined.

(** C6 as stated fails: the body of [page] scrolls before the dialog is
    shown, and its overflow is ["auto"] after the dialog is hidden. *)
Lemma modal_scroll_state_not_restored :
  getElementById "dlg" page = Some (InBody [1%nat]) /\
  overflow (body page) = "scroll" /\
  overflow (body (Utils.Modal.hide "dlg" (Utils.Modal.show "dlg" page).2).2) = "auto" /\
  overflow (body (JsUtils.closeModal "dlg" (JsUtils.openModal "dlg" page).2).2) = "auto" /\
  overflow (body (Utils.Modal.hide "dlg" (Utils.Modal.show "dlg" page).2).2)
    <> overflow (body page).
Proof. repeat split; try (vm_compute; reflexivity). vm_compute. discriminate. Qed.

(** ** A target that is not in the document *)

(** The helpers that test what the lookup returned do nothing. *)
Lemma missing_target_tolerated (name : string) (content : list node) (d : document) :
  getElementById name d = None ->
  Utils.Modal.show name d = (Normal tt, d) /\
  Utils.Modal.hide name d = (Normal tt, d) /\
  Utils.Loading.show name d = (Normal tt, d) /\
  Utils.Loading.hide name content d = (Normal tt, d) /\
  JsUtils.openModal name d = (Normal tt, d) /\
  JsUtils.closeModal name d = (Normal tt, d).
Proof.
  intros H. unfold Utils.Modal.show, Utils.Modal.hide, Utils.Loading.show,
    Utils.Loading.hide, JsUtils.openModal, JsUtils.closeModal, Utils.DOM.get.
  by rewrite H.
Qed.

(** The helpers that use it without a test throw, before writing. *)
Lemma missing_target_throws (name : string) (d : document) :
  getElementById name d = None ->
  Utils.DOM.show (Utils.DOM.Name name) d = (Throw TypeError, d) /\
  Utils.DOM.hide (Utils.DOM.Name name) d = (Throw TypeError, d) /\
  Utils.DOM.toggle (Utils.DOM.Name name) d = (Throw TypeError, d).
Proof.
  intros H. unfold Utils.DOM.show, Utils.DOM.hide, Utils.DOM.toggle,
    Utils.DOM.resolve, Utils.DOM.get. by rewrite H.
Qed.

Lemma missing_sidebar_throws (d : document) :
  querySelector (ClassSel "sidebar") d = None ->
  JsUtils.toggleSidebar d = (Throw TypeError, d).
Proof. intros H. unfold JsUtils.toggleSidebar. by rewrite H. Qed.

(** C7.  [DOM.show], [DOM.hide] and [DOM.toggle] called with an id that
    no node has, and [toggleSidebar] on a document without a sidebar,
    raise a TypeError instead of doing nothing; [toggleSidebar] on a
    document with a sidebar and no main content raises it after the
    sidebar was toggled, so the document is changed as well.  [Modal] and
    [Loading] do tolerate a missing node. *)
Theorem missing_node_raises :
  getElementById "missing" page = None /\
  Utils.DOM.show (Utils.DOM.Name "missing") page = (Throw TypeError, page) /\
  Utils.DOM.hide (Utils.DOM.Name "missing") page = (Throw TypeError, page) /\
  Utils.DOM.toggle (Utils.DOM.Name "missing") page = (Throw TypeError, page) /\
  querySelector (ClassSel "sidebar") plain_page = None /\
  JsUtils.toggleSidebar plain_page = (Throw TypeError, plain_page) /\
  querySelector (ClassSel "main-content") page = None /\
  (JsUtils.toggleSidebar page).1 = Throw TypeError /\
  (JsUtils.toggleSidebar page).2 <> page /\
  Utils.Modal.show "missing" page = (Normal tt, page) /\
  Utils.Loading.show "missing" page = (Normal tt, page).
Proof.
  repeat split; try (vm_compute; reflexivity). vm_compute. discriminate.
Qed.

(** ** Notifications and the shared stylesheet *)

Lemma count_forest_app P (ns1 ns2 : list node) :
  count_forest P (ns1 ++ ns2) = (count_forest P ns1 + count_forest P ns2)%nat.
Proof. unfold count_forest. by rewrite fmap_app, sum_list_with_app. Qed.

Lemma count_forest_cons P (n : node) (ns : list node) :
  count_forest P (n :: ns) = (count_node P n + count_forest P ns)%nat.
Proof. done. Qed.

Lemma count_node_Elem P a kids :
  count_node P (Elem a kids) = ((if P a then 1 else 0) + count_forest P kids)%nat.
Proof. done. Qed.

Lemma count_forest_mono (P Q : attrs -> bool) (ns : list node) :
  (forall a, P a = true -> Q a = true) ->
  (count_forest P ns <= count_forest Q ns)%nat.
Proof.
  intros HPQ. induction ns as [|n ns IHns]; [done |].
  rewrite !count_forest_cons.
  assert (count_node P n <= count_node Q n)%nat; [| lia].
  clear IHns ns. induction n as [data | a kids IH] using node_induction; [done |].
  rewrite !count_node_Elem.
  assert (count_forest P kids <= count_forest Q kids)%nat.
  { induction IH as [|k kids Hk _ IHkids]; [done |].
    rewrite !count_forest_cons. lia. }
  specialize (HPQ a).
  destruct (P a), (Q a); first [lia | by specialize (HPQ eq_refl)].
Qed.

(** The nodes built from markup are new: they count like the markup and
    no timer refers to them. *)
Lemma count_parsed P (ns : list node) :
  (forall a, P (set_attrs_toast None a) = P a) ->
  count_forest P (parsed <$> ns) = count_forest P ns.
Proof.
  intros HP. induction ns as [|n ns IHns]; [done |].
  rewrite fmap_cons, !count_forest_cons, IHns. f_equal.
  clear IHns ns. induction n as [data | a kids IH] using node_induction; [done |].
  simpl parsed. rewrite !count_node_Elem, HP. f_equal.
  induction IH as [|k kids Hk _ IHkids]; [done |].
  rewrite fmap_cons, !count_forest_cons. by rewrite Hk, IHkids.
Qed.

Lemma parsed_toast_free (ns : list node) : forallb toast_free (parsed <$> ns) = true.
Proof.
  induction ns as [|n ns IHns]; [done |].
  rewrite fmap_cons. simpl forallb. rewrite IHns, andb_true_r.
  clear IHns ns. induction n as [data | a kids IH] using node_induction; [done |].
  simpl. induction IH as [|k kids Hk _ IHkids]; [done |].
  rewrite fmap_cons. simpl forallb. by rewrite Hk.
Qed.

(** A timer removes nothing from a forest it does not refer to, and never
    adds an element. *)
Lemma prune_toast_free (h : nat) (ns : list node) :
  forallb toast_free ns = true -> prune h ns = ns.
Proof.
  unfold prune. induction ns as [|n ns IHns]; [done |].
  simpl forallb. intros [Hn Hns]%andb_true_iff.
  assert (Hnode : prune_node h n = Some n).
  { clear IHns Hns ns. revert Hn.
    induction n as [data | a kids IH] using node_induction; [done |].
    simpl. intros [Ha Hkids]%andb_true_iff. apply bool_decide_eq_true in Ha.
    rewrite bool_decide_eq_false_2 by congruence. do 2 f_equal.
    induction IH as [|k kids Hk _ IHkids]; [done |].
    simpl in Hkids. apply andb_true_iff in Hkids as [Hk1 Hk2].
    simpl. rewrite (Hk Hk1). f_equal. by apply IHkids. }
  simpl. rewrite Hnode. f_equal. by apply IHns.
Qed.

Lemma omap_cons_unfold {A B} (f : A -> option B) (x : A) (l : list A) :
  omap f (x :: l) =
  match f x with Some y => y :: omap f l | None => omap f l end.
Proof. done. Qed.

Lemma count_omap_prune P (h : nat) (ns : list node) :
  Forall (fun n => match prune_node h n with
                   | Some n' => (count_node P n' <= count_node P n)%nat
                   | None => True
                   end) ns ->
  (count_forest P (omap (prune_node h) ns) <= count_forest P ns)%nat.
Proof.
  induction 1 as [|n ns Hn _ IH]; [done |].
  rewrite omap_cons_unfold, count_forest_cons.
  destruct (prune_node h n) as [n'|]; [rewrite count_forest_cons |]; lia.
Qed.

Lemma count_prune_node P (h : nat) (n : node) :
  match prune_node h n with
  | Some n' => (count_node P n' <= count_node P n)%nat
  | None => True
  end.
Proof.
  induction n as [data | a kids IH] using node_induction; [simpl; lia |].
  simpl prune_node. case_bool_decide; [done |].
  rewrite !count_node_Elem. pose proof (count_omap_prune P h kids IH). lia.
Qed.

Lemma count_prune P (h : nat) (ns : list node) :
  (count_forest P (prune h ns) <= count_forest P ns)%nat.
Proof.
  apply count_omap_prune. apply Forall_forall. intros n _. apply count_prune_node.
Qed.

Lemma is_marker_toast a : is_marker (set_attrs_toast None a) = is_marker a.
Proof. done. Qed.

Lemma count_styles_node : count_node is_marker Utils.Notification.styles_node = 1%nat.
Proof. reflexivity. Qed.

(** The elements with the marker id in a document in [stylesheet_state]:
    none before the first notification, one after. *)
Lemma stylesheet_state_count d0 d shown :
  count_doc is_marker d0 = O ->
  stylesheet_state d0 d shown ->
  count_doc is_marker d = (if shown then 1 else 0)%nat.
Proof.
  unfold count_doc. rewrite !count_node_Elem.
  intros H0 (Hhead & Hbody & Hkids & Hcount).
  rewrite Hhead, Hbody, Hkids, Hcount, count_forest_app.
  assert (count_forest is_marker
            (if shown then [Utils.Notification.styles_node] else []) =
          (if shown then 1 else 0)%nat) as -> by (by destruct shown).
  destruct (is_marker (head d0)), (is_marker (body d0)); lia.
Qed.

(** What one call of [Notification.show] writes. *)
Lemma show_writes message type duration (d : document) :
  let d' := (Utils.Notification.show message type duration d).2 in
  head d' = head d /\ body d' = body d /\
  head_kids d' =
    head_kids d ++
    match find_first is_marker d with
    | Some _ => []
    | None => [Utils.Notification.styles_node]
    end /\
  body_kids d' =
    body_kids d ++
    [Utils.Notification.held_by (next_handle d)
       (Utils.DOM.create "div"
          [Utils.DOM.className ("notification notification-" +:+ type);
           Utils.DOM.innerHTML message] EmptyString)].
Proof.
  unfold Utils.Notification.show, querySelector.
  change (has_id Utils.Notification.marker) with is_marker.
  destruct (find_first is_marker d); simpl; by rewrite ?app_nil_r.
Qed.

Lemma fire_writes (h : nat) (d : document) :
  let d' := Utils.Notification.fire h d in
  head d' = head d /\ body d' = body d /\
  (head_kids d' = head_kids d \/ head_kids d' = prune h (head_kids d)) /\
  (body_kids d' = body_kids d \/ body_kids d' = prune h (body_kids d)).
Proof.
  unfold Utils.Notification.fire. case_bool_decide; simpl; auto.
Qed.

Lemma count_notification P h c message :
  P (set_attrs_toast (Some h) (set_attrs_classes (tokens c) (Utils.DOM.blank "div")))
    = false ->
  (forall a, P (set_attrs_toast None a) = P a) ->
  count_node P
    (Utils.Notification.held_by h
       (Utils.DOM.create "div" [Utils.DOM.className c; Utils.DOM.innerHTML message]
          EmptyString)) = count_forest P message.
Proof.
  intros Hroot HP. unfold Utils.DOM.create. simpl.
  change (sum_list (count_node P <$> (parsed <$> message)))
    with (count_forest P (parsed <$> message)).
  by rewrite Hroot, (count_parsed _ _ HP).
Qed.

Lemma stylesheet_state_step d0 d shown e :
  count_doc is_marker d0 = O ->
  forallb toast_free (head_kids d0) = true ->
  count_forest is_marker (message_of e) = O ->
  stylesheet_state d0 d shown ->
  stylesheet_state d0 (step d e) (shown || is_notify e).
Proof.
  intros H0 Hfree Hmsg Hst.
  pose proof (stylesheet_state_count _ _ _ H0 Hst) as Hcount.
  destruct Hst as (Hhead & Hbody & Hkids & Hbk).
  destruct e as [message type duration | h]; unfold step, is_notify.
  - rewrite orb_true_r.
    destruct (show_writes message type duration d) as (Wh & Wb & Whk & Wbk).
    unfold stylesheet_state. rewrite Wh, Wb, Whk, Wbk. repeat split; try done.
    + destruct (find_first is_marker d) as [pl|] eqn:Hfind.
      * assert (shown = true) as ->.
        { destruct shown; [done |]. apply find_first_None in Hcount. congruence. }
        by rewrite app_nil_r.
      * assert (shown = false) as ->.
        { destruct shown; [| done]. apply find_first_None in Hfind. lia. }
        by rewrite Hkids, app_nil_r.
    + rewrite count_forest_app, Hbk, count_forest_cons.
      rewrite count_notification; [| done | done].
      simpl in Hmsg. rewrite Hmsg. done.
  - rewrite orb_false_r.
    destruct (fire_writes h d) as (Wh & Wb & Whk & Wbk).
    unfold stylesheet_state. rewrite Wh, Wb. repeat split; try done.
    + destruct Whk as [-> | ->]; [done |].
      rewrite prune_toast_free; [done |].
      rewrite Hkids, forallb_app, Hfree. by destruct shown.
    + destruct Wbk as [-> | ->]; [done |].
      pose proof (count_prune is_marker h (body_kids d)). lia.
Qed.

Lemma stylesheet_state_run d0 events d shown :
  count_doc is_marker d0 = O ->
  forallb toast_free (head_kids d0) = true ->
  Forall (fun e => count_forest is_marker (message_of e) = O) events ->
  stylesheet_state d0 d shown ->
  stylesheet_state d0 (run events d) (shown || existsb is_notify events).
Proof.
  intros H0 Hfree Hmsgs. revert d shown.
  induction Hmsgs as [|e events He _ IH]; intros d shown Hst; simpl.
  - by rewrite orb_false_r.
  - rewrite orb_assoc. apply IH. by apply stylesheet_state_step.
Qed.

(** C8, as the code has it.  Take a freshly loaded document with no
    element of id [notification-styles], and any sequence of
    [Notification.show] calls, interleaved in any way with their dismissal
    timers, whose messages contain no element with that id.  Then at most
    one element with that id, hence at most one such style element, is in
    the document at every point, and the children of the head are those
    of the loaded document followed, once a notification was shown, by
    the one stylesheet: the first call injects it and every later call
    finds the marker and skips the injection. *)
Theorem stylesheet_injected_once (page0 : document) (events : list event) :
  count_doc is_marker (loaded page0) = O ->
  Forall (fun e => count_forest is_marker (message_of e) = O) events ->
  let d := run events (loaded page0) in
  (count_doc is_marker d <= 1)%nat /\
  (count_doc is_marker_style d <= 1)%nat /\
  head_kids d =
    head_kids (loaded page0) ++
    (if existsb is_notify events then [Utils.Notification.styles_node] else []).
Proof.
  intros H0 Hmsgs d.
  assert (Hst : stylesheet_state (loaded page0) d (existsb is_notify events)).
  { apply (stylesheet_state_run (loaded page0) events (loaded page0) false);
      try done.
    - apply parsed_toast_free.
    - repeat split; try done. + by rewrite app_nil_r.
      + unfold count_doc in H0. rewrite !count_node_Elem in H0. lia. }
  pose proof (stylesheet_state_count _ _ _ H0 Hst) as Hcount.
  assert (Hle : (count_doc is_marker d <= 1)%nat)
    by (rewrite Hcount; destruct (existsb is_notify events); lia).
  split; [done |]. split; [| by destruct Hst as (_ & _ & ? & _)].
  assert (Hmono : (count_doc is_marker_style d <= count_doc is_marker d)%nat); [| lia].
  unfold count_doc. rewrite !count_node_Elem.
  assert (Himp : forall a, is_marker_style a = true -> is_marker a = true)
    by (by intros a [? _]%andb_true_iff).
  pose proof (count_forest_mono _ _ (head_kids d) Himp).
  pose proof (count_forest_mono _ _ (body_kids d) Himp).
  pose proof (Himp (head d)). pose proof (Himp (body d)).
  destruct (is_marker_style (head d)), (is_marker (head d)),
    (is_marker_style (body d)), (is_marker (body d)); try lia;
    exfalso; auto using diff_true_false, eq_sym.
Qed.

Lemma stylesheet_injected_once_witness :
  count_doc is_marker (loaded page) = O /\
  Forall (fun e => count_forest is_marker (message_of e) = O) three_toasts /\
  let d := run three_toasts (loaded page) in
  (count_doc is_marker d <= 1)%nat /\
  (count_doc is_marker_style d <= 1)%nat /\
  head_kids d = [Utils.Notification.styles_node].
Proof.
  assert (H0 : count_doc is_marker (loaded page) = O) by reflexivity.
  assert (Hmsgs : Forall (fun e => count_forest is_marker (message_of e) = O) three_toasts)
    by (repeat constructor).
  split; [exact H0 |]. split; [exact Hmsgs |].
  exact (stylesheet_injected_once page three_toasts H0 Hmsgs).
Defined.

(** C8 as stated fails: a message whose markup holds a style element with
    the marker id puts a second one into the document, on a loaded page
    that had none. *)
Lemma stylesheet_marker_in_message :
  count_doc is_marker (loaded plain_page) = O /\
  count_doc is_marker_style
    (run [Notify smuggled "info" 3000] (loaded plain_page)) = 2%nat /\
  ~ (count_doc is_marker_style
       (run [Notify smuggled "info" 3000] (loaded plain_page)) <= 1)%nat.
Proof. repeat split; try (vm_compute; reflexivity). vm_compute. lia. Qed.

End DomFacts.

(* ===================================================================== *)
(** * More about the validators                                           *)
(* ===================================================================== *)

Module ValidatorFacts.
Import JS Spec Examples Behaviour Cases JSFacts FormFacts.

#[local] Arguments String.append !_ _ : simpl nomatch.

(** ** Trimming *)

Lemma ltrim_blank (s : string) :
  ltrim s = EmptyString <-> all_chars is_space s = true.
Proof.
  induction s as [|c s IH]; simpl; [done |].
  destruct (is_space c); simpl; [done |]. split; discriminate.
Qed.

Lemma ltrim_first (s : string) (c : ascii) (t : string) :
  ltrim s = String c t -> is_space c = false.
Proof.
  induction s as [|c' s IH]; simpl; [done |].
  destruct (is_space c') eqn:Hc; [done |]. by intros [= <- _].
Qed.

Lemma rtrim_blank (s : string) :
  rtrim s = EmptyString <-> all_chars is_space s = true.
Proof.
  induction s as [|c s IH]; simpl; [done |].
  destruct (rtrim s) as [|c' t].
  - destruct (is_space c); simpl.
    + split; [intros _; by apply IH | done].
    + split; discriminate.
  - split; [discriminate |]. intros [_ H]%andb_true_iff. apply IH in H. discriminate.
Qed.

Lemma trim_blank (s : string) :
  String.eqb (trim s) EmptyString = all_chars is_space s.
Proof.
  apply eq_true_iff_eq. rewrite String.eqb_eq. unfold trim.
  rewrite rtrim_blank. split.
  - intros H. apply ltrim_blank. destruct (ltrim s) as [|c t] eqn:Hl; [done |].
    apply ltrim_first in Hl. simpl in H. by rewrite Hl in H.
  - intros H. apply ltrim_blank in H. by rewrite H.
Qed.

Lemma truthy_blank_string (s : string) :
  all_chars is_space s = false -> truthy (VStr s) = true.
Proof. by destruct s. Qed.

Lemma pretty_Z_not_blank (n : Z) : all_chars is_space (pretty n) = false.
Proof.
  assert (HN : forall m : N, all_chars is_space (pretty m) = false).
  { intros m. unfold pretty, pretty_N. case_decide; [done |].
    assert (Hgo : forall x s, all_chars is_space s = false ->
                              all_chars is_space (pretty_N_go x s) = false).
    { intros x. induction (N.lt_wf_0 x) as [x _ IH]. intros s Hs.
      destruct (decide (0 < x)%N) as [Hx|Hx].
      - rewrite pretty_N_go_step by done. apply IH.
        + by apply N.div_lt.
        + simpl. assert (is_space (pretty_N_char (x `mod` 10)) = false) as ->; [| done].
          unfold pretty_N_char. by repeat case_match.
      - assert (x = 0%N) as -> by lia. by rewrite pretty_N_go_0. }
    destruct (decide (0 < m)%N) as [Hm|Hm]; [| lia].
    rewrite pretty_N_go_step by done. apply Hgo. simpl.
    assert (is_space (pretty_N_char (m `mod` 10)) = false) as ->; [| done].
    unfold pretty_N_char. by repeat case_match. }
  destruct n as [|p|p]; [done | apply (HN (N.pos p)) |].
  unfold pretty, pretty_Z. done.
Qed.

(** ** [required] *)

(** X1.  On a value that is [undefined], [null], a boolean, an integer
    or a string, the bare rule [required] of [src/utils.js] does not throw,
    and it flags the value exactly when the value has nothing in it:
    [undefined], [null], [false], [0], and a string that is empty or all
    white space.  The other such values pass, [true] and the integers
    other than 0 included. *)
Theorem required_flags_blank (field : string) (value : jsval) :
  Utils.check field value (RuleVal (VStr "required")) =
  Normal (if blank value then Some (VStr (field +:+ " is required")) else None).
Proof.
  unfold Utils.check, call_member. simpl own. unfold Utils.required. simpl.
  destruct value as [| |b|n|s]; simpl; try done.
  - by destruct b.
  - destruct (n =? 0) eqn:Hn; simpl; [by rewrite Hn |].
    by rewrite trim_blank, pretty_Z_not_blank.
  - rewrite trim_blank. destruct s as [|c s]; [done |]. simpl.
    by destruct (is_space c && all_chars is_space s).
Qed.

(** X2.  On a value that is [undefined], [null], a boolean, an integer
    or a string, the [required] of [src/js/utils.js] answers with its
    message for [undefined], [null], [false], [0] and blank strings, with
    [null] for a string that has a character other than white space, and
    raises a TypeError for [true] and for an integer other than 0, which
    are truthy and have no [trim] method. *)
Theorem js_required_outcome (value : jsval) :
  JsUtils.required value =
  match value with
  | VStr s => Normal (if all_chars is_space s then VStr "This field is required"
                      else VNull)
  | VBool true => Throw TypeError
  | VNum n => if n =? 0 then Normal (VStr "This field is required")
              else Throw TypeError
  | _ => Normal (VStr "This field is required")
  end.
Proof.
  unfold JsUtils.required. destruct value as [| |[|]|n|s]; simpl; try done.
  - by destruct (n =? 0).
  - rewrite trim_blank. destruct s as [|c s]; [done |]. simpl.
    by destruct (is_space c && all_chars is_space s).
Qed.

(** ** [email] *)

#[local] Arguments is_char : simpl never.
#[local] Arguments not_space_at : simpl never.

Lemma append_assoc (s1 s2 s3 : string) :
  (s1 +:+ s2) +:+ s3 = s1 +:+ (s2 +:+ s3).
Proof. induction s1 as [|c s1 IH]; simpl; [done | by rewrite IH]. Qed.

Lemma matches_Cat_assoc (a b r : regex) (s : string) :
  matches (Cat (Cat a b) r) s = matches (Cat a (Cat b r)) s.
Proof.
  apply eq_true_iff_eq. rewrite !matches_Matches. split; intros H.
  - inversion H as [| | ? ? s12 s3 H12 H3 | | | |]; subst.
    inversion H12 as [| | ? ? s1 s2 H1 H2 | | | |]; subst.
    rewrite append_assoc. constructor; [done |]. by constructor.
  - inversion H as [| | ? ? s1 s23 H1 H23 | | | |]; subst.
    inversion H23 as [| | ? ? s2 s3 H2 H3 | | | |]; subst.
    rewrite <- append_assoc. constructor; [| done]. by constructor.
Qed.

Lemma matches_Star_Class (cls : ascii -> bool) (s : string) :
  matches (Star (Class cls)) s = all_chars cls s.
Proof.
  induction s as [|c s IH]; [done |]. simpl.
  destruct (cls c); simpl; [by rewrite matches_Cat_Eps | apply matches_Cat_Void].
Qed.

Lemma matches_Plus_Class (cls : ascii -> bool) (s : string) :
  matches (Plus (Class cls)) s =
  negb (String.eqb s EmptyString) && all_chars cls s.
Proof.
  unfold Plus. rewrite matches_Cat_Class. destruct s as [|c s]; [done |].
  by rewrite matches_Star_Class.
Qed.

Lemma matches_Cat_Star_Class (cls : ascii -> bool) (r : regex) (s : string) :
  matches (Cat (Star (Class cls)) r) s =
  matches r s ||
  match s with
  | String c s' => cls c && matches (Cat (Star (Class cls)) r) s'
  | EmptyString => false
  end.
Proof.
  destruct s as [|c s]; simpl; [by rewrite orb_false_r |].
  rewrite matches_Alt, matches_Cat_assoc, orb_comm. f_equal.
  destruct (cls c); simpl; [apply matches_Cat_Eps | apply matches_Cat_Void].
Qed.

Lemma matches_Cat_Plus_Class (cls : ascii -> bool) (r : regex) (s : string) :
  matches (Cat (Plus (Class cls)) r) s =
  match s with
  | String c s' => cls c && matches (Cat (Star (Class cls)) r) s'
  | EmptyString => false
  end.
Proof. unfold Plus. by rewrite matches_Cat_assoc, matches_Cat_Class. Qed.

Lemma dot_not_space_at (c : ascii) : is_char "." c = true -> not_space_at c = true.
Proof. unfold is_char. intros <-%Ascii.eqb_eq. reflexivity. Qed.

Lemma at_not_space_at (c : ascii) : is_char "@" c = true -> not_space_at c = false.
Proof. unfold is_char. intros <-%Ascii.eqb_eq. reflexivity. Qed.

(** The domain part: characters of the class with a dot inside. *)
Lemma matches_domain_tail (s : string) :
  matches (Cat (Star (Class not_space_at))
             (Cat (Class (is_char ".")) (Plus (Class not_space_at)))) s =
  all_chars not_space_at s && dot_then_more s.
Proof.
  induction s as [|c s IH]; [done |].
  rewrite matches_Cat_Star_Class, matches_Cat_Class, matches_Plus_Class, IH.
  simpl. pose proof (dot_not_space_at c) as Hdot.
  destruct (is_char "." c); [rewrite Hdot by done |];
    destruct (not_space_at c), (String.eqb s EmptyString),
      (all_chars not_space_at s), (dot_then_more s); done.
Qed.

(** The part from the second character on: the rest of the local part,
    the [@] and the domain. *)
Lemma matches_after_first (s : string) :
  matches (Cat (Star (Class not_space_at))
             (Cat (Class (is_char "@"))
                (Cat (Plus (Class not_space_at))
                   (Cat (Class (is_char ".")) (Plus (Class not_space_at)))))) s =
  match split_at s with
  | Some (loc, domain) =>
      all_chars not_space_at loc && all_chars not_space_at domain && inner_dot domain
  | None => false
  end.
Proof.
  induction s as [|c s IH]; [done |].
  rewrite matches_Cat_Star_Class, matches_Cat_Class, IH. simpl split_at.
  pose proof (at_not_space_at c) as Hat.
  destruct (is_char "@" c).
  - rewrite Hat by done. simpl. rewrite orb_false_r, matches_Cat_Plus_Class.
    destruct s as [|c' s']; [done |]. rewrite matches_domain_tail. simpl.
    by rewrite andb_assoc.
  - simpl. destruct (split_at s) as [[loc domain]|]; simpl.
    + by rewrite !andb_assoc.
    + by rewrite andb_false_r.
Qed.

(** The e-mail pattern accepts exactly the strings of [email_shape]. *)
Lemma emailRegex_shape (s : string) : matches emailRegex s = email_shape s.
Proof.
  unfold emailRegex, email_shape. rewrite matches_Cat_Plus_Class.
  destruct s as [|c s]; [done |]. rewrite matches_after_first. simpl split_at.
  pose proof (at_not_space_at c) as Hat.
  destruct (is_char "@" c).
  - rewrite Hat by done. done.
  - destruct (split_at s) as [[loc domain]|]; simpl.
    + by rewrite !andb_assoc.
    + by rewrite andb_false_r.
Qed.

(** X3.  In both files [email] accepts exactly the values whose string
    form has no white space, exactly one [@] with something before it, and
    after it a domain with a dot that is neither its first nor its last
    character.  A value that is not a string is converted first, so
    [undefined] and [null] are rejected, not raised on. *)
Theorem email_accepts_exactly (value : jsval) :
  Utils.email value = Normal (Val (VBool (email_shape (ToString value)))) /\
  JsUtils.email value =
    Normal (if email_shape (ToString value) then VNull
            else VStr "Please enter a valid email address").
Proof.
  unfold Utils.email, JsUtils.email, test. by rewrite emailRegex_shape.
Qed.

(** X16.  In both files [phone] raises a TypeError for every value that is
    not a string; on a string it accepts exactly those that have the shape
    of a phone number once the characters of the file's class are deleted
    (white space in [src/js/utils.js]; white space, dashes and dollar
    signs in [src/utils.js]). *)
Theorem phone_accepts_exactly (value : jsval) :
  Utils.phone value =
    match value with
    | VStr s => Normal (Val (VBool (phone_shape (remove_all Utils.phone_noise s))))
    | _ => Throw TypeError
    end /\
  JsUtils.phone value =
    match value with
    | VStr s => Normal (if phone_shape (remove_all is_space s) then VNull
                        else VStr "Please enter a valid phone number")
    | _ => Throw TypeError
    end.
Proof.
  destruct value as [| |b|n|s]; try done.
  by rewrite utils_phone_accepts, js_phone_accepts.
Qed.

(** ** [minLength] and [maxLength] *)

(** X4.  On a value that is [undefined], [null], a boolean, an integer
    or a string: an object-shaped rule that names [minLength] with an
    integer bound [n] passes exactly the non-empty strings of at least [n]
    code units (the empty string fails even for a bound of 0, and so do
    the values that are not strings); one that names [maxLength] passes
    [undefined], [null], [false], [0], the empty string and the strings of
    at most [n] code units, and fails [true] and the other integers.  A
    failure records the rule's message, or ["<field> validation failed"]
    when it has none. *)
Theorem length_rules (field : string) (value : jsval) (o : obj jsval) (n : Z) :
  first_enumerated o = VNum n ->
  (get o "validator" = VStr "minLength" ->
   Utils.check field value (RuleObj o) =
   Normal (if min_ok n value then None
           else Some (or_else (get o "message")
                        (VStr (field +:+ " validation failed"))))) /\
  (get o "validator" = VStr "maxLength" ->
   Utils.check field value (RuleObj o) =
   Normal (if max_ok n value then None
           else Some (or_else (get o "message")
                        (VStr (field +:+ " validation failed"))))).
Proof.
  unfold first_enumerated. intros Hn.
  split; intros Hv; unfold Utils.check; rewrite Hv, Hn; simpl.
  - destruct value as [| |[|]|m|s]; simpl; try done.
    + destruct (m =? 0) eqn:Hm; simpl; by rewrite ?Hm.
    + destruct s as [|c s]; [done |]. simpl.
      by destruct (n <=? str_length (String c s)).
  - unfold max_ok. by destruct value as [| |[|]|m|s].
Qed.

Lemma length_rules_witness :
  first_enumerated at_least_8 = VNum 8 /\
  get at_least_8 "validator" = VStr "minLength" /\
  Utils.check "password" (VStr "secret") (RuleObj at_least_8) =
    Normal (Some (VStr "Use 8 characters or more")) /\
  first_enumerated at_most_3 = VNum 3 /\
  get at_most_3 "validator" = VStr "maxLength" /\
  Utils.check "initials" (VStr "ABCD") (RuleObj at_most_3) =
    Normal (Some (VStr "initials validation failed")).
Proof.
  split; [reflexivity |]. split; [reflexivity |]. split.
  - exact (proj1 (length_rules "password" (VStr "secret") at_least_8 8 eq_refl) eq_refl).
  - split; [reflexivity |]. split; [reflexivity |].
    exact (proj2 (length_rules "initials" (VStr "ABCD") at_most_3 3 eq_refl) eq_refl).
Defined.

(** X5.  In [src/utils.js] the shape of a rule has to fit the kind of
    validator it names, and nothing checks that it does.  A bare string
    that names [minLength] or [maxLength] passes every value: the call
    returns the function that waits for the value, which is truthy.  An
    object-shaped rule that names [required], [email] or [phone] raises a
    TypeError for every value and every parameter: what the validator
    returns is not a function. *)
Theorem rule_shape_has_to_fit (field : string) (value : jsval) :
  Utils.check field value (RuleVal (VStr "minLength")) = Normal None /\
  Utils.check field value (RuleVal (VStr "maxLength")) = Normal None /\
  forall o,
    get o "validator" ∈ [VStr "required"; VStr "email"; VStr "phone"] ->
    Utils.check field value (RuleObj o) = Throw TypeError.
Proof.
  split; [done |]. split; [done |]. intros o Hv. unfold Utils.check.
  destruct (first (values (rest ["validator"; "message"] o))) as [| |b|m|s] eqn:Hp;
    repeat (apply elem_of_cons in Hv as [-> | Hv]); try (by apply elem_of_nil in Hv);
    by simpl.
Qed.

Lemma rule_shape_has_to_fit_witness :
  Utils.check "name" (VStr EmptyString) (RuleVal (VStr "minLength")) = Normal None /\
  get [("validator", VStr "required")] "validator"
    ∈ [VStr "required"; VStr "email"; VStr "phone"] /\
  Utils.check "name" (VStr "Ann") (RuleObj [("validator", VStr "required")]) =
    Throw TypeError.
Proof.
  assert (Hin : get [("validator", VStr "required")] "validator"
                  ∈ [VStr "required"; VStr "email"; VStr "phone"])
    by apply list_elem_of_here.
  split; [exact (proj1 (rule_shape_has_to_fit "name" (VStr EmptyString))) |].
  split; [exact Hin |].
  exact (proj2 (proj2 (rule_shape_has_to_fit "name" (VStr "Ann"))) _ Hin).
Defined.

(** ** The two files side by side *)

(** X6.  On values (and bounds) that are [undefined], [null], booleans,
    integers or strings, the two files flag the same values.  [email] as a
    bare rule of [src/utils.js] and the [email] function of
    [src/js/utils.js] flag the same values, and neither throws; so do an
    object-shaped [minLength] rule and [minLength(min)], for every such
    bound.  [required] differs, among these values, on [true] and on the
    integers other than 0 only: [src/utils.js] lets them pass and
    [src/js/utils.js] raises a TypeError. *)
Theorem files_flag_the_same_values (field : string) (value : jsval) :
  flags (JsUtils.check field value (RuleFun JsUtils.email)) =
    flags (Utils.check field value (RuleVal (VStr "email"))) /\
  (forall o min,
     get o "validator" = VStr "minLength" -> first_enumerated o = min ->
     flags (JsUtils.check field value (RuleFun (JsUtils.minLength min))) =
       flags (Utils.check field value (RuleObj o))) /\
  flags (JsUtils.check field value (RuleFun JsUtils.required)) =
    match value with
    | VBool true => None
    | VNum n => if n =? 0 then Some true else None
    | _ => flags (Utils.check field value (RuleVal (VStr "required")))
    end /\
  (truthy value = true ->
   flags (Utils.check field value (RuleVal (VStr "required"))) =
     match value with VStr s => Some (all_chars is_space s) | _ => Some false end).
Proof.
  split; [| split; [| split]].
  - unfold JsUtils.check, Utils.check, call_member. simpl own.
    unfold JsUtils.email, Utils.email. simpl. by destruct (test emailRegex value).
  - unfold first_enumerated. intros o min Hv Hmin.
    unfold JsUtils.check, Utils.check, JsUtils.minLength. rewrite Hv, Hmin. simpl.
    destruct (truthy value) eqn:Ht; simpl.
    + by destruct (num_ge (length_of value) min).
    + by rewrite Ht.
  - unfold JsUtils.check, Utils.check, call_member. simpl own.
    unfold JsUtils.required, Utils.required. simpl.
    destruct value as [| |[|]|n|s]; simpl; try done.
    + by destruct (n =? 0).
    + rewrite !trim_blank. destruct s as [|c s]; [done |]. simpl.
      by destruct (is_space c && all_chars is_space s).
  - intros Ht. unfold Utils.check, call_member. simpl own.
    unfold Utils.required. simpl. rewrite Ht. simpl.
    destruct value as [| |[|]|n|s]; simpl in *; try done.
    + by rewrite trim_blank, pretty_Z_not_blank.
    + rewrite trim_blank. by destruct (all_chars is_space s).
Qed.

Lemma files_flag_the_same_values_witness :
  get at_least_8 "validator" = VStr "minLength" /\
  first_enumerated at_least_8 = VNum 8 /\
  flags (JsUtils.check "password" (VStr "secret") (RuleFun (JsUtils.minLength (VNum 8)))) =
    flags (Utils.check "password" (VStr "secret") (RuleObj at_least_8)) /\
  truthy (VNum 7) = true /\
  flags (Utils.check "age" (VNum 7) (RuleVal (VStr "required"))) = Some false /\
  flags (JsUtils.check "age" (VNum 7) (RuleFun JsUtils.required)) = None.
Proof.
  split; [reflexivity |]. split; [reflexivity |]. split.
  - exact (proj1 (proj2 (files_flag_the_same_values "password" (VStr "secret")))
             at_least_8 (VNum 8) eq_refl eq_refl).
  - split; [reflexivity |]. split.
    + exact (proj2 (proj2 (proj2 (files_flag_the_same_values "age" (VNum 7)))) eq_refl).
    + exact (proj1 (proj2 (proj2 (files_flag_the_same_values "age" (VNum 7))))).
Defined.

(** ** [validateForm] as a whole *)

Lemma utils_validateForm_errors formData rules res :
  Utils.validateForm formData rules = Normal res <->
  exists errs vis,
    each_field Utils.check formData (entries rules) ∅ [] = Normal (errs, vis) /\
    res = {| Utils.isValid := bool_decide (size errs = 0%nat); Utils.errors := errs |}.
Proof.
  unfold Utils.validateForm, Utils.validateForm_visiting.
  destruct (each_field Utils.check formData (entries rules) ∅ [])
    as [[errs vis]|err]; simpl.
  - split.
    + intros [= <-]. by exists errs, vis.
    + by intros (errs' & vis' & [= <- <-] & ->).
  - split; [done |]. by intros (? & ? & ? & _).
Qed.

Lemma js_validateForm_errors formData rules errs :
  JsUtils.validateForm formData rules = Normal errs <->
  exists vis, each_field JsUtils.check formData (entries rules) ∅ [] = Normal (errs, vis).
Proof.
  unfold JsUtils.validateForm, JsUtils.validateForm_visiting.
  destruct (each_field JsUtils.check formData (entries rules) ∅ [])
    as [[errs' vis]|err]; simpl.
  - split.
    + intros [= <-]. by exists vis.
    + by intros (vis' & [= <- <-]).
  - split; [done |]. by intros (? & ?).
Qed.

Section Order.
Variable chk : string -> jsval -> rule -> completion (option jsval).

(** The loop over the fields returns exactly when the loop over the rules
    of every field does. *)
Lemma each_field_Normal formData fields errs vis :
  (exists out, each_field chk formData fields errs vis = Normal out) <->
  Forall (fun p => exists out,
            first_error chk p.1 (field_value formData p.1) p.2 = Normal out) fields.
Proof.
  revert errs vis. induction fields as [|[f rs] more IH]; intros errs vis; simpl.
  - split; [constructor | by eexists].
  - rewrite Forall_cons. simpl.
    destruct (first_error chk f (field_value formData f) rs) as [[e seen]|err];
      simpl.
    + rewrite IH. split; [by split; [eexists |] | by intros [_ ?]].
    + split; [by intros [? ?] | by intros [[? ?] _]].
Qed.

(** What the loop records for a field depends on the field's rules and
    value only. *)
Lemma each_field_lookup formData fields errs vis field :
  NoDup fields.*1 ->
  each_field chk formData fields ∅ [] = Normal (errs, vis) ->
  errs !! field =
  match list_find (fun p => p.1 = field) fields with
  | Some (_, (_, rs)) =>
      match first_error chk field (field_value formData field) rs with
      | Normal (Some msg, _) =>
          if bool_decide (field <> "__proto__") then Some msg else None
      | _ => None
      end
  | None => None
  end.
Proof.
  intros Hnd Hrun.
  destruct (list_find (fun p => p.1 = field) fields) as [[i [f rs]]|] eqn:Hfind.
  - apply list_find_Some in Hfind as (Hi & Hf & _). simpl in Hf. subst f.
    apply list_elem_of_lookup_2 in Hi.
    destruct (each_field_inv chk _ _ _ _ _ _ Hrun Hnd) as (_ & _ & _ & Hin).
    destruct (Hin _ _ Hi) as (e & seen & -> & _ & ->).
    rewrite lookup_empty. by destruct e.
  - apply list_find_None in Hfind.
    rewrite (each_field_other chk _ _ _ _ _ _ field Hrun); [apply lookup_empty |].
    intros ((f & rs) & -> & Hmem)%list_elem_of_fmap.
    rewrite Forall_forall in Hfind. by apply (Hfind _ Hmem).
Qed.

Lemma list_find_key_perm (fields fields' : list (string * list rule)) field :
  fields ≡ₚ fields' -> NoDup fields.*1 ->
  (fun r => r.2.2) <$> list_find (fun p => p.1 = field) fields =
  (fun r => r.2.2) <$> list_find (fun p => p.1 = field) fields'.
Proof.
  intros Hperm Hnd.
  assert (Hnd' : NoDup fields'.*1) by (by rewrite <- Hperm).
  assert (Hkey : forall (l : list (string * list rule)) rs,
            NoDup l.*1 -> (field, rs) ∈ l ->
            (fun r => r.2.2) <$> list_find (fun p => p.1 = field) l = Some rs).
  { intros l rs Hl Hmem.
    destruct (list_find (fun p => p.1 = field) l) as [[i [f rs']]|] eqn:Hfind.
    - apply list_find_Some in Hfind as (Hi & Hf & _). simpl in Hf. subst f.
      apply list_elem_of_lookup_2 in Hi. simpl. f_equal.
      apply list_elem_of_lookup in Hi as [j Hj], Hmem as [k Hk].
      assert (j = k).
      { apply (NoDup_lookup l.*1 j k field); [done | |];
          rewrite list_lookup_fmap; [by rewrite Hj | by rewrite Hk]. }
      subst k. congruence.
    - apply list_find_None in Hfind. rewrite Forall_forall in Hfind.
      by destruct (Hfind _ Hmem). }
  destruct (list_find (fun p => p.1 = field) fields) as [[i [f rs]]|] eqn:Hfind.
  - apply list_find_Some in Hfind as (Hi & Hf & _). simpl in Hf. subst f.
    apply list_elem_of_lookup_2 in Hi. simpl. symmetry. apply Hkey; [done |].
    by rewrite <- Hperm.
  - destruct (list_find (fun p => p.1 = field) fields') as [[i [f rs]]|] eqn:Hfind';
      [| done].
    apply list_find_Some in Hfind' as (Hi & Hf & _). simpl in Hf. subst f.
    apply list_elem_of_lookup_2 in Hi. rewrite <- Hperm in Hi.
    apply list_find_None in Hfind. rewrite Forall_forall in Hfind.
    by destruct (Hfind _ Hi).
Qed.

Lemma each_field_perm formData (rules rules' : obj (list rule)) :
  rules ≡ₚ rules' -> NoDup (own_keys rules) ->
  ((exists out, each_field chk formData (entries rules) ∅ [] = Normal out) <->
   (exists out, each_field chk formData (entries rules') ∅ [] = Normal out)) /\
  (forall errs vis errs' vis',
     each_field chk formData (entries rules) ∅ [] = Normal (errs, vis) ->
     each_field chk formData (entries rules') ∅ [] = Normal (errs', vis') ->
     errs = errs').
Proof.
  intros Hperm Hnd.
  assert (Hent : entries rules ≡ₚ entries rules') by (by rewrite !entries_perm).
  assert (Hnd1 : NoDup (entries rules).*1) by (by apply NoDup_entries_keys).
  assert (Hnd2 : NoDup (entries rules').*1) by (by rewrite <- Hent).
  split.
  - rewrite !each_field_Normal. by rewrite Hent.
  - intros errs vis errs' vis' Hrun Hrun'. apply map_eq. intros field.
    rewrite (each_field_lookup _ _ _ _ field Hnd1 Hrun).
    rewrite (each_field_lookup _ _ _ _ field Hnd2 Hrun').
    pose proof (list_find_key_perm _ _ field Hent Hnd1) as Hfind.
    destruct (list_find (fun p => p.1 = field) (entries rules)) as [[i [f rs]]|];
      destruct (list_find (fun p => p.1 = field) (entries rules')) as [[i' [f' rs']]|];
      simpl in Hfind; try done.
    by injection Hfind as ->.
Qed.
End Order.

(** X7.  The order in which the fields are written in the rule
    specification does not matter: for two specifications with the same
    fields and rules in different orders, [validateForm] returns for one
    exactly when it returns for the other, and returns the same result.
    This holds of both files. *)
Theorem validateForm_field_order (formData : gmap string jsval)
    (rules rules' : obj (list rule)) :
  rules ≡ₚ rules' -> NoDup (own_keys rules) ->
  ((exists res, Utils.validateForm formData rules = Normal res) <->
   (exists res, Utils.validateForm formData rules' = Normal res)) /\
  (forall res res',
     Utils.validateForm formData rules = Normal res ->
     Utils.validateForm formData rules' = Normal res' -> res = res') /\
  ((exists errs, JsUtils.validateForm formData rules = Normal errs) <->
   (exists errs, JsUtils.validateForm formData rules' = Normal errs)) /\
  (forall errs errs',
     JsUtils.validateForm formData rules = Normal errs ->
     JsUtils.validateForm formData rules' = Normal errs' -> errs = errs').
Proof.
  intros Hperm Hnd.
  destruct (each_field_perm Utils.check formData rules rules' Hperm Hnd) as [Hu1 Hu2].
  destruct (each_field_perm JsUtils.check formData rules rules' Hperm Hnd) as [Hj1 Hj2].
  split; [| split; [| split]].
  - split; intros [res Hres]; apply utils_validateForm_errors in Hres
      as (errs & vis & Hrun & _).
    + destruct (proj1 Hu1 (ex_intro _ _ Hrun)) as [[errs' vis'] Hrun'].
      eexists. apply utils_validateForm_errors. by exists errs', vis'.
    + destruct (proj2 Hu1 (ex_intro _ _ Hrun)) as [[errs' vis'] Hrun'].
      eexists. apply utils_validateForm_errors. by exists errs', vis'.
  - intros res res' Hres Hres'.
    apply utils_validateForm_errors in Hres as (errs & vis & Hrun & ->).
    apply utils_validateForm_errors in Hres' as (errs' & vis' & Hrun' & ->).
    by rewrite (Hu2 _ _ _ _ Hrun Hrun').
  - split; intros [errs Hres]; apply js_validateForm_errors in Hres as (vis & Hrun).
    + destruct (proj1 Hj1 (ex_intro _ _ Hrun)) as [[errs' vis'] Hrun'].
      exists errs'. apply js_validateForm_errors. by exists vis'.
    + destruct (proj2 Hj1 (ex_intro _ _ Hrun)) as [[errs' vis'] Hrun'].
      exists errs'. apply js_validateForm_errors. by exists vis'.
  - intros errs errs' Hres Hres'.
    apply js_validateForm_errors in Hres as (vis & Hrun).
    apply js_validateForm_errors in Hres' as (vis' & Hrun').
    exact (Hj2 _ _ _ _ Hrun Hrun').
Qed.

Lemma validateForm_field_order_witness :
  signup_rules ≡ₚ signup_rules_reordered /\
  NoDup (own_keys signup_rules) /\
  exists res,
    Utils.validateForm signup_form signup_rules = Normal res /\
    Utils.validateForm signup_form signup_rules_reordered = Normal res.
Proof.
  assert (Hperm : signup_rules ≡ₚ signup_rules_reordered).
  { symmetry. exact (Permutation_cons_append [_; _] _). }
  assert (Hnd : NoDup (own_keys signup_rules))
    by (apply (bool_decide_unpack _); vm_compute; exact I).
  split; [exact Hperm |]. split; [exact Hnd |].
  destruct (validateForm_field_order signup_form _ _ Hperm Hnd) as (Hret & Hsame & _).
  destruct (proj1 Hret (ex_intro _ _ eq_refl)) as [res' Hres'].
  eexists. split; [reflexivity |].
  rewrite Hres'. f_equal. symmetry. exact (Hsame _ _ eq_refl Hres').
Defined.



End ValidatorFacts.

(* ===================================================================== *)
(** * Further facts about the API clients                                 *)
(* ===================================================================== *)

Module ClientFacts.
Import JS Net Examples Cases.

Section Transport.
Variable fetch : string -> options -> completion response.
Variable JSON_stringify : json -> string.

(** The outcome of one attempt, as [request] computes it in both files. *)
Lemma attempt_Normal (url : string) (config : options) (data : json) :
  (response ← fetch url config;
   if negb (ok response)
   then Throw (Error ("HTTP error! status: " +:+ ToString (VNum (status response))))
   else json_body response) = Normal data <->
  exists resp, fetch url config = Normal resp /\ ok resp = true /\
               json_body resp = Normal data.
Proof.
  destruct (fetch url config) as [resp|e]; simpl.
  - destruct (ok resp) eqn:Hok; simpl.
    + split; [by exists resp |]. by intros (? & [= <-] & _ & ?).
    + split; [done |]. intros (? & [= <-] & ? & _). congruence.
  - split; [done |]. by intros (? & ? & _).
Qed.


(** The body [request] of [src/utils.js] hands to the transport. *)
Lemma prepare_body this endpoint o :
  Net.body (Utils.ApiClient.prepare JSON_stringify this endpoint o).2 =
  match Net.body o with
  | Some b =>
      if json_truthy b && json_is_object b
      then Some (JStr (JSON_stringify b)) else Some b
  | None => None
  end /\
  method (Utils.ApiClient.prepare JSON_stringify this endpoint o).2 = method o.
Proof.
  unfold Utils.ApiClient.prepare. simpl.
  destruct (Net.body o) as [b|] eqn:Hb; simpl; rewrite ?Hb; [| done].
  destruct (json_truthy b && json_is_object b); simpl; by rewrite ?Hb.
Qed.

(** X10.  [request] of [src/utils.js] never hands an object or an array
    to the transport as the body: it serializes those, and passes every
    other body ([null], a boolean, a number, a string) on as it is.  So
    for data that is an object or an array, [post] and [put] of the two
    files send the same request when their base URLs are the same; for a
    string, [src/utils.js] sends the string itself where
    [src/js/utils.js] sends its serialization. *)
Theorem body_serialized_when_object (endpoint : string) (data : json) (w : world)
    (this : Utils.ApiClient.ApiClient) (this' : JsUtils.APIClient.APIClient) :
  Utils.ApiClient.baseUrl this = JsUtils.APIClient.baseURL this' ->
  (forall o, match Net.body (Utils.ApiClient.prepare JSON_stringify this endpoint o).2 with
             | Some (JArr _) | Some (JObj _) => False
             | _ => True
             end) /\
  (json_truthy data && json_is_object data = true ->
   sent (Utils.ApiClient.post fetch JSON_stringify this endpoint data w).2 =
     sent (JsUtils.APIClient.post fetch JSON_stringify this' endpoint data w).2 /\
   sent (Utils.ApiClient.put fetch JSON_stringify this endpoint data w).2 =
     sent (JsUtils.APIClient.put fetch JSON_stringify this' endpoint data w).2) /\
  (json_truthy data && json_is_object data = false ->
   sent (Utils.ApiClient.post fetch JSON_stringify this endpoint data w).2 =
     sent w ++ [(Utils.ApiClient.baseUrl this +:+ endpoint,
                 {| method := Some "POST"; Net.body := Some data;
                    headers := Some Utils.ApiClient.default_headers |})] /\
   sent (JsUtils.APIClient.post fetch JSON_stringify this' endpoint data w).2 =
     sent w ++ [(Utils.ApiClient.baseUrl this +:+ endpoint,
                 {| method := Some "POST";
                    Net.body := Some (JStr (JSON_stringify data));
                    headers := Some Utils.ApiClient.default_headers |})]).
Proof.
  intros Hbase. split; [| split].
  - intros o. rewrite (proj1 (prepare_body this endpoint o)).
    destruct (Net.body o) as [b|]; [| done].
    destruct b as [|flag|n|s|items|props]; simpl;
      rewrite ?andb_false_r; done.
  - intros Hobj.
    unfold Utils.ApiClient.post, Utils.ApiClient.put, Utils.ApiClient.request,
      JsUtils.APIClient.post, JsUtils.APIClient.put, JsUtils.APIClient.request,
      Utils.ApiClient.prepare, JsUtils.APIClient.prepare.
    simpl. rewrite Hobj, Hbase. simpl.
    split; by repeat case_match.
  - intros Hobj.
    unfold Utils.ApiClient.post, Utils.ApiClient.request,
      JsUtils.APIClient.post, JsUtils.APIClient.request,
      Utils.ApiClient.prepare, JsUtils.APIClient.prepare.
    simpl. rewrite Hobj, Hbase. unfold spread_options, spread_headers. simpl.
    rewrite !(left_id_L ∅ (∪)).
    split; by repeat case_match.
Qed.
End Transport.

Lemma body_serialized_when_object_witness :
  Utils.ApiClient.baseUrl crm = JsUtils.APIClient.baseURL crm_js /\
  json_truthy new_contact && json_is_object new_contact = true /\
  sent (Utils.ApiClient.post (mock_fetch 200 JNull) mock_stringify crm
          "/contacts" new_contact quiet).2 =
    sent (JsUtils.APIClient.post (mock_fetch 200 JNull) mock_stringify crm_js
            "/contacts" new_contact quiet).2 /\
  json_truthy (JStr "note") && json_is_object (JStr "note") = false /\
  sent (Utils.ApiClient.post (mock_fetch 200 JNull) mock_stringify crm
          "/notes" (JStr "note") quiet).2 =
    [("https://crm.example/api/notes",
      {| method := Some "POST"; Net.body := Some (JStr "note");
         headers := Some Utils.ApiClient.default_headers |})].
Proof.
  split; [reflexivity |]. split; [reflexivity |]. split.
  - exact (proj1 (proj1 (proj2 (body_serialized_when_object (mock_fetch 200 JNull)
             mock_stringify "/contacts" new_contact quiet crm crm_js eq_refl))
             eq_refl)).
  - split; [reflexivity |].
    exact (proj1 (proj2 (proj2 (body_serialized_when_object (mock_fetch 200 JNull)
             mock_stringify "/notes" (JStr "note") quiet crm crm_js eq_refl))
             eq_refl)).
Defined.

End ClientFacts.

(* ===================================================================== *)
(** * Further facts about the document helpers                            *)
(* ===================================================================== *)

Module DocFacts.
Import JS Dom Spec Examples Behaviour Cases DomFacts.

(** ** Writes to the element a lookup found *)

Lemma find_in_kids_split (find : node -> option (list nat)) i ks p :
  find_in_kids find i ks = Some p ->
  exists pre k post q,
    ks = pre ++ k :: post /\ Forall (fun k => find k = None) pre /\
    find k = Some q /\ p = (i + length pre)%nat :: q.
Proof.
  revert i. induction ks as [|k ks IH]; intros i; simpl; [done |].
  destruct (find k) as [q|] eqn:Hk.
  - intros [= <-]. exists [], k, ks, q. simpl. by rewrite Nat.add_0_r.
  - intros H. destruct (IH _ H) as (pre & k' & post & q & -> & Hpre & Hq & ->).
    exists (k :: pre), k', post, q. simpl. repeat split; [by constructor | done |].
    f_equal. lia.
Qed.

Lemma find_in_kids_found (find : node -> option (list nat)) i pre k post q :
  Forall (fun k => find k = None) pre -> find k = Some q ->
  find_in_kids find i (pre ++ k :: post) = Some ((i + length pre)%nat :: q).
Proof.
  intros Hpre Hk. revert i. induction Hpre as [|k0 pre Hk0 _ IH]; intros i; simpl.
  - by rewrite Hk, Nat.add_0_r.
  - rewrite Hk0, IH. do 2 f_equal. lia.
Qed.

(** A write to the element a lookup found, which does not change what the
    test sees of it, leaves it the first match: what it does to the
    children of the element comes after the element in document order. *)
Lemma find_node_alter_found (P : attrs -> bool) fa fk (n : node) (p : list nat) :
  (forall a, P (fa a) = P a) ->
  find_node P n = Some p ->
  find_node P (alter_node (on_elem fa fk) p n) = Some p.
Proof.
  intros HP. revert p.
  induction n as [data | a kids IH] using node_induction; intros p; simpl; [done |].
  destruct (P a) eqn:Ha.
  - intros [= <-]. simpl. by rewrite HP, Ha.
  - intros H. apply find_in_kids_split in H
      as (pre & k & post & q & -> & Hpre & Hq & ->).
    simpl. rewrite Ha.
    change (list_alter ?g (length pre) (pre ++ k :: post))
      with (alter g (length pre) (pre ++ k :: post)).
    rewrite <- (Nat.add_0_r (length pre)) at 1. rewrite alter_app_r. simpl.
    apply (find_in_kids_found _ O); [done |].
    apply Forall_app in IH as [_ IH]. apply Forall_cons in IH as [IH _].
    by apply IH.
Qed.

Lemma find_node_root (P : attrs -> bool) a kids :
  find_node P (Elem a kids) = Some [] -> P a = true.
Proof.
  simpl. destruct (P a); [done |].
  intros H. by apply find_in_kids_split in H as (? & ? & ? & ? & _ & _ & _ & ?).
Qed.

Lemma find_first_edit_at_found (P : attrs -> bool) fa fk (pl : place) (d : document) :
  (forall a, P (fa a) = P a) ->
  find_first P d = Some pl ->
  find_first P (edit_at pl fa fk d) = Some pl.
Proof.
  intros HP. unfold find_first.
  destruct (find_node P (Elem (head d) (head_kids d))) as [p|] eqn:Hh.
  - intros [= <-].
    pose proof (find_node_alter_found P fa fk _ _ HP Hh) as Hh'.
    destruct p as [|i p]; unfold edit_at, set_head;
      cbn [head head_kids body body_kids].
    + apply find_node_root in Hh. simpl. by rewrite HP, Hh.
    + simpl in Hh'. simpl. by rewrite Hh'.
  - destruct (find_node P (Elem (body d) (body_kids d))) as [p|] eqn:Hb; [| done].
    intros [= <-].
    pose proof (find_node_alter_found P fa fk _ _ HP Hb) as Hb'.
    destruct p as [|i p]; unfold edit_at, set_body;
      cbn [head head_kids body body_kids]; rewrite Hh.
    + apply find_node_root in Hb. simpl. by rewrite HP, Hb.
    + simpl in Hb'. simpl. by rewrite Hb'.
Qed.

(** A write that changes nothing of the element leaves the document as it
    is. *)
Lemma alter_node_same (f : node -> node) (p : list nat) (n m : node) :
  node_at p n = Some m -> f m = m -> alter_node f p n = n.
Proof.
  revert n. induction p as [|i p IH]; intros n; simpl.
  - by intros [= ->].
  - destruct n as [a kids | data]; [| done].
    destruct (kids !! i) as [k|] eqn:Hk; simpl; [| done].
    intros Hat Hm. f_equal.
    apply list_eq. intros j. destruct (decide (i = j)) as [<-|Hne].
    + rewrite list_lookup_alter_eq, Hk. simpl. by rewrite (IH k Hat Hm).
    + by rewrite list_lookup_alter_ne.
Qed.

Lemma edit_at_same (pl : place) fa fk (d : document) a ks :
  elem_at pl d = Some (a, ks) -> fa a = a -> fk ks = ks ->
  edit_at pl fa fk d = d.
Proof.
  assert (Hnode : forall a0 kids i p,
            match node_at (i :: p) (Elem a0 kids) with
            | Some (Elem a1 ks1) => Some (a1, ks1)
            | _ => None
            end = Some (a, ks) -> fa a = a -> fk ks = ks ->
            alter (alter_node (on_elem fa fk) p) i kids = kids).
  { intros a0 kids i p H Ha Hks.
    destruct (node_at (i :: p) (Elem a0 kids)) as [[a1 ks1|data]|] eqn:Hat;
      try done.
    injection H as -> ->.
    pose proof (alter_node_same (on_elem fa fk) _ _ _ Hat) as Hsame.
    simpl in Hsame. rewrite Ha, Hks in Hsame. specialize (Hsame eq_refl).
    by injection Hsame. }
  destruct pl as [[|i p]|[|i p]]; unfold elem_at, edit_at.
  - simpl. intros [= <- <-] -> ->. by destruct d.
  - intros H Ha Hks. rewrite (Hnode _ _ _ _ H Ha Hks). by destruct d.
  - simpl. intros [= <- <-] -> ->. by destruct d.
  - intros H Ha Hks. rewrite (Hnode _ _ _ _ H Ha Hks). by destruct d.
Qed.

(** Two writes to the same element are one write. *)
Lemma alter_node_twice (f g : node -> node) (p : list nat) (n : node) :
  alter_node g p (alter_node f p n) = alter_node (g ∘ f) p n.
Proof.
  revert n. induction p as [|i p IH]; intros n; simpl; [done |].
  destruct n as [a kids | data]; simpl; [| done]. f_equal.
  change (list_alter ?h i ?l) with (alter h i l).
  rewrite list_alter_alter_eq. apply list_alter_ext; [| done].
  intros k _. apply IH.
Qed.

Lemma edit_at_twice (pl : place) fa fk ga gk (d : document) :
  edit_at pl ga gk (edit_at pl fa fk d) = edit_at pl (ga ∘ fa) (gk ∘ fk) d.
Proof.
  assert (Hkids : forall (i : nat) p (kids : list node),
            alter (alter_node (on_elem ga gk) p) i
              (alter (alter_node (on_elem fa fk) p) i kids) =
            alter (alter_node (on_elem (ga ∘ fa) (gk ∘ fk)) p) i kids).
  { intros i p kids. rewrite list_alter_alter_eq. apply list_alter_ext; [| done].
    intros k _. simpl. rewrite alter_node_twice.
    clear. revert k. induction p as [|j p IH]; intros k; simpl.
    - by destruct k.
    - destruct k as [a kids | data]; [| done]. f_equal.
      apply list_alter_ext; [| done]. intros k' _. apply IH. }
  destruct pl as [[|i p]|[|i p]]; unfold edit_at, set_head, set_body; simpl;
    try done; f_equal; apply Hkids.
Qed.

(** ** Class lists *)

Lemma tokens_remove_spec (tok c : string) (cs : list string) :
  c ∈ tokens_remove tok cs <-> c <> tok /\ c ∈ cs.
Proof. unfold tokens_remove. by rewrite list_elem_of_filter. Qed.

Lemma tokens_add_spec (tok c : string) (cs : list string) :
  c ∈ tokens_add tok cs <-> c = tok \/ c ∈ cs.
Proof.
  unfold tokens_add. case_bool_decide.
  - split; [by right | by intros [-> | ?]].
  - rewrite elem_of_app, list_elem_of_singleton. tauto.
Qed.

Lemma tokens_toggle_spec (tok c : string) (cs : list string) :
  c ∈ tokens_toggle tok cs <-> (c = tok /\ tok ∉ cs) \/ (c <> tok /\ c ∈ cs).
Proof.
  unfold tokens_toggle. case_bool_decide as Hin.
  - rewrite tokens_remove_spec. split; [by right | by intros [[_ ?] | ?]].
  - rewrite elem_of_app, list_elem_of_singleton. split.
    + intros [Hc | ->]; [right | by left]. split; [| done]. by intros ->.
    + intros [[-> _] | [_ ?]]; [by right | by left].
Qed.

Lemma tokens_remove_absent (tok : string) (cs : list string) :
  tok ∉ cs -> tokens_remove tok cs = cs.
Proof.
  intros Hno. unfold tokens_remove.
  induction cs as [|c cs IH]; [done |].
  apply not_elem_of_cons in Hno as [Hne Hno].
  rewrite filter_cons_True by done. by rewrite IH.
Qed.

Lemma tokens_remove_add (tok : string) (cs : list string) :
  tok ∉ cs -> tokens_remove tok (tokens_add tok cs) = cs.
Proof.
  intros Hno. unfold tokens_add. rewrite bool_decide_eq_false_2 by done.
  unfold tokens_remove. rewrite filter_app.
  change (filter (fun c => c ≠ tok) cs) with (tokens_remove tok cs).
  rewrite tokens_remove_absent by done.
  rewrite filter_cons_False by (by intros ?). apply app_nil_r.
Qed.

(** One write to the class list of the element a lookup found. *)
Lemma class_write (f : list string -> list string) name pl d a ks :
  getElementById name d = Some pl ->
  elem_at pl d = Some (a, ks) ->
  write (Some pl) (on_classes f) (fun ks => ks) d =
    (Normal tt, edit_at pl (on_classes f) (fun ks => ks) d) /\
  getElementById name (edit_at pl (on_classes f) (fun ks => ks) d) = Some pl /\
  elem_at pl (edit_at pl (on_classes f) (fun ks => ks) d) =
    Some (set_attrs_classes (f (classes a)) a, ks).
Proof.
  intros Hget Hat. split; [by apply (write_found _ _ _ _ a ks) |]. split.
  - unfold getElementById. rewrite find_first_edit_at by apply has_id_on_classes.
    exact Hget.
  - by rewrite (elem_at_edit_at _ _ _ _ _ _ Hat).
Qed.

(** A write to the class list of one element leaves the properties of
    every other element as they are. *)
Lemma node_at_alter_other (fa : attrs -> attrs) (p q : list nat) (n : node) a ks :
  node_at p n = Some (Elem a ks) -> p <> q ->
  exists ks', node_at p (alter_node (on_elem fa (fun ks => ks)) q n) = Some (Elem a ks').
Proof.
  revert q n. induction p as [|i p IH]; intros q n; simpl.
  - intros [= ->] Hne. destruct q as [|j q]; [done |]. simpl. by eexists.
  - destruct n as [a0 kids | data]; [| done].
    destruct (kids !! i) as [k|] eqn:Hk; simpl; [| done].
    intros Hat Hne. destruct q as [|j q]; simpl.
    + rewrite Hk. simpl. by eexists.
    + destruct (decide (i = j)) as [<-|Hij].
      * rewrite list_lookup_alter_eq, Hk. simpl. apply IH; [done |]. congruence.
      * rewrite list_lookup_alter_ne by done. rewrite Hk. simpl. by eexists.
Qed.

Lemma elem_at_edit_other (fa : attrs -> attrs) (pl pl' : place) (d : document) a ks :
  elem_at pl d = Some (a, ks) -> pl <> pl' ->
  exists ks', elem_at pl (edit_at pl' fa (fun ks => ks) d) = Some (a, ks').
Proof.
  assert (Hnode : forall p q n,
            match node_at p n with
            | Some (Elem a1 ks1) => Some (a1, ks1)
            | _ => None
            end = Some (a, ks) -> p <> q ->
            exists ks',
              match node_at p (alter_node (on_elem fa (fun ks => ks)) q n) with
              | Some (Elem a1 ks1) => Some (a1, ks1)
              | _ => None
              end = Some (a, ks')).
  { intros p q n H Hne.
    destruct (node_at p n) as [[a1 ks1|data]|] eqn:Hat; try done.
    injection H as -> ->.
    destruct (node_at_alter_other fa p q n a ks Hat Hne) as [ks' ->]. by eexists. }
  intros Hat Hne.
  destruct pl as [p|p], pl' as [q|q]; unfold elem_at in *.
  - assert (Hpq : p <> q) by congruence.
    destruct (Hnode _ _ _ Hat Hpq) as [ks' Hks']. exists ks'.
    by destruct q as [|j q].
  - exists ks. by destruct q as [|j q].
  - exists ks. by destruct q as [|j q].
  - assert (Hpq : p <> q) by congruence.
    destruct (Hnode _ _ _ Hat Hpq) as [ks' Hks']. exists ks'.
    by destruct q as [|j q].
Qed.

(** A write that does to the element what another write does is that
    write. *)
Lemma alter_node_ext_at (f g : node -> node) (p : list nat) (n m : node) :
  node_at p n = Some m -> f m = g m -> alter_node f p n = alter_node g p n.
Proof.
  revert n. induction p as [|i p IH]; intros n; simpl.
  - by intros [= ->].
  - destruct n as [a kids | data]; [| done].
    destruct (kids !! i) as [k|] eqn:Hk; simpl; [| done].
    intros Hat Hm. f_equal. apply list_alter_ext; [| done].
    intros k' Hk'. rewrite Hk in Hk'. injection Hk' as <-. by apply IH.
Qed.

Lemma edit_at_ext_at (pl : place) fa ga fk (d : document) a ks :
  elem_at pl d = Some (a, ks) -> fa a = ga a ->
  edit_at pl fa fk d = edit_at pl ga fk d.
Proof.
  assert (Hnode : forall a0 kids i p,
            match node_at (i :: p) (Elem a0 kids) with
            | Some (Elem a1 ks1) => Some (a1, ks1)
            | _ => None
            end = Some (a, ks) -> fa a = ga a ->
            alter (alter_node (on_elem fa fk) p) i kids =
            alter (alter_node (on_elem ga fk) p) i kids).
  { intros a0 kids i p H Ha.
    destruct (node_at (i :: p) (Elem a0 kids)) as [[a1 ks1|data]|] eqn:Hat;
      try done.
    injection H as -> ->.
    pose proof (alter_node_ext_at (on_elem fa fk) (on_elem ga fk) _ _ _ Hat) as Hext.
    simpl in Hext. rewrite Ha in Hext. specialize (Hext eq_refl).
    by injection Hext. }
  destruct pl as [[|i p]|[|i p]]; unfold elem_at, edit_at.
  - simpl. intros [= <- <-] ->. done.
  - intros H Ha. by rewrite (Hnode _ _ _ _ H Ha).
  - simpl. intros [= <- <-] ->. done.
  - intros H Ha. by rewrite (Hnode _ _ _ _ H Ha).
Qed.

(** The document in which the element at [pl] has the class list [cs] and
    everything else is as in [d]. *)
Lemma class_list_replaced (cs : list string) name pl d a ks :
  getElementById name d = Some pl ->
  elem_at pl d = Some (a, ks) ->
  let d' := edit_at pl (set_attrs_classes cs) (fun ks => ks) d in
  getElementById name d' = Some pl /\
  elem_at pl d' = Some (set_attrs_classes cs a, ks) /\
  (forall pl' a' ks', pl' <> pl -> elem_at pl' d = Some (a', ks') ->
     exists ks'', elem_at pl' d' = Some (a', ks'')) /\
  timers d' = timers d /\ next_handle d' = next_handle d.
Proof.
  intros Hget Hat d'. subst d'. split; [| split; [| split]].
  - unfold getElementById. by rewrite find_first_edit_at.
  - by rewrite (elem_at_edit_at _ _ _ _ _ _ Hat).
  - intros pl' a' ks' Hne Hat'. by apply (elem_at_edit_other _ _ _ _ _ ks').
  - by destruct pl as [[|i p]|[|i p]].
Qed.

(** X11.  For an id that an element of the document has, [DOM.show],
    [DOM.hide] and [DOM.toggle] return normally and leave the document as
    it was but for the class list of that element: after [show] the class
    [hidden] is not on it, after [hide] it is, after [toggle] it is
    exactly when it was not before, and every other class is kept.  In
    the document left, the id still resolves to that element, whose other
    properties and children are as before; every other element has the
    properties it had; and the timers are as before. *)
Theorem visibility_of_found_element (name : string) (d : document) (pl : place)
    (a : attrs) (ks : list node) :
  getElementById name d = Some pl ->
  elem_at pl d = Some (a, ks) ->
  let with_classes cs := edit_at pl (set_attrs_classes cs) (fun ks => ks) d in
  (exists cs,
     Utils.DOM.show (Utils.DOM.Name name) d = (Normal tt, with_classes cs) /\
     ("hidden" ∉ cs) /\ (forall c, c <> "hidden" -> (c ∈ cs <-> c ∈ classes a))) /\
  (exists cs,
     Utils.DOM.hide (Utils.DOM.Name name) d = (Normal tt, with_classes cs) /\
     "hidden" ∈ cs /\ (forall c, c <> "hidden" -> (c ∈ cs <-> c ∈ classes a))) /\
  (exists cs,
     Utils.DOM.toggle (Utils.DOM.Name name) d = (Normal tt, with_classes cs) /\
     ("hidden" ∈ cs <-> "hidden" ∉ classes a) /\
     (forall c, c <> "hidden" -> (c ∈ cs <-> c ∈ classes a))) /\
  (forall cs,
     getElementById name (with_classes cs) = Some pl /\
     elem_at pl (with_classes cs) = Some (set_attrs_classes cs a, ks) /\
     (forall pl' a' ks', pl' <> pl -> elem_at pl' d = Some (a', ks') ->
        exists ks'', elem_at pl' (with_classes cs) = Some (a', ks'')) /\
     timers (with_classes cs) = timers d /\
     next_handle (with_classes cs) = next_handle d).
Proof.
  intros Hget Hat with_classes.
  assert (Hwrite : forall f,
            write (Some pl) (on_classes f) (fun ks => ks) d =
            (Normal tt, with_classes (f (classes a)))).
  { intros f. rewrite (write_found _ _ _ _ _ _ Hat). f_equal.
    by apply (edit_at_ext_at _ _ _ _ _ _ _ Hat). }
  unfold Utils.DOM.show, Utils.DOM.hide, Utils.DOM.toggle, Utils.DOM.resolve,
    Utils.DOM.get, classList_remove, classList_add, classList_toggle.
  rewrite Hget. split; [| split; [| split]].
  - eexists. split; [apply Hwrite |]. split.
    + rewrite tokens_remove_spec. by intros [? _].
    + intros c Hc. rewrite tokens_remove_spec. tauto.
  - eexists. split; [apply Hwrite |]. split.
    + rewrite tokens_add_spec. by left.
    + intros c Hc. rewrite tokens_add_spec. tauto.
  - eexists. split; [apply Hwrite |]. split.
    + rewrite tokens_toggle_spec. tauto.
    + intros c Hc. rewrite tokens_toggle_spec. tauto.
  - intros cs. by apply class_list_replaced.
Qed.

Lemma visibility_of_found_element_witness :
  getElementById "dlg" page = Some (InBody [1%nat]) /\
  exists cs,
    Utils.DOM.show (Utils.DOM.Name "dlg") page =
      (Normal tt, edit_at (InBody [1%nat]) (set_attrs_classes cs) (fun ks => ks) page) /\
    ("hidden" ∉ cs) /\
    (forall c, c <> "hidden" -> (c ∈ cs <-> c ∈ ["modal-overlay"; "hidden"])).
Proof.
  split; [reflexivity |].
  exact (proj1 (visibility_of_found_element "dlg" page (InBody [1%nat]) _ _
                  eq_refl eq_refl)).
Defined.

(** X12.  Round trips of the visibility helpers on an element that an id
    resolves to, for documents compared by their trees, ids, properties
    and class lists as lists of tokens (the text of a class attribute,
    which a write to the class list rewrites in normalised form, is not
    part of a document here).  [DOM.hide] and [DOM.show] are idempotent:
    calling one twice leaves the document that calling it once leaves.
    For an element that is not hidden, [DOM.hide] followed by [DOM.show],
    and [DOM.toggle] called twice, give back a document with the same
    tree, in which every element has the tokens of its class list, in
    their order, and its other properties as before. *)
Theorem visibility_round_trips (name : string) (d : document) (pl : place) :
  getElementById name d = Some pl ->
  (Utils.DOM.hide (Utils.DOM.Name name) ;;; Utils.DOM.hide (Utils.DOM.Name name)) d =
    Utils.DOM.hide (Utils.DOM.Name name) d /\
  (Utils.DOM.show (Utils.DOM.Name name) ;;; Utils.DOM.show (Utils.DOM.Name name)) d =
    Utils.DOM.show (Utils.DOM.Name name) d /\
  (forall a ks, elem_at pl d = Some (a, ks) -> "hidden" ∉ classes a ->
     (Utils.DOM.hide (Utils.DOM.Name name) ;;; Utils.DOM.show (Utils.DOM.Name name)) d =
       (Normal tt, d) /\
     (Utils.DOM.toggle (Utils.DOM.Name name) ;;; Utils.DOM.toggle (Utils.DOM.Name name)) d =
       (Normal tt, d)).
Proof.
  intros Hget.
  destruct (find_first_sound _ _ _ Hget) as (a & ks & Hat & _).
  assert (Htwice : forall f g,
            (forall cs, g (f cs) = f cs) ->
            (dom_bind (write (Some pl) (on_classes f) (fun ks => ks))
               (fun _ d' => write (getElementById name d') (on_classes g)
                              (fun ks => ks) d')) d =
            write (Some pl) (on_classes f) (fun ks => ks) d).
  { intros f g Hgf. unfold dom_bind.
    destruct (class_write f name pl d a ks Hget Hat) as (-> & Hget' & Hat').
    rewrite Hget'.
    destruct (class_write g name pl _ _ ks Hget' Hat') as (-> & _ & _).
    f_equal. apply (edit_at_same _ _ _ _ _ _ Hat'); [| done].
    unfold on_classes, set_attrs_classes. simpl. by rewrite Hgf. }
  assert (Hback : forall f g,
            g (f (classes a)) = classes a ->
            (dom_bind (write (Some pl) (on_classes f) (fun ks => ks))
               (fun _ d' => write (getElementById name d') (on_classes g)
                              (fun ks => ks) d')) d =
            (Normal tt, d)).
  { intros f g Hgf. unfold dom_bind.
    destruct (class_write f name pl d a ks Hget Hat) as (-> & Hget' & Hat').
    rewrite Hget'.
    destruct (class_write g name pl _ _ ks Hget' Hat') as (-> & _ & _).
    f_equal. rewrite edit_at_twice. apply (edit_at_same _ _ _ _ _ _ Hat); [| done].
    unfold on_classes, set_attrs_classes. simpl. rewrite Hgf. by destruct a. }
  unfold Utils.DOM.show, Utils.DOM.hide, Utils.DOM.toggle, Utils.DOM.resolve,
    Utils.DOM.get, classList_remove, classList_add, classList_toggle.
  split; [| split].
  - unfold dom_bind at 1. rewrite Hget. apply (Htwice (tokens_add "hidden")).
    intros cs. unfold tokens_add at 1.
    by rewrite bool_decide_eq_true_2 by apply tokens_add_elem.
  - unfold dom_bind at 1. rewrite Hget. apply (Htwice (tokens_remove "hidden")).
    intros cs. apply tokens_remove_absent. rewrite tokens_remove_spec.
    by intros [? _].
  - intros a' ks' Hat' Hvis. rewrite Hat in Hat'. injection Hat' as <- <-.
    split; unfold dom_bind at 1; rewrite Hget.
    + apply (Hback (tokens_add "hidden")). by apply tokens_remove_add.
    + apply (Hback (tokens_toggle "hidden")).
      unfold tokens_toggle at 2. rewrite bool_decide_eq_false_2 by done.
      unfold tokens_toggle.
      rewrite bool_decide_eq_true_2
        by (apply elem_of_app; right; apply list_elem_of_here).
      unfold tokens_remove. rewrite filter_app.
      rewrite filter_cons_False by (by intros ?).
      change (filter (fun c => c ≠ "hidden") (classes a))
        with (tokens_remove "hidden" (classes a)).
      rewrite tokens_remove_absent by done. apply app_nil_r.
Qed.

Lemma visibility_round_trips_witness :
  getElementById "save" form_page = Some (InBody [1%nat]) /\
  elem_at (InBody [1%nat]) form_page =
    Some ({| tag := "button"; id := "save"; classes := ["btn"];
             disabled := true; overflow := EmptyString; toast := None |},
          [Text "Save"]) /\
  ("hidden" ∉ ["btn"]) /\
  (Utils.DOM.hide (Utils.DOM.Name "save") ;;; Utils.DOM.show (Utils.DOM.Name "save"))
    form_page = (Normal tt, form_page).
Proof.
  assert (Hvis : "hidden" ∉ ["btn"]).
  { apply (bool_decide_unpack _). vm_compute. exact I. }
  split; [reflexivity |]. split; [reflexivity |]. split; [exact Hvis |].
  exact (proj1 (proj2 (proj2 (visibility_round_trips "save" form_page
           (InBody [1%nat]) eq_refl)) _ _ eq_refl Hvis)).
Defined.

(** ** [Loading] *)

(** X13.  For an id that an element of the document has, [Loading.show]
    replaces the children of that element by the spinner and disables it,
    and [Loading.hide] afterwards puts the content it is given in their
    place and enables the element, whether or not it was enabled before
    [show]: the two calls give back the document as it was exactly when
    the element was enabled and the content given is what it held. *)
Theorem loading_show_then_hide (name : string) (content : list node)
    (d : document) (pl : place) (a : attrs) (ks : list node) :
  getElementById name d = Some pl ->
  elem_at pl d = Some (a, ks) ->
  exists d1 d2,
    Utils.Loading.show name d = (Normal tt, d1) /\
    getElementById name d1 = Some pl /\
    elem_at pl d1 = Some (set_attrs_disabled true a, Utils.Loading.spinner) /\
    Utils.Loading.hide name content d1 = (Normal tt, d2) /\
    getElementById name d2 = Some pl /\
    elem_at pl d2 = Some (set_attrs_disabled false a, parsed <$> content) /\
    (d2 = d <-> disabled a = false /\ parsed <$> content = ks).
Proof.
  intros Hget Hat.
  assert (Hstep : forall b (new : list node) d0 a0 ks0,
            getElementById name d0 = Some pl -> elem_at pl d0 = Some (a0, ks0) ->
            let d' := edit_at pl (set_attrs_disabled b) (fun _ => new) d0 in
            (write (Some pl) (fun a => a) (fun _ => new) ;;;
             write (Some pl) (set_attrs_disabled b) (fun ks => ks)) d0 =
              (Normal tt, d') /\
            getElementById name d' = Some pl /\
            elem_at pl d' = Some (set_attrs_disabled b a0, new)).
  { intros b new d0 a0 ks0 Hget0 Hat0 d'. subst d'. unfold dom_bind.
    rewrite (write_found _ _ _ _ _ _ Hat0).
    pose proof (elem_at_edit_at pl (fun a => a) (fun _ => new) d0 _ _ Hat0) as Hat1.
    rewrite (write_found _ _ _ _ _ _ Hat1). rewrite edit_at_twice.
    split; [done |]. split.
    - by apply find_first_edit_at_found.
    - by rewrite (elem_at_edit_at _ _ _ _ _ _ Hat0). }
  destruct (Hstep true Utils.Loading.spinner d a ks Hget Hat) as (Hshow & Hget1 & Hat1).
  destruct (Hstep false (parsed <$> content) _ _ _ Hget1 Hat1)
    as (Hhide & Hget2 & Hat2).
  eexists _, _.
  split; [by unfold Utils.Loading.show, Utils.DOM.get; rewrite Hget |].
  split; [exact Hget1 |]. split; [exact Hat1 |].
  split; [by unfold Utils.Loading.hide, Utils.DOM.get; rewrite Hget1 |].
  split; [exact Hget2 |]. split; [exact Hat2 |].
  split.
  - intros Heq. rewrite Heq, Hat in Hat2. injection Hat2 as Ha Hks.
    split; [| done]. by rewrite Ha.
  - intros [Ha Hks]. rewrite edit_at_twice.
    apply (edit_at_same _ _ _ _ _ _ Hat); [| done].
    simpl. destruct a. simpl in *. by subst.
Qed.

Lemma loading_show_then_hide_witness :
  getElementById "save" form_page = Some (InBody [1%nat]) /\
  exists d1 d2,
    Utils.Loading.show "save" form_page = (Normal tt, d1) /\
    getElementById "save" d1 = Some (InBody [1%nat]) /\
    elem_at (InBody [1%nat]) d1 =
      Some ({| tag := "button"; id := "save"; classes := ["btn"];
               disabled := true; overflow := EmptyString; toast := None |},
            Utils.Loading.spinner) /\
    Utils.Loading.hide "save" [Text "Save"] d1 = (Normal tt, d2) /\
    getElementById "save" d2 = Some (InBody [1%nat]) /\
    elem_at (InBody [1%nat]) d2 =
      Some ({| tag := "button"; id := "save"; classes := ["btn"];
               disabled := false; overflow := EmptyString; toast := None |},
            [Text "Save"]) /\
    (d2 = form_page <-> true = false /\ [Text "Save"] = [Text "Save"]).
Proof.
  split; [reflexivity |].
  exact (loading_show_then_hide "save" [Text "Save"] form_page (InBody [1%nat])
           _ _ eq_refl eq_refl).
Defined.

(** ** Notifications and their timers *)

Lemma show_timers message type duration (d : document) :
  let d' := (Utils.Notification.show message type duration d).2 in
  timers d' = timers d ++ [(next_handle d, duration)] /\
  next_handle d' = S (next_handle d).
Proof.
  unfold Utils.Notification.show.
  by destruct (querySelector (IdSel Utils.Notification.marker) d).
Qed.

Lemma notification_held h c message :
  held (Utils.Notification.held_by h
          (Utils.DOM.create "div" [Utils.DOM.className c; Utils.DOM.innerHTML message]
             EmptyString)) (h, 0).
Proof.
  unfold held, Utils.DOM.create. simpl. split; [done |]. apply parsed_toast_free.
Qed.

Lemma prune_held h (n : node) (t : nat * Z) :
  held n t ->
  prune_node h n = if bool_decide (t.1 = h) then None else Some n.
Proof.
  destruct n as [a kids | data]; unfold held; simpl; intros [Hroot Hkids];
    [| done].
  rewrite Hroot.
  destruct (decide (t.1 = h)) as [->|Hne].
  - by rewrite !bool_decide_eq_true_2.
  - rewrite !bool_decide_eq_false_2 by congruence.
    do 2 f_equal. by apply (prune_toast_free h kids).
Qed.

Lemma prune_notes h (notes : list node) (ts : list (nat * Z)) :
  Forall2 held notes ts ->
  Forall2 held (prune h notes) (filter (fun t => t.1 ≠ h) ts).
Proof.
  unfold prune. induction 1 as [|n t notes ts Hnt _ IH]; [constructor |].
  rewrite omap_cons_unfold, (prune_held h n t Hnt), filter_cons.
  destruct (decide (t.1 = h)) as [Heq|Hne].
  - rewrite bool_decide_eq_true_2 by done.
    by rewrite decide_False by (by intros ?).
  - rewrite bool_decide_eq_false_2 by done. rewrite decide_True by done.
    by constructor.
Qed.

Lemma prune_notes_absent h (notes : list node) (ts : list (nat * Z)) :
  Forall2 held notes ts -> h ∉ ts.*1 -> prune h notes = notes.
Proof.
  unfold prune. induction 1 as [|n t notes ts Hnt _ IH]; [done |].
  rewrite fmap_cons, not_elem_of_cons. intros [Hne Hno].
  rewrite omap_cons_unfold, (prune_held h n t Hnt).
  rewrite bool_decide_eq_false_2 by congruence. f_equal. by apply IH.
Qed.

Lemma filter_keys_absent h (ts : list (nat * Z)) :
  h ∉ ts.*1 -> filter (fun t => t.1 ≠ h) ts = ts.
Proof.
  induction ts as [|t ts IH]; [done |].
  rewrite fmap_cons, not_elem_of_cons. intros [Hne Hno].
  rewrite filter_cons_True by congruence. f_equal. by apply IH.
Qed.

Lemma NoDup_filter_keys h (ts : list (nat * Z)) :
  NoDup ts.*1 -> NoDup (filter (fun t => t.1 ≠ h) ts).*1.
Proof.
  induction ts as [|t ts IH]; [done |].
  rewrite fmap_cons, NoDup_cons. intros [Hno Hnd].
  rewrite filter_cons. destruct (decide (t.1 ≠ h)); [| by apply IH].
  rewrite fmap_cons, NoDup_cons. split; [| by apply IH].
  intros (t' & Heq & Hmem%list_elem_of_filter)%list_elem_of_fmap.
  apply Hno. apply list_elem_of_fmap. exists t'. tauto.
Qed.

Lemma toasts_pending_step d0 d e :
  forallb toast_free (body_kids d0) = true ->
  toasts_pending d0 d -> toasts_pending d0 (step d e).
Proof.
  intros Hfree (notes & Hkids & Hheld & Hnd & Hlt).
  destruct e as [message type duration | h]; unfold step.
  - destruct (show_writes message type duration d) as (_ & _ & _ & Wbk).
    destruct (show_timers message type duration d) as (Wt & Wn).
    eexists (notes ++ [_]). rewrite Wbk, Wt, Wn, Hkids, <- app_assoc.
    split; [reflexivity |]. split; [| split].
    + apply Forall2_app; [done |]. constructor; [| constructor].
      apply (notification_held (next_handle d)).
    + rewrite fmap_app. apply NoDup_app. split; [done |]. split; [| apply NoDup_singleton].
      intros x (t & -> & Hmem)%list_elem_of_fmap Hx.
      apply list_elem_of_singleton in Hx. simpl in Hx.
      rewrite Forall_forall in Hlt. specialize (Hlt _ Hmem). lia.
    + apply Forall_app. split.
      * eapply Forall_impl; [exact Hlt |]. simpl. lia.
      * constructor; [simpl; lia | constructor].
  - unfold Utils.Notification.fire. case_bool_decide as Hin.
    + exists (prune h notes). simpl. rewrite Hkids.
      unfold prune at 1. rewrite omap_app.
      change (omap (prune_node h) ?l) with (prune h l).
      rewrite (prune_toast_free h _ Hfree).
      split; [done |]. split; [by apply prune_notes |].
      split; [by apply NoDup_filter_keys |].
      apply Forall_forall. intros t [_ Hmem]%list_elem_of_filter.
      rewrite Forall_forall in Hlt. by apply Hlt.
    + by exists notes.
Qed.

Lemma toasts_pending_run d0 events d :
  forallb toast_free (body_kids d0) = true ->
  toasts_pending d0 d -> toasts_pending d0 (run events d).
Proof.
  intros Hfree. revert d. induction events as [|e events IH]; intros d Hd; [done |].
  simpl. apply IH. by apply toasts_pending_step.
Qed.

(** X14.  Over any sequence of [Notification.show] calls and dismissal
    timers firing, starting from a freshly loaded page, the children of
    the body are those of the loaded page followed by one notification per
    pending timer, in the order the notifications were shown.  So when no
    timer is pending the body is as it was loaded; a pending timer, when
    it fires, removes its own notification and nothing else of the body;
    and a handle with no pending timer changes nothing. *)
Theorem notifications_follow_their_timers (page : document) (events : list event) :
  let d0 := loaded page in
  let d := run events d0 in
  toasts_pending d0 d /\
  (timers d = [] -> body_kids d = body_kids d0) /\
  (forall h, h ∈ (timers d).*1 ->
     exists pre n post,
       body_kids d = pre ++ n :: post /\ root_toast n = Some h /\
       body_kids (Utils.Notification.fire h d) = pre ++ post /\
       timers (Utils.Notification.fire h d) = filter (fun t => t.1 ≠ h) (timers d)) /\
  (forall h, h ∉ (timers d).*1 -> Utils.Notification.fire h d = d).
Proof.
  intros d0 d.
  assert (Hfree : forallb toast_free (body_kids d0) = true)
    by apply parsed_toast_free.
  assert (Hinv : toasts_pending d0 d).
  { apply toasts_pending_run; [done |]. exists []. simpl.
    rewrite app_nil_r. repeat split; constructor. }
  split; [exact Hinv |].
  destruct Hinv as (notes & Hkids & Hheld & Hnd & Hlt).
  split; [| split].
  - intros Hnone. rewrite Hnone in Hheld. apply Forall2_nil_inv_r in Hheld.
    by rewrite Hkids, Hheld, app_nil_r.
  - intros h Hin. unfold Utils.Notification.fire.
    rewrite bool_decide_eq_true_2 by done. simpl.
    apply list_elem_of_fmap in Hin as ([h' z] & -> & Hmem). simpl.
    apply list_elem_of_split in Hmem as (ts1 & ts2 & Hts).
    rewrite Hts in Hheld, Hnd.
    apply Forall2_app_inv_r in Hheld as (n1 & rest & Hn1 & Hrest & ->).
    apply Forall2_cons_inv_r in Hrest as (n & n2 & Hn & Hn2 & ->).
    rewrite fmap_app, fmap_cons in Hnd. apply NoDup_app in Hnd as (_ & Hdisj & Hnd).
    apply NoDup_cons in Hnd as [Hno2 _]. simpl in Hno2.
    assert (Hno1 : h' ∉ ts1.*1).
    { intros Hin1. apply (Hdisj _ Hin1). apply list_elem_of_here. }
    exists (body_kids d0 ++ n1), n, n2.
    rewrite Hkids, <- app_assoc. split; [done |]. split; [apply Hn |]. split; [| done].
    unfold prune. rewrite !omap_app, omap_cons_unfold.
    change (omap (prune_node h') ?l) with (prune h' l).
    rewrite (prune_toast_free h' _ Hfree).
    rewrite (prune_notes_absent h' _ _ Hn1 Hno1).
    rewrite (prune_notes_absent h' _ _ Hn2 Hno2).
    rewrite (prune_held h' n _ Hn). simpl.
    rewrite bool_decide_eq_true_2 by done. by rewrite app_assoc.
  - intros h Hout. unfold Utils.Notification.fire.
    by rewrite bool_decide_eq_false_2 by done.
Qed.

(** ** The sidebar *)

Lemma has_class_toggle_other (name tok : string) (a : attrs) :
  name <> tok ->
  has_class name (on_classes (tokens_toggle tok) a) = has_class name a.
Proof.
  intros Hne. unfold has_class, on_classes. simpl.
  apply bool_decide_ext. rewrite tokens_toggle_spec. tauto.
Qed.

(** X17.  On a page that has a sidebar and a main content area (two
    elements), [toggleSidebar] returns normally and flips the class [open]
    on the sidebar and the class [expanded] on the main content: each is
    on its element afterwards exactly when it was not before.  The other
    classes and properties of the two elements are kept, and the two
    selectors still find them. *)
Theorem toggleSidebar_flips_both (d : document) (ps pm : place)
    (a_s a_m : attrs) (ks_s ks_m : list node) :
  querySelector (ClassSel "sidebar") d = Some ps ->
  querySelector (ClassSel "main-content") d = Some pm ->
  ps <> pm ->
  elem_at ps d = Some (a_s, ks_s) ->
  elem_at pm d = Some (a_m, ks_m) ->
  exists d' cs_s cs_m ks_s' ks_m',
    JsUtils.toggleSidebar d = (Normal tt, d') /\
    querySelector (ClassSel "sidebar") d' = Some ps /\
    querySelector (ClassSel "main-content") d' = Some pm /\
    elem_at ps d' = Some (set_attrs_classes cs_s a_s, ks_s') /\
    elem_at pm d' = Some (set_attrs_classes cs_m a_m, ks_m') /\
    ("open" ∈ cs_s <-> "open" ∉ classes a_s) /\
    ("expanded" ∈ cs_m <-> "expanded" ∉ classes a_m) /\
    (forall c, c <> "open" -> (c ∈ cs_s <-> c ∈ classes a_s)) /\
    (forall c, c <> "expanded" -> (c ∈ cs_m <-> c ∈ classes a_m)).
Proof.
  intros Hs Hm Hne Hats Hatm.
  unfold JsUtils.toggleSidebar, classList_toggle, dom_bind. rewrite Hs, Hm.
  rewrite (write_found _ _ _ _ _ _ Hats).
  pose proof (elem_at_edit_at ps (on_classes (tokens_toggle "open")) (fun ks => ks)
                d _ _ Hats) as Hats1.
  assert (Hmne : pm <> ps) by congruence.
  destruct (elem_at_edit_other (on_classes (tokens_toggle "open")) pm ps d _ _
              Hatm Hmne) as [ks_m' Hatm1].
  rewrite (write_found _ _ _ _ _ _ Hatm1).
  pose proof (elem_at_edit_at pm (on_classes (tokens_toggle "expanded"))
                (fun ks => ks) _ _ _ Hatm1) as Hatm2.
  destruct (elem_at_edit_other (on_classes (tokens_toggle "expanded")) ps pm _ _ _
              Hats1 Hne) as [ks_s' Hats2].
  eexists _, _, _, ks_s', ks_m'. split; [reflexivity |].
  split; [| split; [| split; [exact Hats2 | split; [exact Hatm2 |]]]].
  - unfold querySelector in *.
    rewrite !find_first_edit_at by (intros a; by apply has_class_toggle_other).
    exact Hs.
  - unfold querySelector in *.
    rewrite !find_first_edit_at by (intros a; by apply has_class_toggle_other).
    exact Hm.
  - split; [| split; [| split]].
    + rewrite tokens_toggle_spec. tauto.
    + rewrite tokens_toggle_spec. tauto.
    + intros c Hc. rewrite tokens_toggle_spec. tauto.
    + intros c Hc. rewrite tokens_toggle_spec. tauto.
Qed.

Lemma toggleSidebar_flips_both_witness :
  querySelector (ClassSel "sidebar") layout_page = Some (InBody [0%nat]) /\
  querySelector (ClassSel "main-content") layout_page = Some (InBody [1%nat]) /\
  InBody [0%nat] <> InBody [1%nat] /\
  exists d' cs_s cs_m ks_s' ks_m',
    JsUtils.toggleSidebar layout_page = (Normal tt, d') /\
    querySelector (ClassSel "sidebar") d' = Some (InBody [0%nat]) /\
    querySelector (ClassSel "main-content") d' = Some (InBody [1%nat]) /\
    elem_at (InBody [0%nat]) d' =
      Some ({| tag := "nav"; id := EmptyString; classes := cs_s;
               disabled := false; overflow := EmptyString; toast := None |},
            ks_s') /\
    elem_at (InBody [1%nat]) d' =
      Some ({| tag := "main"; id := EmptyString; classes := cs_m;
               disabled := false; overflow := EmptyString; toast := None |},
            ks_m') /\
    ("open" ∈ cs_s <-> "open" ∉ ["sidebar"]) /\
    ("expanded" ∈ cs_m <-> "expanded" ∉ ["main-content"]) /\
    (forall c, c <> "open" -> (c ∈ cs_s <-> c ∈ ["sidebar"])) /\
    (forall c, c <> "expanded" -> (c ∈ cs_m <-> c ∈ ["main-content"])).
Proof.
  assert (Hne : InBody [0%nat] <> InBody [1%nat]) by discriminate.
  split; [reflexivity |]. split; [reflexivity |]. split; [exact Hne |].
  exact (toggleSidebar_flips_both layout_page (InBody [0%nat]) (InBody [1%nat])
           _ _ _ _ eq_refl eq_refl Hne eq_refl eq_refl).
Defined.

End DocFacts.

(* ===================================================================== *)
(** * Facts about [debounce]                                              *)
(* ===================================================================== *)

Module DebounceFacts.
Import JS Behaviour Cases.
Import JsUtils.

(** A call of the debounced function, in a state where at most one timer
    is pending, leaves the timer it starts as the only one. *)
Lemma call_restarts (args : list jsval) (st : debounced) :
  one_timer st ->
  executedFunction args st =
    {| timeout := Some (next_timer st);
       pending := [(next_timer st, args)];
       next_timer := S (next_timer st);
       func_calls := func_calls st |}.
Proof.
  unfold executedFunction. intros [Hnone | (h & args0 & Ht & Hp)].
  - rewrite Hnone. by destruct (timeout st).
  - rewrite Ht, Hp. simpl. rewrite filter_cons_False by (by intros ?). done.
Qed.

Lemma one_timer_act (st : debounced) (a : action) :
  one_timer st -> one_timer (act st a).
Proof.
  intros Hone. destruct a as [args | h]; simpl.
  - rewrite (call_restarts args st Hone). right. by eexists _, _.
  - unfold timer_fires. destruct Hone as [Hnone | (h0 & args0 & Ht & Hp)].
    + rewrite Hnone. simpl. by left.
    + rewrite Hp. simpl. case_decide as Hh; simpl.
      * left. rewrite Ht. simpl. subst h.
        by rewrite filter_cons_False by (by intros ?).
      * right. by exists h0, args0.
Qed.

Lemma one_timer_acts (actions : list action) (st : debounced) :
  one_timer st -> one_timer (acts actions st).
Proof.
  revert st. induction actions as [|a actions IH]; intros st Hone; [done |].
  simpl. apply IH. by apply one_timer_act.
Qed.

Lemma calls_keep_func_calls (burst : list (list jsval)) (st : debounced) :
  one_timer st ->
  func_calls (acts (Call <$> burst) st) = func_calls st.
Proof.
  revert st. induction burst as [|args burst IH]; intros st Hone; [done |].
  simpl. rewrite IH by (by apply (one_timer_act st (Call args))).
  by rewrite (call_restarts args st Hone).
Qed.

(** X15.  In every state the debounced function can reach, at most one
    timer is pending.  A burst of calls, however long, calls [func] not
    once; it leaves one timer pending, and when that timer fires [func] is
    called exactly once, with the arguments of the last call of the
    burst.  After that no timer is pending, and a handle of an earlier
    call does nothing when the runtime is asked to fire it. *)
Theorem debounce_calls_once_with_last (actions : list action)
    (burst : list (list jsval)) (args : list jsval) :
  let st := acts actions debounce in
  let st' := acts (Call <$> (burst ++ [args])) st in
  one_timer st /\
  func_calls st' = func_calls st /\
  exists h,
    timeout st' = Some h /\ pending st' = [(h, args)] /\
    func_calls (timer_fires h st') = func_calls st ++ [args] /\
    pending (timer_fires h st') = [] /\
    forall h', timer_fires h' (timer_fires h st') = timer_fires h st'.
Proof.
  intros st st'.
  assert (Hone : one_timer st) by (apply one_timer_acts; by left).
  split; [exact Hone |].
  assert (Hcalls : func_calls st' = func_calls st)
    by (by apply calls_keep_func_calls).
  split; [exact Hcalls |].
  pose proof (one_timer_acts (Call <$> burst) st Hone) as Hone'.
  assert (Hlast : st' = executedFunction args (acts (Call <$> burst) st)).
  { subst st'. unfold acts. by rewrite fmap_app, foldl_app. }
  rewrite (call_restarts args _ Hone') in Hlast.
  rewrite Hlast in Hcalls. simpl in Hcalls. rewrite Hlast. simpl.
  eexists. split; [reflexivity |]. split; [reflexivity |].
  unfold timer_fires. simpl. rewrite decide_True by done. simpl.
  rewrite filter_cons_False by (by intros ?). simpl.
  split; [by rewrite Hcalls |]. split; [done |]. intros h'. done.
Qed.

End DebounceFacts.
